(** * agoraClient: session controller, token provider and token endpoint

    A shallow embedding of
      - [src/lib/agora-utils.ts]   (credential validator, token provider helpers),
      - [src/lib/agora-config.ts]  (the [AgoraClient] session controller),
      - the route handler of [/api/agora/token] (the [POST] and [GET] token
        endpoint),
      - [src/hooks/useAgoraAudience.ts] (the hook that drives the controller)
        and the checks that the two pages make before joining,
    followed by the properties of the specification that concern them and
    by further properties of the code.

    Conventions of the embedding.
      - A JavaScript string is the list of its UTF-16 code units.
      - A JavaScript number is an IEEE 754 binary64 value ([number]):
        every operation rounds to the nearest one, ties to even, and
        [toString] writes the shortest decimal that is read back as the
        same number.  Integers that the platform hands over (a response
        status, [Date.now()], a string length) are of type [Z].
      - [async] functions are run to completion: an [await] is a bind of the
        monad [M], a rejected promise is a thrown exception.
      - Everything the code does to the outside world (requests, engine and
        track calls) is appended to a chronological trace of events; what the
        outside world answers is given by an environment [Env], each answer
        being a function of the trace so far.
      - [console.log/warn/error] output is not part of the trace. *)

From Stdlib Require Import List ZArith NArith String Ascii Bool DecimalString.
From Stdlib Require Import Lia DecimalPos.
Import ListNotations.

Set Warnings "-register-all".

Local Open Scope string_scope.
Local Open Scope list_scope.

(* ===================================================================== *)
(** ** JavaScript values *)
(* ===================================================================== *)

Module JS.

(** A string is its sequence of UTF-16 code units. *)
Definition jsstring := list N.

(** The code units of an ASCII literal of the source. *)
Definition lit (s : string) : jsstring :=
  map N_of_ascii (list_ascii_of_string s).

Fixpoint str_eqb (a b : jsstring) : bool :=
  match a, b with
  | [], [] => true
  | x :: a', y :: b' => N.eqb x y && str_eqb a' b'
  | _, _ => false
  end.

(** [s.length] *)
Definition str_length (s : jsstring) : Z := Z.of_nat (List.length s).

(** WhiteSpace and LineTerminator code points of ECMAScript, the
    characters removed by [String.prototype.trim] and skipped by
    [parseInt]. *)
Definition is_whitespace (c : N) : bool :=
  ((9 <=? c) && (c <=? 13) || (c =? 32) || (c =? 160) || (c =? 5760)
   || (8192 <=? c) && (c <=? 8202)
   || (c =? 8232) || (c =? 8233) || (c =? 8239) || (c =? 8287)
   || (c =? 12288) || (c =? 65279))%N.

Fixpoint trimStart (s : jsstring) : jsstring :=
  match s with
  | c :: s' => if is_whitespace c then trimStart s' else s
  | [] => []
  end.

Definition trimEnd (s : jsstring) : jsstring := rev (trimStart (rev s)).

(** [s.trim()] *)
Definition trim (s : jsstring) : jsstring := trimEnd (trimStart s).

(** The character class [[a-f0-9]] under the [i] flag.  Without the [u]
    flag, case folding never maps a code unit above 127 to an ASCII
    letter, so the class is exactly the digits and the letters a-f, A-F. *)
Definition is_hex (c : N) : bool :=
  ((48 <=? c) && (c <=? 57) || (65 <=? c) && (c <=? 70)
   || (97 <=? c) && (c <=? 102))%N.

(** [/^[a-f0-9]{32}$/i.test(s)]: no [m] flag, so [^] and [$] are the two
    ends of the string. *)
Definition appIdPattern_test (s : jsstring) : bool :=
  Nat.eqb (List.length s) 32 && forallb is_hex s.

(** [/^00[67]/.test(s)] *)
Definition versionPattern_test (s : jsstring) : bool :=
  match s with
  | a :: b :: c :: _ => ((a =? 48) && (b =? 48) && ((c =? 54) || (c =? 55)))%N
  | _ => false
  end.

(** *** Numbers *)

(** A number is an IEEE 754 binary64 value.  [Finite neg m e] is
    [(-1)^neg * m * 2^e]; the values that the operations below produce
    have [2^52 <= m < 2^53] and [-1074 <= e <= 971], or [m < 2^52] and
    [e = -1074]. *)
Inductive number :=
| NaN
| Infinity (neg : bool)
| Zero (neg : bool)
| Finite (neg : bool) (m : positive) (e : Z).

Definition number_eqb (x y : number) : bool :=
  match x, y with
  | NaN, NaN => true
  | Infinity a, Infinity b => Bool.eqb a b
  | Zero a, Zero b => Bool.eqb a b
  | Finite a m e, Finite b m' e' => Bool.eqb a b && Pos.eqb m m' && Z.eqb e e'
  | _, _ => false
  end.

(** [floor (log2 (p / q))] for positive [p] and [q]. *)
Definition log2_ratio (p q : Z) : Z :=
  let l := (Z.log2 p - Z.log2 q)%Z in
  (if 0 <=? l
   then (if q * 2 ^ l <=? p then l else l - 1)
   else (if q <=? p * 2 ^ (- l) then l else l - 1))%Z.

(** The integer nearest to [num / den], the even one in a tie. *)
Definition nearest_even (num den : Z) : Z :=
  (let m := num / den in
   let r := num mod den in
   if (den <? 2 * r) || ((2 * r =? den) && Z.odd m) then m + 1 else m)%Z.

(** The number [(-1)^neg * m * 2^e] for [0 <= m <= 2^53]: a mantissa of
    [2^53] moves to the next exponent, past the largest exponent lies
    infinity. *)
Definition pack (neg : bool) (m e : Z) : number :=
  (let carry := m =? 2 ^ 53 in
   let m' := if carry then 2 ^ 52 else m in
   let e' := if carry then e + 1 else e in
   if 971 <? e' then Infinity neg
   else match m' with
        | Zpos k => Finite neg k e'
        | _ => Zero neg
        end)%Z.

(** The number nearest to [(-1)^neg * p / q] for positive [p] and [q],
    ties going to the even mantissa: the rounding of every operation. *)
Definition round_ratio (neg : bool) (p q : Z) : number :=
  (let e := Z.max (log2_ratio p q - 52) (-1074) in
   if 0 <=? e then pack neg (nearest_even p (q * 2 ^ e)) e
   else pack neg (nearest_even (p * 2 ^ (- e)) q) e)%Z.

(** The number of an integer literal, and of an integer that the
    platform hands over ([Date.now()], a response status). *)
Definition of_Z (n : Z) : number :=
  match n with
  | Z0 => Zero false
  | Zpos p => round_ratio false (Zpos p) 1
  | Zneg p => round_ratio true (Zpos p) 1
  end.

Definition signed (neg : bool) (m : positive) : Z :=
  if neg then Zneg m else Zpos m.

(** [- x] *)
Definition opp (x : number) : number :=
  match x with
  | NaN => NaN
  | Infinity neg => Infinity (negb neg)
  | Zero neg => Zero (negb neg)
  | Finite neg m e => Finite (negb neg) m e
  end.

(** [x + y] *)
Definition add (x y : number) : number :=
  match x, y with
  | NaN, _ | _, NaN => NaN
  | Infinity a, Infinity b => if Bool.eqb a b then Infinity a else NaN
  | Infinity a, _ => Infinity a
  | _, Infinity b => Infinity b
  | Zero a, Zero b => Zero (a && b)
  | Zero _, _ => y
  | _, Zero _ => x
  | Finite a m e, Finite b m' e' =>
      (let e0 := Z.min e e' in
       let s := signed a m * 2 ^ (e - e0) + signed b m' * 2 ^ (e' - e0) in
       match s with
       | Z0 => Zero false
       | Zpos p =>
           if 0 <=? e0 then round_ratio false (Zpos p * 2 ^ e0) 1
           else round_ratio false (Zpos p) (2 ^ (- e0))
       | Zneg p =>
           if 0 <=? e0 then round_ratio true (Zpos p * 2 ^ e0) 1
           else round_ratio true (Zpos p) (2 ^ (- e0))
       end)%Z
  end.

(** [x / y] *)
Definition div (x y : number) : number :=
  match x, y with
  | NaN, _ | _, NaN => NaN
  | Infinity _, Infinity _ => NaN
  | Infinity a, Zero b | Infinity a, Finite b _ _ => Infinity (xorb a b)
  | Zero a, Infinity b | Finite a _ _, Infinity b => Zero (xorb a b)
  | Zero _, Zero _ => NaN
  | Zero a, Finite b _ _ => Zero (xorb a b)
  | Finite a _ _, Zero b => Infinity (xorb a b)
  | Finite a m e, Finite b m' e' =>
      (round_ratio (xorb a b)
         (Zpos m * 2 ^ (Z.max (e - e') 0))
         (Zpos m' * 2 ^ (Z.max (e' - e) 0)))%Z
  end.

(** [Math.floor(x)] *)
Definition floor (x : number) : number :=
  match x with
  | Finite neg m e =>
      (if 0 <=? e then x
       else
         let q := Zpos m / 2 ^ (- e) in
         let exact := Zpos m mod 2 ^ (- e) =? 0 in
         if neg then of_Z (- (if exact then q else q + 1))
         else of_Z q)%Z
  | _ => x
  end.

(** The decimal digits of a natural number. *)
Definition digits_of (z : Z) : jsstring :=
  lit (NilZero.string_of_uint (N.to_uint (Z.to_N z))).

(** The number nearest to [s * 10^ex]. *)
Definition round_dec (s ex : Z) : number :=
  (if 0 <=? ex then round_ratio false (s * 10 ^ ex) 1
   else round_ratio false s (10 ^ (- ex)))%Z.

(** The least [j >= j0] with [xn < xd * 10^j], for [xd <= xn]. *)
Fixpoint first_lt (fuel : nat) (j xn xd : Z) : Z :=
  match fuel with
  | O => j
  | S f => if (xn <? xd * 10 ^ j)%Z then j else first_lt f (j + 1)%Z xn xd
  end.

(** The least [j >= j0] with [xd <= xn * 10^j], for [xn < xd]. *)
Fixpoint first_ge (fuel : nat) (j xn xd : Z) : Z :=
  match fuel with
  | O => j
  | S f => if (xd <=? xn * 10 ^ j)%Z then j else first_ge f (j + 1)%Z xn xd
  end.

(** The [n] with [10^(n-1) <= xn / xd < 10^n]; a number lies between
    [10^-324] and [10^309]. *)
Definition decimal_exponent (xn xd : Z) : Z :=
  (if xd <=? xn then first_lt 310 1 xn xd
   else 1 - first_ge 330 1 xn xd)%Z.

(** [floor (xn / xd / 10^ex)] *)
Definition scaled_floor (xn xd ex : Z) : Z :=
  (if 0 <=? ex then xn / (xd * 10 ^ ex) else (xn * 10 ^ (- ex)) / xd)%Z.

(** [s * 10^ex] is read back as [x]. *)
Definition reads_back (x : number) (s ex : Z) : bool :=
  number_eqb (round_dec s ex) x.

(** [lo * 10^ex] is nearer to [xn / xd] than [(lo + 1) * 10^ex], or as
    near with [lo] even. *)
Definition nearer_low (xn xd lo ex : Z) : bool :=
  (let l := if 0 <=? ex then 2 * xn else 2 * xn * 10 ^ (- ex) in
   let r := if 0 <=? ex then (2 * lo + 1) * 10 ^ ex * xd else (2 * lo + 1) * xd in
   (l <? r) || ((l =? r) && Z.even lo))%Z.

(** The digits [s] and the exponent [n]: [10^k] is written [10^(k-1)]
    with the next exponent. *)
Definition with_digits (k n0 s : Z) : Z * Z :=
  (if s =? 10 ^ k then (10 ^ (k - 1), n0 + 1) else (s, n0))%Z.

(** Of the two [k]-digit decimals next to [xn / xd], the one that is
    read back as [x], the nearer one when both are: the pair [(s, n)]
    stands for [s * 10^(n-k)]. *)
Definition nearest_decimal (x : number) (xn xd n0 k : Z) : option (Z * Z) :=
  (let ex := n0 - k in
   let lo := scaled_floor xn xd ex in
   let ok_lo := (10 ^ (k - 1) <=? lo) && reads_back x lo ex in
   let ok_hi := reads_back x (lo + 1) ex in
   if ok_lo && ok_hi
   then Some (with_digits k n0 (if nearer_low xn xd lo ex then lo else lo + 1))
   else if ok_lo then Some (with_digits k n0 lo)
   else if ok_hi then Some (with_digits k n0 (lo + 1))
   else None)%Z.

(** The shortest decimal that is read back as [x]: its digits [s], their
    number [k] and the exponent [n].  Seventeen digits tell any two
    numbers apart. *)
Fixpoint shortest (fuel : nat) (x : number) (xn xd n0 k : Z) : Z * Z * Z :=
  match nearest_decimal x xn xd n0 k with
  | Some (s, n) => (s, k, n)
  | None =>
      match fuel with
      | O => (scaled_floor xn xd (n0 - k), k, n0)
      | S f => shortest f x xn xd n0 (k + 1)%Z
      end
  end.

Definition zeros (n : Z) : jsstring := repeat 48%N (Z.to_nat n).

(** The notation of [s * 10^(n-k)], [s] having [k] digits. *)
Definition notation (s k n : Z) : jsstring :=
  (let ds := digits_of s in
   if (k <=? n) && (n <=? 21) then ds ++ zeros (n - k)
   else if (0 <? n) && (n <=? 21)
   then firstn (Z.to_nat n) ds ++ lit "." ++ skipn (Z.to_nat n) ds
   else if (-6 <? n) && (n <=? 0)
   then lit "0." ++ zeros (- n) ++ ds
   else
     let e := n - 1 in
     let exponent := (if 0 <=? e then lit "e+" else lit "e-") ++ digits_of (Z.abs e) in
     if k =? 1 then ds ++ exponent
     else firstn 1 ds ++ lit "." ++ skipn 1 ds ++ exponent)%Z.

(** Number to string, [x.toString()] and template interpolation. *)
Definition num_toString (x : number) : jsstring :=
  match x with
  | NaN => lit "NaN"
  | Infinity neg => if neg then lit "-Infinity" else lit "Infinity"
  | Zero _ => lit "0"
  | Finite neg m e =>
      (let xn := if 0 <=? e then Zpos m * 2 ^ e else Zpos m in
       let xd := if 0 <=? e then 1 else 2 ^ (- e) in
       let '(s, k, n) :=
         shortest 16 (Finite false m e) xn xd (decimal_exponent xn xd) 1 in
       (if neg then lit "-" else []) ++ notation s k n)%Z
  end.

(** *** Values *)

(** Values: what [JSON.parse] produces, plus [undefined].  [VObj] lists
    the own properties of an object in creation order, each name once
    (of a name that is repeated in a JSON text, [JSON.parse] keeps the
    last value). *)
Inductive jsval :=
| VUndefined
| VNull
| VBool (b : bool)
| VNum (n : number)
| VStr (s : jsstring)
| VArr (items : list jsval)
| VObj (fields : list (jsstring * jsval)).

(** ToBoolean *)
Definition truthy (v : jsval) : bool :=
  match v with
  | VUndefined | VNull => false
  | VBool b => b
  | VNum n => match n with NaN | Zero _ => false | _ => true end
  | VStr s => match s with [] => false | _ => true end
  | VArr _ | VObj _ => true
  end.

(** [a || b] *)
Definition or_else (a b : jsval) : jsval := if truthy a then a else b.

Fixpoint assoc (k : jsstring) (fields : list (jsstring * jsval)) : option jsval :=
  match fields with
  | [] => None
  | (k', v) :: rest => if str_eqb k k' then Some v else assoc k rest
  end.

(** The property names that the source reads from parsed JSON.  None of
    them is a built-in property of strings, arrays, numbers or booleans,
    so reading one from such a value gives [undefined]. *)
Inductive prop := p_token | p_error | p_code | p_message | p_data | p_appid.

Definition prop_name (p : prop) : jsstring :=
  match p with
  | p_token => lit "token"
  | p_error => lit "error"
  | p_code => lit "code"
  | p_message => lit "message"
  | p_data => lit "data"
  | p_appid => lit "appid"
  end.

(** [v.p]; [None] is the TypeError of reading a property of [null] or
    [undefined]. *)
Definition get (v : jsval) (p : prop) : option jsval :=
  match v with
  | VUndefined | VNull => None
  | VObj fields =>
      Some match assoc (prop_name p) fields with
           | Some x => x
           | None => VUndefined
           end
  | _ => Some VUndefined
  end.

(** [v.name] for a name that is no built-in property, on a value that
    is neither [null] nor [undefined]. *)
Definition field (v : jsval) (name : string) : jsval :=
  match v with
  | VObj fields =>
      match assoc (lit name) fields with
      | Some x => x
      | None => VUndefined
      end
  | _ => VUndefined
  end.

(** [v === 0] *)
Definition is_zero (v : jsval) : bool :=
  match v with VNum (Zero _) => true | _ => false end.

(** [v === s] for a string [s] *)
Definition is_string (v : jsval) (s : jsstring) : bool :=
  match v with VStr x => str_eqb x s | _ => false end.

(** [Array.prototype.join(",")] over already converted elements. *)
Fixpoint join_comma (parts : list jsstring) : jsstring :=
  match parts with
  | [] => []
  | [x] => x
  | x :: rest => x ++ lit "," ++ join_comma rest
  end.

Fixpoint sequence {A} (l : list (option A)) : option (list A) :=
  match l with
  | [] => Some []
  | Some x :: rest =>
      match sequence rest with Some r => Some (x :: r) | None => None end
  | None :: _ => None
  end.

(** ToString of a value.  [None] is the TypeError raised when a plain
    object cannot be converted to a primitive: a parsed object that owns
    a (non-callable) [toString] entry. *)
Fixpoint toString (v : jsval) : option jsstring :=
  match v with
  | VUndefined => Some (lit "undefined")
  | VNull => Some (lit "null")
  | VBool true => Some (lit "true")
  | VBool false => Some (lit "false")
  | VNum n => Some (num_toString n)
  | VStr s => Some s
  | VArr items =>
      option_map join_comma
        (sequence
           (map (fun x => match x with
                          | VUndefined | VNull => Some []
                          | _ => toString x
                          end) items))
  | VObj fields =>
      match assoc (lit "toString") fields with
      | Some _ => None
      | None => Some (lit "[object Object]")
      end
  end.

(** *** [parseInt(s)] with no radix argument *)

Definition digit_value (c : N) : option Z :=
  (if (48 <=? c) && (c <=? 57) then Some (Z.of_N (c - 48))
   else if (97 <=? c) && (c <=? 122) then Some (Z.of_N (c - 87))
   else if (65 <=? c) && (c <=? 90) then Some (Z.of_N (c - 55))
   else None)%N.

(** Reads the longest prefix of radix-[r] digits; [None] when it is empty. *)
Fixpoint digits (r : Z) (acc : option Z) (s : jsstring) : option Z :=
  match s with
  | [] => acc
  | c :: s' =>
      match digit_value c with
      | Some d =>
          if (d <? r)%Z
          then digits r (Some (match acc with Some a => a * r + d | None => d end)%Z) s'
          else acc
      | None => acc
      end
  end.

(** The number nearest to the integer that the digits denote, [NaN]
    when there is no digit.  (For more than twenty decimal digits the
    language lets an engine replace the later ones by zeros; the engines
    in use round the exact integer.) *)
Definition parseInt (s : jsstring) : number :=
  let s1 := trimStart s in
  let '(neg, s2) :=
    match s1 with
    | c :: r =>
        if (c =? 45)%N then (true, r)
        else if (c =? 43)%N then (false, r)
        else (false, s1)
    | [] => (false, s1)
    end in
  let '(radix, s3) :=
    match s2 with
    | a :: b :: r =>
        if ((a =? 48) && ((b =? 120) || (b =? 88)))%N then (16%Z, r)
        else (10%Z, s2)
    | _ => (10%Z, s2)
    end in
  match digits radix None s3 with
  | None => NaN
  | Some Z0 => Zero neg
  | Some m => round_ratio neg m 1
  end.


(** *** [x + v] for a number [x] *)

(** Both operands are made primitive; with a string among them the
    result is the concatenation, otherwise the sum of the numbers.
    [None] is the TypeError of an object that has no primitive value. *)
Definition plus (x : number) (v : jsval) : option jsval :=
  match v with
  | VUndefined => Some (VNum NaN)
  | VNull => Some (VNum (add x (Zero false)))
  | VBool b => Some (VNum (add x (if b then of_Z 1 else Zero false)))
  | VNum y => Some (VNum (add x y))
  | VStr s => Some (VStr (num_toString x ++ s))
  | VArr _ | VObj _ =>
      option_map (fun s => VStr (num_toString x ++ s)) (toString v)
  end.

(** *** [JSON.parse(JSON.stringify(v))] *)

(** What a value becomes when it is sent as JSON and parsed at the other
    end: [NaN] and the infinities become [null], the sign of zero is
    lost, a property whose value is [undefined] is dropped and
    [undefined] in an array becomes [null].  A finite number is written
    with its shortest decimal, which is read back as the same number. *)
Fixpoint wire (v : jsval) : jsval :=
  match v with
  | VNum NaN | VNum (Infinity _) => VNull
  | VNum (Zero _) => VNum (Zero false)
  | VArr items =>
      VArr (map (fun x => match x with VUndefined => VNull | _ => wire x end) items)
  | VObj fields =>
      VObj ((fix properties (l : list (jsstring * jsval)) :=
               match l with
               | [] => []
               | (k, x) :: rest =>
                   match x with
                   | VUndefined => properties rest
                   | _ => (k, wire x) :: properties rest
                   end
               end) fields)
  | _ => v
  end.

End JS.

Import JS.

(* ===================================================================== *)
(** ** Data model, outside world and the monad of effects *)
(* ===================================================================== *)

Module Model.

(** ['publisher' | 'audience'] *)
Inductive role := publisher | audience.

Definition role_str (r : role) : jsstring :=
  match r with publisher => lit "publisher" | audience => lit "audience" end.

(** [string | number] *)
Inductive uid_t := UidStr (s : jsstring) | UidNum (n : number).

Definition uid_val (u : uid_t) : jsval :=
  match u with UidStr s => VStr s | UidNum n => VNum n end.

(** [uid || 0] for an optional uid *)
Definition uid_or_zero (u : option uid_t) : uid_t :=
  match u with
  | Some x => if truthy (uid_val x) then x else UidNum (of_Z 0)
  | None => UidNum (of_Z 0)
  end.

(** [uid || null] *)
Definition uid_or_null (u : option uid_t) : option uid_t :=
  match u with
  | Some x => if truthy (uid_val x) then Some x else None
  | None => None
  end.

(** [uid.toString()] *)
Definition uid_toString (u : uid_t) : jsstring :=
  match u with UidStr s => s | UidNum n => num_toString n end.

Inductive mode_t := rtc | live.
Inductive codec_t := vp8 | vp9 | h264.

(** An optional property of an object literal: the spread [...config]
    copies a property that is present even when its value is
    [undefined]. *)
Inductive optional (A : Type) := Absent | Undefined | Present (a : A).
Arguments Absent {A}.
Arguments Undefined {A}.
Arguments Present {A} a.

(** [interface AgoraConfig].  For [token], [uid] and [appCertificate] the
    code only tests truthiness, so [None] stands for absent and for
    [undefined] alike. *)
Record AgoraConfig := {
  appId : jsstring;
  channel : jsstring;
  token : option jsstring;
  uid : option uid_t;
  appCertificate : option jsstring;
  mode : optional mode_t;
  codec : optional codec_t
}.

(** Values thrown: [is_Error] is [e instanceof Error], the other two are
    [e.code] and [e.message]. *)
Record exn := {
  is_Error : bool;
  err_code : option jsstring;
  err_message : option jsstring
}.

(** [new Error(msg)] *)
Definition new_Error (msg : jsstring) : exn :=
  {| is_Error := true; err_code := None; err_message := Some msg |}.

Inductive result (A : Type) := Ok (a : A) | Throw (e : exn).
Arguments Ok {A} a.
Arguments Throw {A} e.

(** A request handed to [fetch]: a GET with a query string built by
    [URLSearchParams], or a POST whose body is [JSON.stringify] of a
    value, sent with a JSON content type. *)
Inductive request :=
| HttpGet (path : jsstring) (params : list (jsstring * jsstring))
| HttpPostJson (url : jsstring) (body : jsval).

(** What [fetch] gives back: a rejection (network error), or a response
    with its status and the outcome of [response.json()]. *)
Inductive fetch_result :=
| Rejected (e : exn)
| Response (status : Z) (json : result jsval).

(** [response.ok] *)
Definition response_ok (status : Z) : bool :=
  ((200 <=? status) && (status <=? 299))%Z.

(** A local track, as handed out by the engine. *)
Inductive track := Track (id : nat).

(** The handle returned by [AgoraRTC.createClient], remembering the
    options it was created with. *)
Record IAgoraRTCClient := {
  client_mode : mode_t;
  client_codec : codec_t
}.

(** Calls made to the outside world. *)
Inductive event :=
| EFetch (r : request)
| EImportSdk
| ECreateClient (m : mode_t) (c : codec_t)
| EOn (name : jsstring)
| EJoin (app chan : jsstring) (tok : jsval) (u : option uid_t)
| ELeave
| ECreateMicrophoneAudioTrack
| ECreateCameraVideoTrack
| EPublish (tracks : list track)
| EPlay (t : track)
| EStop (t : track)
| EClose (t : track).

(** The outside world.  A function that takes a trace answers the call
    that is the last event of that trace. *)
Record Env := {
  (** [typeof window !== 'undefined'] *)
  window_defined : bool;
  (** [process.env.NAME] *)
  process_env : jsstring -> option jsstring;
  (** [localStorage.getItem(key)] *)
  localStorage_getItem : jsstring -> option jsstring;
  (** [new URLSearchParams(window.location.search).get(name)] *)
  location_search_get : jsstring -> option jsstring;
  (** [Math.random() * 16 | 0] for the k-th draw made after a trace *)
  Math_random16 : list event -> nat -> Z;
  (** the message of the TypeError of a property read on null *)
  TypeError_text : jsstring;
  (** does the call throw? *)
  raises : list event -> option exn;
  (** the answer of [fetch] *)
  fetch_answer : list event -> fetch_result;
  (** the track created by a track factory *)
  new_track : list event -> track;
  (** [document.getElementById('local-player')] is not null *)
  has_local_player : list event -> bool
}.

(** The fields of an [AgoraClient] object. *)
Record AgoraClient := {
  client : option IAgoraRTCClient;
  config : AgoraConfig;
  localVideoTrack : option track;
  localAudioTrack : option track;
  isPublisher : bool
}.

Record World := {
  events : list event;
  self : AgoraClient
}.

(** State and exceptions. *)
Definition M (A : Type) := World -> result A * World.

Definition ret {A} (a : A) : M A := fun w => (Ok a, w).

Definition throw {A} (e : exn) : M A := fun w => (Throw e, w).

Definition bind {A B} (m : M A) (k : A -> M B) : M B :=
  fun w => match m w with
           | (Ok a, w') => k a w'
           | (Throw e, w') => (Throw e, w')
           end.

(** [try { m } catch (e) { h e }] *)
Definition try_catch {A} (m : M A) (h : exn -> M A) : M A :=
  fun w => match m w with
           | (Ok a, w') => (Ok a, w')
           | (Throw e, w') => h e w'
           end.

Definition history : M (list event) := fun w => (Ok (events w), w).

Definition emit (e : event) : M unit :=
  fun w => (Ok tt, {| events := events w ++ [e]; self := self w |}).

(** The world once the calls [l] have been made. *)
Definition after (w : World) (l : list event) : World :=
  {| events := events w ++ l; self := self w |}.

Definition this : M AgoraClient := fun w => (Ok (self w), w).

Definition set_this (o : AgoraClient) : M unit :=
  fun w => (Ok tt, {| events := events w; self := o |}).

End Model.

Import Model.

Declare Scope js_scope.
Delimit Scope js_scope with js.
Notation "x <- m ;; k" := (bind m (fun x => k))
  (at level 61, m at next level, right associativity) : js_scope.
Notation "m ;; k" := (bind m (fun _ => k))
  (at level 61, right associativity) : js_scope.
Local Open Scope js_scope.


(* ===================================================================== *)
(** ** [src/lib/agora-utils.ts] *)
(* ===================================================================== *)

Module Utils.

Section WithEnv.

Variable env : Env.

(** A TypeError raised by reading a property of [null] or [undefined]. *)
Definition TypeError : exn := new_Error (TypeError_text env).

(** [v.p], throwing when [v] is [null] or [undefined]. *)
Definition getM (v : jsval) (p : prop) : M jsval :=
  match get v p with
  | Some x => ret x
  | None => throw TypeError
  end.

(** [throw new Error(v)] for a value [v] that is not [undefined]. *)
Definition throw_new_Error {A} (v : jsval) : M A :=
  match toString v with
  | Some s => throw (new_Error s)
  | None => throw TypeError
  end.

(** An external call that returns nothing of interest and may throw. *)
Definition call (e : event) : M unit :=
  emit e ;;
  h <- history ;;
  match raises env h with
  | Some x => throw x
  | None => ret tt
  end.

(** [await fetch(...)]: the status of the response and the outcome of
    [response.json()]. *)
Definition fetch (r : request) : M (Z * result jsval) :=
  emit (EFetch r) ;;
  h <- history ;;
  match fetch_answer env h with
  | Rejected e => throw e
  | Response status json => ret (status, json)
  end.

(** [await response.json()] *)
Definition json (r : result jsval) : M jsval :=
  match r with
  | Ok v => ret v
  | Throw e => throw e
  end.

(** [a || b] for an optional string [a] and a string [b] *)
Definition str_or (a : option jsstring) (b : jsstring) : jsstring :=
  match a with
  | Some (c :: s) => c :: s
  | _ => b
  end.

(** [const BASE_URL] *)
Definition BASE_URL : jsstring :=
  str_or (process_env env (lit "NEXT_PUBLIC_AGORA_TOKEN_SERVER_URL"))
         (lit "https://webdemo-for-agora-io.agora.io").

(** [v.toString(16)] for [v] between 0 and 15 *)
Definition hex_digit (v : Z) : N :=
  if (v <? 10)%Z then Z.to_N (48 + v) else Z.to_N (87 + v).

Definition uuid_template : jsstring := lit "xxxxxxxx-xxxx-4xxx-yxxx-xxxxxxxxxxxx".

(** The replacement of each [x] and [y] of the template, one draw of
    [Math.random] per replaced character. *)
Fixpoint replace_xy (draw : nat -> Z) (k : nat) (template : jsstring) : jsstring :=
  match template with
  | [] => []
  | c :: rest =>
      let r := (draw k mod 16)%Z in
      if (c =? 120)%N then hex_digit r :: replace_xy draw (S k) rest
      else if (c =? 121)%N
           then hex_digit (Z.lor (Z.land r 3) 8) :: replace_xy draw (S k) rest
           else c :: replace_xy draw k rest
  end.

Definition generateUUID : M jsstring :=
  h <- history ;;
  ret (replace_xy (Math_random16 env h) 0 uuid_template).

(** The pair [(appid, certificate)]. *)
Definition getOptionsFromLocal : jsstring * jsstring :=
  if negb (window_defined env) then
    (str_or (process_env env (lit "NEXT_PUBLIC_AGORA_APP_ID")) [],
     str_or (process_env env (lit "NEXT_PUBLIC_AGORA_APP_CERTIFICATE")) [])
  else
    (str_or (localStorage_getItem env (lit "agora_app_id"))
       (str_or (process_env env (lit "NEXT_PUBLIC_AGORA_APP_ID")) []),
     str_or (localStorage_getItem env (lit "agora_app_certificate"))
       (str_or (process_env env (lit "NEXT_PUBLIC_AGORA_APP_CERTIFICATE")) [])).

(** The pair [(encryptedId, encryptedSecret)], [None] being [null]. *)
Definition getEncryptFromUrl : option jsstring * option jsstring :=
  if negb (window_defined env) then (None, None)
  else (location_search_get env (lit "encryptedId"),
        location_search_get env (lit "encryptedSecret")).

(** [interface TokenConfig], as [generateToken] fills it. *)
Record TokenConfig := {
  tc_uid : uid_t;
  tc_channel : jsstring;
  tc_appid : jsstring
}.

Definition nonempty (s : option jsstring) : bool :=
  match s with Some (_ :: _) => true | _ => false end.

Definition opt_str (s : option jsstring) : jsval :=
  match s with Some x => VStr x | None => VNull end.

(** The body of the request to the encrypted demo server. *)
Definition encrypted_body (chan : jsstring) (encryptedId encryptedSecret : option jsstring)
    (traceId : jsstring) : jsval :=
  VObj [ (lit "channelName", VStr chan);
         (lit "encryptedId", opt_str encryptedId);
         (lit "encryptedSecret", opt_str encryptedSecret);
         (lit "traceId", VStr traceId);
         (lit "src", VStr (lit "webdemo")) ].

(** The body of the direct-certificate request. *)
Definition direct_body (appid certificate chan : jsstring) (u : uid_t) : jsval :=
  VObj [ (lit "appId", VStr appid);
         (lit "appCertificate", VStr certificate);
         (lit "channelName", VStr chan);
         (lit "expire", VNum (of_Z 7200));
         (lit "src", VStr (lit "web"));
         (lit "types", VArr [VNum (of_Z 1); VNum (of_Z 2)]);
         (lit "uid", uid_val u) ].

(** The [try] block of [agoraGetAppData]; the [catch] logs and rethrows.
    The write to [config.appid] changes only the object literal that
    [generateToken] built for this call and is left out. *)
Definition request_token (url : jsstring) (data : jsval) : M jsval :=
  try_catch
    (response <- fetch (HttpPostJson url data) ;;
     resp <- json (snd response) ;;
     code <- getM resp p_code ;;
     if is_zero code then
       data' <- getM resp p_data ;;
       let respData := or_else data' (VObj []) in
       tok <- getM respData p_token ;;
       ret (or_else tok VNull)
     else
       message <- getM resp p_message ;;
       throw_new_Error
         (or_else message
            (VStr (lit "Generate token error, please check your appid and appcertificate parameters"))))
    (fun error => throw error).

Definition agoraGetAppData (cfg : TokenConfig) : M jsval :=
  let '(appid, certificate) := getOptionsFromLocal in
  let '(encryptedId, encryptedSecret) := getEncryptFromUrl in
  if nonempty encryptedId && nonempty encryptedSecret then
    traceId <- generateUUID ;;
    request_token (BASE_URL ++ lit "/v1/webdemo/encrypted/token")
      (encrypted_body (tc_channel cfg) encryptedId encryptedSecret traceId)
  else
    match certificate with
    | [] => ret VNull
    | _ =>
        request_token (BASE_URL ++ lit "/v2/token/generate")
          (direct_body appid certificate (tc_channel cfg) (tc_uid cfg))
    end.

(** [if (!response.ok) { ... throw new Error(errorData.error || `HTTP ${response.status}`) }] *)
Definition check_ok (response : Z * result jsval) : M unit :=
  if response_ok (fst response) then ret tt
  else
    errorData <- json (snd response) ;;
    err <- getM errorData p_error ;;
    throw_new_Error
      (or_else err (VStr (lit "HTTP " ++ num_toString (of_Z (fst response))))).

(** The JSON body posted by [generateTokenFromBackend]. *)
Definition backend_body (app cert chan : jsstring) (u : uid_t) (r : role)
    (expireTimeInSeconds : number) : jsval :=
  VObj [ (lit "appId", VStr app);
         (lit "appCertificate", VStr cert);
         (lit "channelName", VStr chan);
         (lit "uid", uid_val u);
         (lit "role", VStr (role_str r));
         (lit "expireTimeInSeconds", VNum expireTimeInSeconds) ].

Definition backend_request (app cert chan : jsstring) (u : uid_t) (r : role)
    (expireTimeInSeconds : number) : request :=
  HttpPostJson (lit "/api/agora/token") (backend_body app cert chan u r expireTimeInSeconds).

Definition generateTokenFromBackend (app cert chan : jsstring) (u : uid_t) (r : role)
    (expireTimeInSeconds : number) : M jsval :=
  try_catch
    (response <- fetch (backend_request app cert chan u r expireTimeInSeconds) ;;
     check_ok response ;;
     data <- json (snd response) ;;
     getM data p_token)
    (fun error => throw error).

(** The query string built by [generateTokenFromServer]. *)
Definition server_params (app cert chan : jsstring) (u : uid_t) (r : role)
    : list (jsstring * jsstring) :=
  [ (lit "appId", app);
    (lit "appCertificate", cert);
    (lit "channel", chan);
    (lit "uid", uid_toString u);
    (lit "role", role_str r) ].

Definition server_request (app cert chan : jsstring) (u : uid_t) (r : role) : request :=
  HttpGet (lit "/api/agora/token") (server_params app cert chan u r).

Definition generateTokenFromServer (app cert chan : jsstring) (u : uid_t) (r : role)
    : M jsval :=
  try_catch
    (response <- fetch (server_request app cert chan u r) ;;
     check_ok response ;;
     data <- json (snd response) ;;
     code <- getM data p_code ;;
     if is_zero code then
       inner <- getM data p_data ;;
       getM inner p_token
     else
       message <- getM data p_message ;;
       throw_new_Error (or_else message (VStr (lit "Token generation failed"))))
    (fun error => throw error).

(** [validateAgoraToken(token)], on any value. *)
Definition validateAgoraToken (tok : jsval) : bool :=
  match tok with
  | VStr s =>
      if negb (truthy tok) then false
      else if negb (versionPattern_test s) then false
      else (50 <? str_length s)%Z
  | _ => false
  end.

End WithEnv.

End Utils.

Import Utils.


(* ===================================================================== *)
(** ** The token endpoint, [POST /api/agora/token] *)
(* ===================================================================== *)

Module Route.

(** [RtcRole] of the signing library *)
Inductive RtcRole := PUBLISHER | SUBSCRIBER.

(** The bodies that the handler answers with, as it hands them to
    [NextResponse.json]. *)
Inductive response_body :=
| ErrorBody (error : jsstring)
| ErrorDetailsBody (error details : jsstring)
| TokenBody (tok : jsstring) (uidNum chan role expireTime : jsval)
            (generatedAt : number).

Record http_response := {
  status : Z;
  body : response_body
}.

(** [!s] for an optional string *)
Definition missing (s : option jsstring) : bool := negb (nonempty s).

Definition str_of (s : option jsstring) : jsstring :=
  match s with Some x => x | None => [] end.

(** [typeof uid === 'string' ? parseInt(uid) || 0 : uid || 0] *)
Definition uidNum_of (uid : jsval) : jsval :=
  match uid with
  | VStr s => or_else (VNum (parseInt s)) (VNum (of_Z 0))
  | _ => or_else uid (VNum (of_Z 0))
  end.

(** [Math.floor(Date.now() / 1000)], [now] being [Date.now()], an
    integer. *)
Definition currentTimestamp (now : Z) : number :=
  floor (div (of_Z now) (of_Z 1000)).

(** [error instanceof Error ? error.message : 'Unknown error'] *)
Definition details_of (e : exn) : jsstring :=
  if is_Error e then str_of (err_message e) else lit "Unknown error".

(** The answer of the [catch] block. *)
Definition failure (error : exn) : http_response :=
  {| status := 500;
     body := ErrorDetailsBody (lit "Failed to generate token") (details_of error) |}.

Definition required : http_response :=
  {| status := 400;
     body := ErrorBody (lit "App ID, App Certificate, and Channel Name are required") |}.

Definition bad_format : http_response :=
  {| status := 400;
     body := ErrorBody (lit "Invalid App ID format. App ID should be a 32-character hexadecimal string.") |}.

Section Handler.

(** [RtcTokenBuilder.buildTokenWithUid], the signing primitive, with the
    values that the handler passes to it. *)
Variable buildTokenWithUid :
  jsval -> jsval -> jsval -> jsval -> RtcRole -> jsval -> jsval -> result jsstring.

(** The message of the TypeError that the engine raises for a value that
    cannot be destructured ([null]) or has no primitive value. *)
Variable TypeError_message : jsval -> jsstring.

(** The [try] block of [POST] once the body has been destructured;
    [now] is [Date.now()]. *)
Definition token_response (now : Z) (body : jsval) : http_response :=
  let appId := field body "appId" in
  let appCertificate := field body "appCertificate" in
  let channelName := field body "channelName" in
  let uid := field body "uid" in
  let role :=
    match field body "role" with
    | VUndefined => VStr (lit "audience")
    | v => v
    end in
  let expireTimeInSeconds :=
    match field body "expireTimeInSeconds" with
    | VUndefined => VNum (of_Z 3600)
    | v => v
    end in
  if negb (truthy appId) || negb (truthy appCertificate)
     || negb (truthy channelName)
  then required
  else
    match toString appId with
    | None => failure (new_Error (TypeError_message appId))
    | Some text =>
        if negb (appIdPattern_test text) then bad_format
        else
          match plus (currentTimestamp now) expireTimeInSeconds with
          | None => failure (new_Error (TypeError_message expireTimeInSeconds))
          | Some privilegeExpiredTs =>
              let agoraRole :=
                if is_string role (lit "publisher") then PUBLISHER else SUBSCRIBER in
              let uidNum := uidNum_of uid in
              match buildTokenWithUid appId appCertificate channelName uidNum
                      agoraRole privilegeExpiredTs privilegeExpiredTs with
              | Ok tok =>
                  {| status := 200;
                     body := TokenBody tok uidNum channelName role
                               privilegeExpiredTs (currentTimestamp now) |}
              | Throw error => failure error
              end
          end
    end.

(** [POST(request)]; [parsed] is the outcome of [await request.json()].
    A body that is [null] cannot be destructured, which throws inside
    the [try] block like everything else. *)
Definition POST (now : Z) (parsed : result jsval) : http_response :=
  match parsed with
  | Throw error => failure error
  | Ok VNull | Ok VUndefined => failure (new_Error (TypeError_message VNull))
  | Ok body => token_response now body
  end.

End Handler.

End Route.


(* ===================================================================== *)
(** ** [src/lib/agora-config.ts]: [class AgoraClient] *)
(* ===================================================================== *)

Module Client.

(** [{ mode: 'rtc', codec: 'vp8', ...config }] *)
Definition with_defaults (cfg : AgoraConfig) : AgoraConfig :=
  {| appId := appId cfg;
     channel := channel cfg;
     token := token cfg;
     uid := uid cfg;
     appCertificate := appCertificate cfg;
     mode := match mode cfg with Absent => Present rtc | m => m end;
     codec := match codec cfg with Absent => Present vp8 | c => c end |}.

(** [new AgoraClient(config)] *)
Definition new_AgoraClient (cfg : AgoraConfig) : AgoraClient :=
  {| client := None;
     config := with_defaults cfg;
     localVideoTrack := None;
     localAudioTrack := None;
     isPublisher := false |}.

Definition set_client (c : option IAgoraRTCClient) : M unit :=
  o <- this ;;
  set_this {| client := c; config := config o;
              localVideoTrack := localVideoTrack o;
              localAudioTrack := localAudioTrack o;
              isPublisher := isPublisher o |}.

Definition set_localVideoTrack (t : option track) : M unit :=
  o <- this ;;
  set_this {| client := client o; config := config o;
              localVideoTrack := t;
              localAudioTrack := localAudioTrack o;
              isPublisher := isPublisher o |}.

Definition set_localAudioTrack (t : option track) : M unit :=
  o <- this ;;
  set_this {| client := client o; config := config o;
              localVideoTrack := localVideoTrack o;
              localAudioTrack := t;
              isPublisher := isPublisher o |}.

Definition set_isPublisher (b : bool) : M unit :=
  o <- this ;;
  set_this {| client := client o; config := config o;
              localVideoTrack := localVideoTrack o;
              localAudioTrack := localAudioTrack o;
              isPublisher := b |}.

Section WithEnv.

Variable env : Env.

Definition setupEventListeners : M unit :=
  o <- this ;;
  match client o with
  | None => ret tt
  | Some _ =>
      call env (EOn (lit "user-published")) ;;
      call env (EOn (lit "user-unpublished")) ;;
      call env (EOn (lit "user-left")) ;;
      call env (EOn (lit "connection-state-change"))
  end.

Definition initClient : M unit :=
  if negb (window_defined env) then ret tt
  else
    call env EImportSdk ;;
    call env (ECreateClient rtc vp8) ;;
    set_client (Some {| client_mode := rtc; client_codec := vp8 |}) ;;
    setupEventListeners.

Definition No_token_method : jsstring :=
  lit "No token generation method available. Please provide App Certificate.".

Definition generateToken (r : role) : M jsval :=
  try_catch
    (o <- this ;;
     let cfg := config o in
     match appCertificate cfg with
     | Some (c :: cert) =>
         try_catch
           (generateTokenFromServer env (appId cfg) (c :: cert) (channel cfg)
              (uid_or_zero (uid cfg)) r)
           (fun serverError =>
              generateTokenFromBackend env (appId cfg) (c :: cert) (channel cfg)
                (uid_or_zero (uid cfg)) r (of_Z 3600))
     | _ =>
         serverToken <- agoraGetAppData env
                          {| tc_uid := uid_or_zero (uid cfg);
                             tc_channel := channel cfg;
                             tc_appid := appId cfg |} ;;
         if truthy serverToken then ret serverToken
         else throw (new_Error No_token_method)
     end)
    (fun error => throw error).

Definition createAndPublishTracks : M unit :=
  o <- this ;;
  match client o with
  | Some _ =>
      if negb (isPublisher o) then ret tt
      else
        try_catch
          (call env EImportSdk ;;
           call env ECreateMicrophoneAudioTrack ;;
           h1 <- history ;;
           let audio := new_track env h1 in
           set_localAudioTrack (Some audio) ;;
           call env ECreateCameraVideoTrack ;;
           h2 <- history ;;
           let video := new_track env h2 in
           set_localVideoTrack (Some video) ;;
           call env (EPublish [audio; video]) ;;
           h3 <- history ;;
           if has_local_player env h3 then call env (EPlay video) else ret tt)
          (fun error => throw error)
  | None => ret tt
  end.

Definition App_ID_required : jsstring :=
  lit "App ID is required and cannot be empty".

Definition Channel_required : jsstring :=
  lit "Channel name is required and cannot be empty".

Definition Invalid_App_ID_format : jsstring :=
  lit "Invalid App ID format. App ID should be a 32-character hexadecimal string.".

Definition Token_generation_failed : jsstring :=
  lit "Token generation failed. Please check your App Certificate or server configuration.".

Definition code_is (e : exn) (c : string) : bool :=
  match err_code e with
  | Some x => str_eqb x (lit c)
  | None => false
  end.

(** [errorObj.message || errorObj.code || 'Unknown error'] *)
Definition message_or_code (e : exn) : jsstring :=
  str_or (err_message e) (str_or (err_code e) (lit "Unknown error")).

(** The [catch] block of [join]: the message of the error thrown to the
    caller. *)
Definition join_error_message (e : exn) : jsstring :=
  if code_is e "CAN_NOT_GET_GATEWAY_SERVER" then
    lit "Invalid App ID or network connection issue. Please verify your App ID is correct."
  else if code_is e "INVALID_TOKEN" then
    lit "Invalid token. Please check your token or generate a new one."
  else if code_is e "TOKEN_EXPIRED" then
    lit "Token has expired. Please generate a new token."
  else if code_is e "INVALID_VENDOR_KEY" then
    lit "Invalid App ID. Please check your App ID from Agora Console."
  else if code_is e "DYNAMIC_KEY_TIMEOUT" then
    lit "Token has expired. Please generate a new token."
  else
    lit "Failed to join channel: " ++ message_or_code e.

(** [!s] for a string *)
Definition is_empty (s : jsstring) : bool :=
  match s with [] => true | _ => false end.

(** [if (!this.client) { await this.initClient(); }] *)
Definition ensure_client : M unit :=
  o <- this ;;
  match client o with
  | None => initClient
  | Some _ => ret tt
  end.

(** [let token = this.config.token; if (!token) { try { token = await
    this.generateToken(role) } catch { throw new Error(...) } }] *)
Definition acquire_token (r : role) : M jsval :=
  o <- this ;;
  match token (config o) with
  | Some (c :: t) => ret (VStr (c :: t))
  | _ =>
      try_catch (generateToken r)
        (fun tokenError => throw (new_Error Token_generation_failed))
  end.

(** The [try] block of [join]. *)
Definition join_try (r : role) : M unit :=
  o <- this ;;
  let cfg := config o in
  tok <- acquire_token r ;;
  call env (EJoin (trim (appId cfg)) (trim (channel cfg)) tok
              (uid_or_null (uid cfg))) ;;
  o2 <- this ;;
  if isPublisher o2 then createAndPublishTracks else ret tt.

(** [join(role)].  The check of a supplied token with
    [validateAgoraToken] only logs a warning and is left out. *)
Definition join (r : role) : M unit :=
  o <- this ;;
  let cfg := config o in
  if is_empty (appId cfg) || is_empty (trim (appId cfg))
  then throw (new_Error App_ID_required)
  else if is_empty (channel cfg) || is_empty (trim (channel cfg))
  then throw (new_Error Channel_required)
  else if negb (appIdPattern_test (trim (appId cfg)))
  then throw (new_Error Invalid_App_ID_format)
  else
    ensure_client ;;
    o1 <- this ;;
    match client o1 with
    | None => throw (new_Error (lit "Failed to initialize Agora client"))
    | Some _ =>
        try_catch (join_try r)
          (fun error => throw (new_Error (join_error_message error)))
    end.

Definition joinAsAudience : M unit :=
  set_isPublisher false ;;
  join audience.

Definition joinAsPublisher : M unit :=
  set_isPublisher true ;;
  join publisher.

Definition leave : M unit :=
  o <- this ;;
  match client o with
  | None => ret tt
  | Some _ =>
      try_catch
        (match localVideoTrack o with
         | Some v =>
             call env (EStop v) ;;
             call env (EClose v) ;;
             set_localVideoTrack None
         | None => ret tt
         end ;;
         o1 <- this ;;
         match localAudioTrack o1 with
         | Some a =>
             call env (EStop a) ;;
             call env (EClose a) ;;
             set_localAudioTrack None
         | None => ret tt
         end ;;
         call env ELeave ;;
         set_isPublisher false)
        (fun error => throw error)
  end.

End WithEnv.

End Client.


Import Client.
Import Route.

(* ===================================================================== *)
(** ** Vocabulary of the statements *)
(* ===================================================================== *)

Module Statements.

(** A computation that leaves the world as it found it. *)
Definition silent {A} (m : M A) : Prop := forall w, snd (m w) = w.

Definition is_fetch (e : event) : bool :=
  match e with EFetch _ => true | _ => false end.

(** The request that [agoraGetAppData] sends after the trace [h] for a
    channel and a uid, if it sends one: read off its two branches. *)
Definition demo_request (env : Env) (h : list event) (chan : jsstring) (u : uid_t)
    : option request :=
  let '(appid, certificate) := getOptionsFromLocal env in
  let '(encryptedId, encryptedSecret) := getEncryptFromUrl env in
  if nonempty encryptedId && nonempty encryptedSecret then
    Some (HttpPostJson (BASE_URL env ++ lit "/v1/webdemo/encrypted/token")
            (encrypted_body chan encryptedId encryptedSecret
               (replace_xy (Math_random16 env h) 0 uuid_template)))
  else
    match certificate with
    | [] => None
    | _ => Some (HttpPostJson (BASE_URL env ++ lit "/v2/token/generate")
                   (direct_body appid certificate chan u))
    end.

Definition demo_events (env : Env) (h : list event) (chan : jsstring) (u : uid_t)
    : list event :=
  match demo_request env h chan u with
  | Some q => [EFetch q]
  | None => []
  end.

(** The calls that [leave] makes on the local video track, and on the
    local audio track. *)
Definition video_teardown (o : AgoraClient) : list event :=
  match localVideoTrack o with Some v => [EStop v; EClose v] | None => [] end.

Definition audio_teardown (o : AgoraClient) : list event :=
  match localAudioTrack o with Some a => [EStop a; EClose a] | None => [] end.

(** The calls that [leave] has to make for an object, in program order. *)
Definition teardown_calls (o : AgoraClient) : list event :=
  match localVideoTrack o with Some v => [EStop v; EClose v] | None => [] end
  ++ match localAudioTrack o with Some a => [EStop a; EClose a] | None => [] end
  ++ [ELeave].

(** Making calls one after the other until one throws: the calls made
    and the exception, if any. *)
Fixpoint run_calls (env : Env) (h : list event) (calls : list event)
    : list event * option exn :=
  match calls with
  | [] => ([], None)
  | e :: rest =>
      match raises env (h ++ [e]) with
      | Some x => ([e], Some x)
      | None =>
          let '(done, r) := run_calls env (h ++ [e]) rest in (e :: done, r)
      end
  end.

(** The three checks that open [join] all pass. *)
Definition valid_config (cfg : AgoraConfig) : bool :=
  negb (is_empty (trim (appId cfg)))
  && negb (is_empty (trim (channel cfg)))
  && appIdPattern_test (trim (appId cfg)).

(** What [join] throws when the token provider fails. *)
Definition token_failure_message : jsstring :=
  lit "Failed to join channel: Token generation failed. Please check your App Certificate or server configuration.".

(** The codes that the [catch] block of [join] tells apart. *)
Definition recognized_codes : list string :=
  ["CAN_NOT_GET_GATEWAY_SERVER"; "INVALID_TOKEN"; "TOKEN_EXPIRED";
   "INVALID_VENDOR_KEY"; "DYNAMIC_KEY_TIMEOUT"]%string.

(** [s] begins with the characters of [p]. *)
Definition starts_with (p s : jsstring) : Prop := exists rest, s = p ++ rest.


Definition rtc_vp8 : IAgoraRTCClient := {| client_mode := rtc; client_codec := vp8 |}.

End Statements.

Import Statements.


(* ===================================================================== *)
(** ** Concrete configurations and environments *)
(* ===================================================================== *)

Module Scenarios.

Definition hex32 : jsstring := lit "0123456789abcdef0123456789ABCDEF".

(** A configuration with a certificate and no token. *)
Definition cfg_cert : AgoraConfig :=
  {| appId := hex32; channel := lit "room"; token := None; uid := None;
     appCertificate := Some (lit "secret"); mode := Absent; codec := Absent |}.

(** The same without a certificate. *)
Definition cfg_nocert : AgoraConfig :=
  {| appId := hex32; channel := lit "room"; token := None; uid := None;
     appCertificate := None; mode := Absent; codec := Absent |}.

(** A configuration that brings its own token and asks for [live]/[h264]. *)
Definition cfg_token : AgoraConfig :=
  {| appId := hex32; channel := lit "room";
     token := Some (lit "007" ++ repeat 120%N 60); uid := None;
     appCertificate := None; mode := Present live; codec := Present h264 |}.

Definition network_error : exn :=
  {| is_Error := true; err_code := None;
     err_message := Some (lit "Failed to fetch") |}.

Definition engine_error : exn :=
  {| is_Error := true; err_code := Some (lit "OPERATION_ABORTED");
     err_message := Some (lit "track is closed") |}.

(** A browser with nothing stored, whose calls and requests are answered
    by [r] and [f]. *)
Definition browser (r : list event -> option exn) (f : list event -> fetch_result) : Env :=
  {| window_defined := true;
     process_env := fun _ => None;
     localStorage_getItem := fun _ => None;
     location_search_get := fun _ => None;
     Math_random16 := fun _ _ => 0%Z;
     TypeError_text := lit "Cannot read properties of null";
     raises := r;
     fetch_answer := f;
     new_track := fun h => Track (List.length h);
     has_local_player := fun _ => false |}.

(** Every call succeeds and every request is lost. *)
Definition offline : Env :=
  browser (fun _ => None) (fun _ => Rejected network_error).

(** The GET endpoint is unreachable, the POST endpoint answers
    [200 {token: "T1"}]. *)
Definition get_down_post_T1 : Env :=
  browser (fun _ => None)
    (fun h => match last h ELeave with
              | EFetch (HttpPostJson _ _) =>
                  Response 200 (Ok (VObj [(lit "token", VStr (lit "T1"))]))
              | _ => Rejected network_error
              end).

(** Every call succeeds except [stop()] on a track. *)
Definition stop_fails : Env :=
  browser (fun h => match last h ELeave with
                    | EStop _ => Some engine_error
                    | _ => None
                    end)
    (fun _ => Rejected network_error).

(** The engine accepts one [leave()] and rejects the next ones. *)
Definition leave_once : Env :=
  browser (fun h => match last h ELeave with
                    | ELeave =>
                        if (1 <? List.length (filter (fun e => match e with ELeave => true | _ => false end) h))%nat
                        then Some engine_error else None
                    | _ => None
                    end)
    (fun _ => Rejected network_error).

Definition invalid_token_error : exn :=
  {| is_Error := true; err_code := Some (lit "INVALID_TOKEN");
     err_message := Some (lit "AgoraRTCError INVALID_TOKEN") |}.

(** The engine rejects [join] with [INVALID_TOKEN]. *)
Definition token_rejected : Env :=
  browser (fun h => match last h ELeave with
                    | EJoin _ _ _ _ => Some invalid_token_error
                    | _ => None
                    end)
    (fun _ => Rejected network_error).

(** A blank channel name. *)
Definition cfg_no_channel : AgoraConfig :=
  {| appId := hex32; channel := lit "   "; token := None; uid := None;
     appCertificate := Some (lit "secret"); mode := Absent; codec := Absent |}.

Definition fresh (cfg : AgoraConfig) : World :=
  {| events := []; self := new_AgoraClient cfg |}.

(** A publisher that has joined with both local tracks. *)
Definition publishing (env : Env) : World :=
  snd (joinAsPublisher env (fresh cfg_token)).

(** An audience member that has joined. *)
Definition watching (env : Env) : World :=
  snd (joinAsAudience env (fresh cfg_token)).


(** A signing primitive that always answers. *)
Definition sign_ok (app cert chan u : jsval) (r : RtcRole) (t1 t2 : jsval)
    : result jsstring :=
  Ok (lit "007" ++ match app with VStr a => a | _ => [] end).


(** The text of a TypeError. *)
Definition type_error (v : jsval) : jsstring :=
  match v with
  | VNull | VUndefined => lit "Cannot destructure property 'appId' of 'body' as it is null."
  | _ => lit "Cannot convert object to primitive value"
  end.

(** One and a half. *)
Definition one_and_a_half : number := div (of_Z 3) (of_Z 2).


End Scenarios.

Import Scenarios.


(* ===================================================================== *)
(** ** More of [src/lib/agora-utils.ts]: stored credentials *)
(* ===================================================================== *)

Module Credentials.

(** [localStorage.setItem(k, v)] on the store read by
    [localStorage.getItem]; a store that is full is not modelled. *)
Definition setItem (ls : jsstring -> option jsstring) (k v : jsstring)
    : jsstring -> option jsstring :=
  fun k' => if str_eqb k' k then Some v else ls k'.

(** The world with another content of [localStorage]. *)
Definition with_localStorage (env : Env) (ls : jsstring -> option jsstring) : Env :=
  {| window_defined := window_defined env;
     process_env := process_env env;
     localStorage_getItem := ls;
     location_search_get := location_search_get env;
     Math_random16 := Math_random16 env;
     TypeError_text := TypeError_text env;
     raises := raises env;
     fetch_answer := fetch_answer env;
     new_track := new_track env;
     has_local_player := has_local_player env |}.

(** [saveAgoraCredentials(appId, appCertificate?)]: the world after it. *)
Definition saveAgoraCredentials (env : Env) (app : jsstring)
    (cert : option jsstring) : Env :=
  if negb (window_defined env) then env
  else
    let ls1 := setItem (localStorage_getItem env) (lit "agora_app_id") app in
    with_localStorage env
      match cert with
      | Some (c :: t) => setItem ls1 (lit "agora_app_certificate") (c :: t)
      | _ => ls1
      end.

(** [loadAgoraCredentials()]: the pair [(appId, appCertificate)]. *)
Definition loadAgoraCredentials (env : Env) : jsstring * jsstring :=
  let '(appid, certificate) := getOptionsFromLocal env in
  (appid, certificate).

End Credentials.

Import Credentials.


(* ===================================================================== *)
(** ** The token endpoint, [GET /api/agora/token] *)
(* ===================================================================== *)

Module RouteGet.

(** The JSON bodies that the [GET] handler answers with. *)
Inductive get_body :=
| GetError (error : jsstring)
| GetToken (tok appid : jsstring)
| GetFailure (message error : jsstring).

Record get_response := {
  get_status : Z;
  get_json : get_body
}.

Section Handler.

Variable buildTokenWithUid :
  jsval -> jsval -> jsval -> jsval -> RtcRole -> jsval -> jsval -> result jsstring.

(** [GET(request)].  [now] is [Date.now()], [searchParams_get] is
    [new URL(request.url).searchParams.get]. *)
Definition GET (now : Z) (searchParams_get : jsstring -> option jsstring)
    : get_response :=
  let channelName := searchParams_get (lit "channel") in
  let uid := str_or (searchParams_get (lit "uid")) (lit "0") in
  let role := str_or (searchParams_get (lit "role")) (lit "audience") in
  let appId := searchParams_get (lit "appId") in
  let appCertificate := searchParams_get (lit "appCertificate") in
  if missing appId || missing appCertificate || missing channelName
  then
    {| get_status := 400;
       get_json := GetError (lit "App ID, App Certificate, and Channel Name are required") |}
  else if negb (appIdPattern_test (str_of appId))
  then
    {| get_status := 400;
       get_json := GetError (lit "Invalid App ID format. App ID should be a 32-character hexadecimal string.") |}
  else
    let privilegeExpiredTs := VNum (add (currentTimestamp now) (of_Z 3600)) in
    let agoraRole :=
      if str_eqb role (lit "publisher") then PUBLISHER else SUBSCRIBER in
    let uidNum := or_else (VNum (parseInt uid)) (VNum (of_Z 0)) in
    match buildTokenWithUid (VStr (str_of appId)) (VStr (str_of appCertificate))
            (VStr (str_of channelName)) uidNum agoraRole
            privilegeExpiredTs privilegeExpiredTs with
    | Ok tok =>
        {| get_status := 200; get_json := GetToken tok (str_of appId) |}
    | Throw error =>
        {| get_status := 500;
           get_json := GetFailure (lit "Failed to generate token") (details_of error) |}
    end.

End Handler.

End RouteGet.

Import RouteGet.


(* ===================================================================== *)
(** ** The client and the endpoint on one wire *)
(* ===================================================================== *)

Module Wire.

(** [URLSearchParams.get(name)] on the pairs of a query string: the value
    of the first pair with that name. *)
Fixpoint params_get (params : list (jsstring * jsstring)) (name : jsstring)
    : option jsstring :=
  match params with
  | [] => None
  | (k, v) :: rest => if str_eqb name k then Some v else params_get rest name
  end.

(** The body posted by [generateTokenFromBackend], as the [POST] handler
    reads it after [request.json()]. *)
Definition posted (app cert chan : jsstring) (u : uid_t) (r : role)
    (expireTimeInSeconds : number) : jsval :=
  wire (backend_body app cert chan u r expireTimeInSeconds).

(** What [NextResponse.json] sends for the bodies of the [POST] handler,
    as [response.json()] gives it back. *)
Definition json_of_post (b : response_body) : jsval :=
  wire
    match b with
    | ErrorBody error => VObj [(lit "error", VStr error)]
    | ErrorDetailsBody error details =>
        VObj [(lit "error", VStr error); (lit "details", VStr details)]
    | TokenBody tok uidNum chan role expireTime generatedAt =>
        VObj [(lit "token", VStr tok); (lit "uid", uidNum);
              (lit "channel", chan); (lit "role", role);
              (lit "expireTime", expireTime);
              (lit "generatedAt", VNum generatedAt)]
    end.

(** The same for the [GET] handler. *)
Definition json_of_get (b : get_body) : jsval :=
  wire
    match b with
    | GetError error => VObj [(lit "error", VStr error)]
    | GetToken tok appid =>
        VObj [(lit "code", VNum (of_Z 0));
              (lit "data", VObj [(lit "token", VStr tok); (lit "appid", VStr appid)])]
    | GetFailure message error =>
        VObj [(lit "code", VNum (of_Z 1)); (lit "message", VStr message);
              (lit "error", VStr error)]
    end.

Definition post_answer (r : http_response) : fetch_result :=
  Response (status r) (Ok (json_of_post (body r))).

Definition get_answer (r : get_response) : fetch_result :=
  Response (get_status r) (Ok (json_of_get (get_json r))).

End Wire.

Import Wire.


(* ===================================================================== *)
(** ** The pages: checks made before joining *)
(* ===================================================================== *)

Module Pages.

(** [isValidAppId(id)] of the home page. *)
Definition isValidAppId (id : jsstring) : bool :=
  appIdPattern_test (trim id).

(** What the video page makes of its query string. *)
Inductive query_outcome :=
| QueryError (message : jsstring)
| QueryAccepted (app cert chan uid : jsstring).

(** The first effect of the video page, up to the values it stores;
    [get] is [new URLSearchParams(window.location.search).get]. *)
Definition read_query (get : jsstring -> option jsstring) : query_outcome :=
  let queryAppId := get (lit "appId") in
  let queryAppCertificate := get (lit "cert") in
  let queryChannel := get (lit "channel") in
  let queryUid := get (lit "uid") in
  if missing queryAppId || missing queryAppCertificate || missing queryChannel
  then QueryError (lit "Missing required parameters: appId, cert, and channel are required")
  else if negb (appIdPattern_test (str_of queryAppId))
  then QueryError (lit "Invalid App ID format. App ID should be a 32-character hexadecimal string.")
  else QueryAccepted (str_of queryAppId) (str_of queryAppCertificate)
         (str_of queryChannel) (str_or queryUid []).

End Pages.

Import Pages.


(* ===================================================================== *)
(** ** [src/hooks/useAgoraAudience.ts] *)
(* ===================================================================== *)

Module Hook.

(** A remote user, as the engine lists it. *)
Record RemoteUser := {
  ru_uid : uid_t;
  hasAudio : bool;
  hasVideo : bool
}.

(** What the hook reads from the engine and the timers, after a trace. *)
Record HookEnv := {
  (** [client.remoteUsers] *)
  remoteUsers : list event -> list RemoteUser;
  (** [client.connectionState === 'CONNECTED'] *)
  connected : list event -> bool;
  (** the id returned by [setInterval] *)
  interval_id : list event -> nat
}.

(** [getRemoteUsers()] and [isConnected()] of [AgoraClient]: two reads of
    the engine client, if there is one, after the trace [h]. *)
Definition getRemoteUsers (henv : HookEnv) (o : AgoraClient) (h : list event)
    : list RemoteUser :=
  match client o with Some _ => remoteUsers henv h | None => [] end.

Definition isConnected (henv : HookEnv) (o : AgoraClient) (h : list event) : bool :=
  match client o with Some _ => connected henv h | None => false end.

(** The arguments of the hook. *)
Record Props := {
  p_appId : jsstring;
  p_appCertificate : option jsstring;
  p_channel : jsstring;
  p_uid : option uid_t
}.

(** The [AgoraClient] held in the state of the hook, with the
    [updateInterval] property that [joinChannel] attaches to it (a timer
    id, which is truthy). *)
Record HeldClient := {
  object : AgoraClient;
  updateInterval : option nat
}.

(** The five state variables, as a callback sees them. *)
Record HookState := {
  hs_client : option HeldClient;
  hs_isJoined : bool;
  hs_isJoining : bool;
  hs_remoteUsers : list RemoteUser;
  hs_error : option jsstring
}.

Definition initial : HookState :=
  {| hs_client := None; hs_isJoined := false; hs_isJoining := false;
     hs_remoteUsers := []; hs_error := None |}.

(** The trace of calls and the timers that are running. *)
Record HookWorld := {
  hw_events : list event;
  hw_intervals : list nat
}.

(** [err instanceof Error ? err.message : fallback] *)
Definition message_of (err : exn) (fallback : jsstring) : jsstring :=
  if is_Error err then str_of (err_message err) else fallback.

(** The configuration that [joinChannel] builds. *)
Definition join_config (p : Props) (providedToken : option jsstring) : AgoraConfig :=
  {| appId := p_appId p; channel := p_channel p; token := providedToken;
     uid := p_uid p; appCertificate := p_appCertificate p;
     mode := Absent; codec := Absent |}.

Section WithEnv.

Variable env : Env.
Variable henv : HookEnv.

(** [generateToken()] of the hook: the outcome and the trace after it. *)
Definition generateToken (p : Props) (h : list event) : result jsval * list event :=
  if is_empty (p_appId p) || is_empty (p_channel p)
  then (Throw (new_Error (lit "App ID and channel are required for token generation")), h)
  else
    let '(r, w) :=
      Client.generateToken env audience
        {| events := h; self := new_AgoraClient (join_config p None) |} in
    (r, events w).

(** [joinChannel(providedToken?)]: the state once the callback has run to
    its end, every setter applied in order, and the world after it. *)
Definition joinChannel (p : Props) (providedToken : option jsstring)
    (st : HookState) (hw : HookWorld) : HookState * HookWorld :=
  if hs_isJoining st || hs_isJoined st then (st, hw)
  else
    let agoraClient := new_AgoraClient (join_config p providedToken) in
    match joinAsAudience env {| events := hw_events hw; self := agoraClient |} with
    | (Ok _, w1) =>
        let users := getRemoteUsers henv (self w1) (events w1) in
        let refreshed :=
          if isConnected henv (self w1) (events w1)
          then getRemoteUsers henv (self w1) (events w1)
          else users in
        let interval := interval_id henv (events w1) in
        ({| hs_client := Some {| object := self w1; updateInterval := Some interval |};
            hs_isJoined := true;
            hs_isJoining := false;
            hs_remoteUsers := refreshed;
            hs_error := None |},
         {| hw_events := events w1; hw_intervals := interval :: hw_intervals hw |})
    | (Throw err, w1) =>
        ({| hs_client := hs_client st;
            hs_isJoined := hs_isJoined st;
            hs_isJoining := false;
            hs_remoteUsers := hs_remoteUsers st;
            hs_error := Some (message_of err (lit "Failed to join channel")) |},
         {| hw_events := events w1; hw_intervals := hw_intervals hw |})
    end.

(** [clearInterval(id)] *)
Definition clearInterval (id : option nat) (running : list nat) : list nat :=
  match id with
  | Some i => filter (fun j => negb (Nat.eqb j i)) running
  | None => running
  end.

(** [leaveChannel()], in the same way. *)
Definition leaveChannel (st : HookState) (hw : HookWorld) : HookState * HookWorld :=
  match hs_client st with
  | None => (st, hw)
  | Some held =>
      if negb (hs_isJoined st) then (st, hw)
      else
        let running := clearInterval (updateInterval held) (hw_intervals hw) in
        match leave env {| events := hw_events hw; self := object held |} with
        | (Ok _, w1) =>
            ({| hs_client := None;
                hs_isJoined := false;
                hs_isJoining := hs_isJoining st;
                hs_remoteUsers := [];
                hs_error := None |},
             {| hw_events := events w1; hw_intervals := running |})
        | (Throw err, w1) =>
            ({| hs_client := Some {| object := self w1;
                                     updateInterval := updateInterval held |};
                hs_isJoined := hs_isJoined st;
                hs_isJoining := hs_isJoining st;
                hs_remoteUsers := hs_remoteUsers st;
                hs_error := Some (message_of err (lit "Failed to leave channel")) |},
             {| hw_events := events w1; hw_intervals := running |})
        end
  end.

(** The [leaveChannel] of an earlier render, in which [client] was the
    object [held] and [isJoined] was true, run when the state of the
    hook is [st]: the guard is passed with the values of that render,
    [held] is the object as it is now, and the setters act on [st]. *)
Definition stale_leaveChannel (held : HeldClient) (st : HookState) (hw : HookWorld)
    : HookState * HookWorld :=
  let running := clearInterval (updateInterval held) (hw_intervals hw) in
  match leave env {| events := hw_events hw; self := object held |} with
  | (Ok _, w1) =>
      ({| hs_client := None;
          hs_isJoined := false;
          hs_isJoining := hs_isJoining st;
          hs_remoteUsers := [];
          hs_error := None |},
       {| hw_events := events w1; hw_intervals := running |})
  | (Throw err, w1) =>
      ({| hs_client := hs_client st;
          hs_isJoined := hs_isJoined st;
          hs_isJoining := hs_isJoining st;
          hs_remoteUsers := hs_remoteUsers st;
          hs_error := Some (message_of err (lit "Failed to leave channel")) |},
       {| hw_events := events w1; hw_intervals := running |})
  end.

(** [leaveChannel()] in the mounted hook: the callback, then the render
    that its setters cause, then the effect of the hook.  The effect
    depends on [client] and [leaveChannel]; when the callback has set
    [client] to [null], React first runs the cleanup that the previous
    render registered, [if (client) leaveChannel()], with the [client]
    and the [leaveChannel] of that render.  A failed [leave()] changes
    neither [client] nor [isJoined], so the effect is not run again. *)
Definition leaveChannel_mounted (st : HookState) (hw : HookWorld)
    : HookState * HookWorld :=
  let '(st1, hw1) := leaveChannel st hw in
  match hs_client st, hs_client st1 with
  | Some held, None =>
      if negb (hs_isJoined st) then (st1, hw1)
      else
        let now :=
          self (snd (leave env {| events := hw_events hw; self := object held |})) in
        stale_leaveChannel {| object := now; updateInterval := updateInterval held |}
          st1 hw1
  | _, _ => (st1, hw1)
  end.

End WithEnv.

(** What holds of the state between two callbacks: no join is in flight,
    a client is held exactly when the session is joined, and a held
    object has its engine client. *)
Definition settled (st : HookState) : Prop :=
  hs_isJoining st = false
  /\ (hs_isJoined st = true <-> hs_client st <> None)
  /\ (forall held, hs_client st = Some held -> client (object held) <> None).

End Hook.


(* ===================================================================== *)
(** ** Vocabulary of the further statements *)
(* ===================================================================== *)

Module Vocabulary.

(** A digit or a letter a-f. *)
Definition lower_hex (c : N) : bool :=
  ((48 <=? c) && (c <=? 57) || (97 <=? c) && (c <=? 102))%N.

(** The value of a decimal numeral read from the left, after [acc]. *)
Fixpoint uint_value (acc : Z) (d : Decimal.uint) : Z :=
  match d with
  | Decimal.Nil => acc
  | Decimal.D0 d' => uint_value (acc * 10 + 0) d'
  | Decimal.D1 d' => uint_value (acc * 10 + 1) d'
  | Decimal.D2 d' => uint_value (acc * 10 + 2) d'
  | Decimal.D3 d' => uint_value (acc * 10 + 3) d'
  | Decimal.D4 d' => uint_value (acc * 10 + 4) d'
  | Decimal.D5 d' => uint_value (acc * 10 + 5) d'
  | Decimal.D6 d' => uint_value (acc * 10 + 6) d'
  | Decimal.D7 d' => uint_value (acc * 10 + 7) d'
  | Decimal.D8 d' => uint_value (acc * 10 + 8) d'
  | Decimal.D9 d' => uint_value (acc * 10 + 9) d'
  end.

(** The fields of a query string, as a request body of the [POST]
    handler with the same content. *)
Definition request_of_params (get : jsstring -> option jsstring) : jsval :=
  let value (name : string) :=
    match get (lit name) with Some s => VStr s | None => VUndefined end in
  VObj [ (lit "appId", value "appId");
         (lit "appCertificate", value "appCertificate");
         (lit "channelName", value "channel");
         (lit "uid", value "uid");
         (lit "role", value "role") ].

(** The bodies of the two handlers say the same. *)
Definition same_answer (now : Z) (appid : jsstring) (b : response_body) (g : get_body)
    : Prop :=
  match b, g with
  | ErrorBody e, GetError e' => e = e'
  | ErrorDetailsBody m d, GetFailure m' d' => m = m' /\ d = d'
  | TokenBody tok _ _ _ expireTime generatedAt, GetToken tok' appid' =>
      tok = tok' /\ appid' = appid
      /\ generatedAt = currentTimestamp now
      /\ expireTime = VNum (add (currentTimestamp now) (of_Z 3600))
  | _, _ => False
  end.

(** The uid that the [GET] handler signs for a uid of the client, which
    reaches it as text in the query string. *)
Definition uid_from_query (u : uid_t) : jsval :=
  or_else (VNum (parseInt (str_or (Some (uid_toString u)) (lit "0")))) (VNum (of_Z 0)).

(** The uid that the [POST] handler signs for a uid of the client, which
    reaches it as a JSON value. *)
Definition uid_from_body (u : uid_t) : jsval :=
  uidNum_of (wire (uid_val u)).

(** What is left of a number that is sent as JSON: a number that is not
    finite is sent as [null], which counts as zero in a sum. *)
Definition sent_number (x : number) : number :=
  match x with Finite _ _ _ => x | _ => Zero false end.

(** A decimal digit. *)
Definition is_digit (c : N) : bool := ((48 <=? c) && (c <=? 57))%N.

(** The number that [parseInt] makes of the digits it has read. *)
Definition read (neg : bool) (v : option Z) : number :=
  match v with
  | None => NaN
  | Some Z0 => Zero neg
  | Some m => round_ratio neg m 1
  end.

(** The integers that every number holds exactly:
    [Number.MIN_SAFE_INTEGER .. Number.MAX_SAFE_INTEGER]. *)
Definition safe_integer (n : Z) : Prop := (Z.abs n <= 2 ^ 53 - 1)%Z.

Definition role_enum (r : role) : RtcRole :=
  match r with publisher => PUBLISHER | audience => SUBSCRIBER end.

(** [details || `HTTP 500`] *)
Definition details_or_status (details : jsstring) : jsstring :=
  match details with
  | [] => lit "HTTP 500"
  | _ => details
  end.

(** The trace of [w'] is the trace of [w] followed by calls that all
    satisfy [P]. *)
Definition extends (P : event -> bool) (w w' : World) : Prop :=
  exists l, events w' = events w ++ l /\ forallb P l = true.

(** The same, and the part [f] of the object has not changed. *)
Definition keeps {B} (f : AgoraClient -> B) (P : event -> bool) (w w' : World) : Prop :=
  extends P w w' /\ f (self w') = f (self w).

(** Started from an object whose part [f] satisfies [Q], the computation
    only makes calls that satisfy [P] and leaves [f] alone. *)
Definition stable {B} (f : AgoraClient -> B) (Q : B -> Prop) (P : event -> bool)
    {A} (m : M A) : Prop :=
  forall w, Q (f (self w)) -> keeps f P w (snd (m w)).

(** Calls that create, publish, play, stop or close a local track. *)
Definition is_track_call (e : event) : bool :=
  match e with
  | ECreateMicrophoneAudioTrack | ECreateCameraVideoTrack
  | EPublish _ | EPlay _ | EStop _ | EClose _ => true
  | _ => false
  end.

(** The calls that [createAndPublishTracks] makes on tracks. *)
Definition is_publish_call (e : event) : bool :=
  match e with
  | ECreateMicrophoneAudioTrack | ECreateCameraVideoTrack
  | EPublish _ | EPlay _ => true
  | _ => false
  end.

(** Calls that undo a session: engine [leave], [stop] and [close]. *)
Definition is_teardown (e : event) : bool :=
  match e with
  | ELeave | EStop _ | EClose _ => true
  | _ => false
  end.

Definition is_createClient (e : event) : bool :=
  match e with ECreateClient _ _ => true | _ => false end.

(** What an audience join must leave alone. *)
Definition local_media (o : AgoraClient) : option track * option track * bool :=
  (localVideoTrack o, localAudioTrack o, isPublisher o).

(** The calls of [createAndPublishTracks] after the trace [h], in program
    order, with the tracks that the two factories hand out. *)
Definition microphone (env : Env) (h : list event) : track :=
  new_track env (h ++ [EImportSdk; ECreateMicrophoneAudioTrack]).

Definition camera (env : Env) (h : list event) : track :=
  new_track env (h ++ [EImportSdk; ECreateMicrophoneAudioTrack; ECreateCameraVideoTrack]).

Definition publish_calls (env : Env) (h : list event) : list event :=
  [EImportSdk; ECreateMicrophoneAudioTrack; ECreateCameraVideoTrack;
   EPublish [microphone env h; camera env h]]
  ++ (if has_local_player env
           (h ++ [EImportSdk; ECreateMicrophoneAudioTrack; ECreateCameraVideoTrack;
                  EPublish [microphone env h; camera env h]])
      then [EPlay (camera env h)] else []).

End Vocabulary.

Import Vocabulary.


(* ===================================================================== *)
(** ** Further concrete cases *)
(* ===================================================================== *)

Module Cases.

Import Hook.

(** A browser whose requests to [/api/agora/token] are answered by the
    two handlers, with [sign_ok] as signing primitive; the [POST]
    handler reads the body that was sent. *)
Definition same_origin : Env :=
  browser (fun _ => None)
    (fun h => match last h ELeave with
              | EFetch (HttpGet _ params) =>
                  get_answer (GET sign_ok 1700000000123 (params_get params))
              | EFetch (HttpPostJson _ sent) =>
                  post_answer (POST sign_ok type_error 1700000000456 (Ok (wire sent)))
              | _ => Rejected network_error
              end).

(** The same browser on the server side of a render: no [window]. *)
Definition server_side : Env :=
  {| window_defined := false;
     process_env := fun _ => None;
     localStorage_getItem := fun _ => None;
     location_search_get := fun _ => None;
     Math_random16 := fun _ _ => 0%Z;
     TypeError_text := lit "Cannot read properties of null";
     raises := fun _ => None;
     fetch_answer := fun _ => Rejected network_error;
     new_track := fun h => Track (List.length h);
     has_local_player := fun _ => false |}.

(** An App ID that is valid once trimmed. *)
Definition cfg_padded : AgoraConfig :=
  {| appId := lit " " ++ hex32 ++ lit " "; channel := lit "room"; token := None;
     uid := Some (UidNum (of_Z 7)); appCertificate := Some (lit "secret");
     mode := Absent; codec := Absent |}.

(** The camera cannot be opened. *)
Definition no_camera : Env :=
  browser (fun h => match last h ELeave with
                    | ECreateCameraVideoTrack => Some engine_error
                    | _ => None
                    end)
    (fun _ => Rejected network_error).

(** The engine refuses to leave. *)
Definition leave_fails : Env :=
  browser (fun h => match last h ELeave with
                    | ELeave => Some engine_error
                    | _ => None
                    end)
    (fun _ => Rejected network_error).

(** A query string of the video page. *)
Definition video_query (name : jsstring) : option jsstring :=
  params_get [(lit "appId", hex32); (lit "cert", lit "secret");
              (lit "channel", lit "room")] name.

Definition quiet : HookEnv :=
  {| remoteUsers := fun _ => []; connected := fun _ => true;
     interval_id := fun h => S (List.length h) |}.

Definition props_blank_channel : Props :=
  {| p_appId := hex32; p_appCertificate := Some (lit "secret");
     p_channel := lit "  "; p_uid := None |}.

Definition props_token : Props :=
  {| p_appId := hex32; p_appCertificate := None;
     p_channel := lit "room"; p_uid := None |}.

Definition no_timers : HookWorld := {| hw_events := []; hw_intervals := [] |}.

(** The hook after a join with a token supplied by the caller. *)
Definition joined (env : Env) : HookState * HookWorld :=
  joinChannel env quiet props_token (Some (lit "007" ++ repeat 120%N 60))
    initial no_timers.

(** The client that the hook holds after that join. *)
Definition held_after (env : Env) : HeldClient :=
  match hs_client (fst (joined env)) with
  | Some held => held
  | None => {| object := new_AgoraClient cfg_token; updateInterval := None |}
  end.

(** An object that has its client and is about to publish. *)
Definition ready_to_publish : World :=
  {| events := [];
     self := {| client := Some rtc_vp8; config := with_defaults cfg_token;
                localVideoTrack := None; localAudioTrack := None;
                isPublisher := true |} |}.

End Cases.

Import Cases.


(* ===================================================================== *)
(** ** Running the monad *)
(* ===================================================================== *)

Lemma after_nil w : after w [] = w.
Proof. destruct w; unfold after; cbn. now rewrite app_nil_r. Qed.

Lemma after_after w l1 l2 : after (after w l1) l2 = after w (l1 ++ l2).
Proof. unfold after; cbn. now rewrite app_assoc. Qed.

Lemma silent_run {A} (m : M A) w : silent m -> m w = (fst (m w), w).
Proof. intros H. rewrite <- (H w) at 3. now destruct (m w). Qed.

Lemma silent_ret {A} (a : A) : silent (ret a).
Proof. now intros w. Qed.

Lemma silent_throw {A} e : silent (@throw A e).
Proof. now intros w. Qed.

Lemma silent_bind {A B} (m : M A) (k : A -> M B) :
  silent m -> (forall a, silent (k a)) -> silent (bind m k).
Proof.
  intros Hm Hk w. unfold bind. rewrite (silent_run m w Hm).
  destruct (fst (m w)); [apply Hk | reflexivity].
Qed.

Lemma silent_getM env v p : silent (getM env v p).
Proof. unfold getM. destruct (get v p); [apply silent_ret | apply silent_throw]. Qed.

Lemma silent_json r : silent (json r).
Proof. destruct r; [apply silent_ret | apply silent_throw]. Qed.

Lemma silent_throw_new_Error {A} env v : silent (@throw_new_Error env A v).
Proof. unfold throw_new_Error. destruct (toString v); apply silent_throw. Qed.

Create HintDb silent.
#[local] Hint Resolve silent_ret silent_throw silent_getM silent_json
  silent_throw_new_Error : silent.

Ltac silence :=
  repeat first
    [ progress auto with silent
    | apply silent_bind; [ | intros ? ]
    | match goal with
      | |- silent (match ?x with _ => _ end) => destruct x
      | |- silent (if ?x then _ else _) => destruct x
      end ].

Lemma silent_check_ok env response : silent (check_ok env response).
Proof. unfold check_ok. silence. Qed.

#[local] Hint Resolve silent_check_ok : silent.

(** A [catch] that only logs and rethrows changes nothing. *)
Lemma try_catch_rethrow {A} (m : M A) w :
  try_catch m (fun error => throw error) w = m w.
Proof. unfold try_catch, throw. now destruct (m w) as [[a|e] w']. Qed.

Lemma bind_fetch {A} env req (k : Z * result jsval -> M A) w :
  bind (fetch env req) k w =
  match fetch_answer env (events w ++ [EFetch req]) with
  | Rejected e => (Throw e, after w [EFetch req])
  | Response st js => k (st, js) (after w [EFetch req])
  end.
Proof.
  unfold fetch, bind, emit, history, after; cbn.
  destruct (fetch_answer _ _); reflexivity.
Qed.

Lemma bind_call {A} env e (k : unit -> M A) w :
  bind (call env e) k w =
  match raises env (events w ++ [e]) with
  | Some x => (Throw x, after w [e])
  | None => k tt (after w [e])
  end.
Proof.
  unfold call, bind, emit, history, after; cbn.
  destruct (raises _ _); reflexivity.
Qed.

(** One request followed by silent processing of the answer. *)
Lemma fetch_then_silent {A} env req (k : Z * result jsval -> M A) w :
  (forall x, silent (k x)) ->
  bind (fetch env req) k w =
  (match fetch_answer env (events w ++ [EFetch req]) with
   | Rejected e => Throw e
   | Response st js => fst (k (st, js) (after w [EFetch req]))
   end, after w [EFetch req]).
Proof.
  intros S. rewrite bind_fetch.
  destruct (fetch_answer _ _) as [e|st js]; [reflexivity|].
  apply silent_run, S.
Qed.

Ltac run_calls_by_cases env :=
  unfold call, bind, emit, history, this, set_this, ret, throw; cbn;
  repeat match goal with
         | |- context [raises env ?l] => destruct (raises env l); cbn
         end.

Lemma str_eqb_eq a b : str_eqb a b = true <-> a = b.
Proof.
  revert b. induction a as [|x a IH]; intros [|y b]; cbn; split;
    try congruence; try discriminate.
  - intros H. apply andb_prop in H as [H1 H2].
    apply N.eqb_eq in H1. apply IH in H2. congruence.
  - intros [= -> ->]. rewrite N.eqb_refl. now apply IH.
Qed.


(* ===================================================================== *)
(** ** The token provider *)
(* ===================================================================== *)

(** What [generateTokenFromServer] makes of the answer to its request. *)
Lemma generateTokenFromServer_run env app cert chan u r w :
  exists res,
    generateTokenFromServer env app cert chan u r w
    = (res, after w [EFetch (server_request app cert chan u r)])
    /\ match fetch_answer env (events w ++ [EFetch (server_request app cert chan u r)]) with
       | Rejected e => res = Throw e
       | Response st js =>
           (response_ok st = false -> exists e, res = Throw e)
           /\ (forall e, js = Throw e -> exists e', res = Throw e')
       end.
Proof.
  unfold generateTokenFromServer. rewrite try_catch_rethrow.
  rewrite fetch_then_silent by (intros; silence).
  eexists; split; [reflexivity|].
  destruct (fetch_answer _ _) as [e|st js]; [reflexivity|].
  cbn. unfold check_ok, bind; cbn. split.
  - intros ->. destruct js as [v|e]; cbn; [|eauto].
    unfold getM, throw_new_Error. destruct (get v p_error); cbn; [|eauto].
    destruct (toString _); cbn; eauto.
  - intros e ->. destruct (response_ok st); cbn; eauto.
Qed.

(** The same for [generateTokenFromBackend]. *)
Lemma generateTokenFromBackend_run env app cert chan u r x w :
  exists res,
    generateTokenFromBackend env app cert chan u r x w
    = (res, after w [EFetch (backend_request app cert chan u r x)])
    /\ match fetch_answer env (events w ++ [EFetch (backend_request app cert chan u r x)]) with
       | Rejected e => res = Throw e
       | Response st js =>
           (response_ok st = false -> exists e, res = Throw e)
           /\ (forall e, js = Throw e -> exists e', res = Throw e')
           /\ (forall body t, response_ok st = true -> js = Ok body ->
               get body p_token = Some t -> res = Ok t)
       end.
Proof.
  unfold generateTokenFromBackend. rewrite try_catch_rethrow.
  rewrite fetch_then_silent by (intros; silence).
  eexists; split; [reflexivity|].
  destruct (fetch_answer _ _) as [e|st js]; [reflexivity|].
  cbn. unfold check_ok, bind; cbn. repeat split.
  - intros ->. destruct js as [v|e]; cbn; [|eauto].
    unfold getM, throw_new_Error. destruct (get v p_error); cbn; [|eauto].
    destruct (toString _); cbn; eauto.
  - intros e ->. destruct (response_ok st); cbn; eauto.
  - intros body t -> -> Hg. cbn. unfold getM. rewrite Hg. reflexivity.
Qed.

(** With a certificate, [generateToken] is the GET attempt followed, when
    it throws, by the POST attempt. *)
Lemma generateToken_with_certificate env r w c cert :
  appCertificate (config (self w)) = Some (c :: cert) ->
  generateToken env r w =
  let cfg := config (self w) in
  match generateTokenFromServer env (appId cfg) (c :: cert) (channel cfg)
          (uid_or_zero (uid cfg)) r w with
  | (Ok t, w1) => (Ok t, w1)
  | (Throw _, w1) =>
      generateTokenFromBackend env (appId cfg) (c :: cert) (channel cfg)
        (uid_or_zero (uid cfg)) r (of_Z 3600) w1
  end.
Proof.
  intros H. unfold generateToken. rewrite try_catch_rethrow.
  unfold bind, this; cbn. rewrite H. unfold try_catch.
  destruct (generateTokenFromServer _ _ _ _ _ _ _) as [[t|e] w1]; reflexivity.
Qed.

(** The two attempts of [generateToken] when a certificate is there, and
    the requests they leave in the trace. *)
Lemma generateToken_two_attempts env r w c cert :
  appCertificate (config (self w)) = Some (c :: cert) ->
  let cfg := config (self w) in
  let u := uid_or_zero (uid cfg) in
  let get_req := server_request (appId cfg) (c :: cert) (channel cfg) u r in
  let post_req := backend_request (appId cfg) (c :: cert) (channel cfg) u r (of_Z 3600) in
  let w1 := after w [EFetch get_req] in
  let w2 := after w [EFetch get_req; EFetch post_req] in
  exists res1,
    generateTokenFromServer env (appId cfg) (c :: cert) (channel cfg) u r w = (res1, w1)
    /\ match res1 with
       | Ok t => generateToken env r w = (Ok t, w1)
       | Throw _ =>
           exists res2,
             generateTokenFromBackend env (appId cfg) (c :: cert) (channel cfg) u r (of_Z 3600) w1
             = (res2, w2)
             /\ generateToken env r w = (res2, w2)
       end.
Proof.
  intros Hc cfg u get_req post_req w1 w2.
  destruct (generateTokenFromServer_run env (appId cfg) (c :: cert) (channel cfg) u r w)
    as (res1 & E1 & _).
  destruct (generateTokenFromBackend_run env (appId cfg) (c :: cert) (channel cfg) u r (of_Z 3600) w1)
    as (res2 & E2 & _).
  fold get_req in E1. fold post_req in E2. fold w1 in E1.
  unfold w1 in E2 at 2. rewrite after_after in E2. cbn [app] in E2. fold w2 in E2.
  assert (G := generateToken_with_certificate env r w c cert Hc).
  cbn zeta in G. fold cfg u in G. rewrite E1 in G.
  exists res1. split; [exact E1|].
  destruct res1 as [t|e]; [exact G|].
  exists res2. split; [exact E2 | now rewrite G].
Qed.

(** C1 (as amended).  For a configuration with a certificate,
    [generateToken] first sends the query-string GET; if that attempt
    yields a token, this is the result and nothing else is sent.  If it
    fails in any way -- in particular on a network error, on a status
    outside 2xx, or on a body that is not JSON -- it sends the JSON POST
    with the same application id, certificate, channel, uid and role, and
    the outcome of that second attempt is the outcome of [generateToken].
    In particular, when the GET meets a network error and the POST is
    answered with token "T1", [generateToken] resolves to "T1". *)
Theorem generateToken_GET_then_POST env r w c cert :
  appCertificate (config (self w)) = Some (c :: cert) ->
  let cfg := config (self w) in
  let u := uid_or_zero (uid cfg) in
  let get_req := server_request (appId cfg) (c :: cert) (channel cfg) u r in
  let post_req := backend_request (appId cfg) (c :: cert) (channel cfg) u r (of_Z 3600) in
  let w1 := after w [EFetch get_req] in
  let w2 := after w [EFetch get_req; EFetch post_req] in
  (exists res1,
      generateTokenFromServer env (appId cfg) (c :: cert) (channel cfg) u r w = (res1, w1)
      /\ match res1 with
         | Ok t => generateToken env r w = (Ok t, w1)
         | Throw _ =>
             exists res2,
               generateTokenFromBackend env (appId cfg) (c :: cert) (channel cfg) u r (of_Z 3600) w1
               = (res2, w2)
               /\ generateToken env r w = (res2, w2)
         end)
  /\ (match fetch_answer env (events w1) with
      | Rejected _ => True
      | Response st js => response_ok st = false \/ exists e, js = Throw e
      end ->
      exists res2,
        generateTokenFromBackend env (appId cfg) (c :: cert) (channel cfg) u r (of_Z 3600) w1
        = (res2, w2)
        /\ generateToken env r w = (res2, w2))
  /\ (forall e st body,
        fetch_answer env (events w1) = Rejected e ->
        fetch_answer env (events w2) = Response st (Ok body) ->
        response_ok st = true ->
        get body p_token = Some (VStr (lit "T1")) ->
        generateToken env r w = (Ok (VStr (lit "T1")), w2)).
Proof.
  intros Hc cfg u get_req post_req w1 w2.
  destruct (generateToken_two_attempts env r w c cert Hc) as (res1 & E1 & K).
  fold cfg u get_req post_req w1 w2 in E1, K.
  destruct (generateTokenFromServer_run env (appId cfg) (c :: cert) (channel cfg) u r w)
    as (res1' & E1' & A1).
  fold get_req w1 in E1', A1. rewrite E1 in E1'. injection E1' as <-.
  change (events w ++ [EFetch get_req]) with (events w1) in A1.
  assert (F : (exists e, res1 = Throw e) ->
              exists res2,
                generateTokenFromBackend env (appId cfg) (c :: cert) (channel cfg) u r (of_Z 3600) w1
                = (res2, w2) /\ generateToken env r w = (res2, w2)).
  { intros [e ->]. exact K. }
  split; [|split].
  - exists res1. split; [exact E1 | exact K].
  - intros Hfail. apply F.
    destruct (fetch_answer env (events w1)) as [e|st js].
    + eauto.
    + destruct A1 as [B1 B2]. destruct Hfail as [Hs|[e He]]; eauto.
  - intros e st body R1 R2 Hok Htok.
    rewrite R1 in A1.
    destruct (F (ex_intro _ e A1)) as (res2 & E2 & ->). f_equal.
    destruct (generateTokenFromBackend_run env (appId cfg) (c :: cert) (channel cfg) u r (of_Z 3600) w1)
      as (res2' & E2' & A2).
    fold post_req in E2', A2. rewrite E2 in E2'. injection E2' as <- _.
    change (events w1 ++ [EFetch post_req])
      with ((events w ++ [EFetch get_req]) ++ [EFetch post_req]) in A2.
    rewrite <- app_assoc in A2. cbn [app] in A2.
    change (events w2) with (events w ++ [EFetch get_req; EFetch post_req]) in R2.
    rewrite R2 in A2.
    destruct A2 as (_ & _ & A2). exact (A2 body _ Hok eq_refl Htok).
Qed.

(** The GET endpoint is unreachable and the POST endpoint answers "T1". *)
Lemma generateToken_GET_then_POST_witness :
  appCertificate (config (self (fresh cfg_cert))) = Some (lit "secret")
  /\ generateToken get_down_post_T1 audience (fresh cfg_cert)
     = (Ok (VStr (lit "T1")),
        after (fresh cfg_cert)
          [EFetch (server_request hex32 (lit "secret") (lit "room") (UidNum (of_Z 0)) audience);
           EFetch (backend_request hex32 (lit "secret") (lit "room") (UidNum (of_Z 0)) audience (of_Z 3600))]).
Proof.
  split; [reflexivity|].
  refine (proj2 (proj2 (generateToken_GET_then_POST get_down_post_T1 audience
                          (fresh cfg_cert) 115%N (lit "ecret") eq_refl))
            network_error 200%Z (VObj [(lit "token", VStr (lit "T1"))]) _ _ _ _);
    reflexivity.
Defined.

(** C1 as worded fails: the claim makes the JSON POST the first attempt
    and the query-string GET the fallback.  With the GET endpoint down
    and the POST endpoint answering, the requests sent are the GET and
    then the POST, not a POST followed by a GET. *)
Lemma generateToken_fallback_is_not_GET :
  events (snd (generateToken get_down_post_T1 audience (fresh cfg_cert)))
  = [EFetch (server_request hex32 (lit "secret") (lit "room") (UidNum (of_Z 0)) audience);
     EFetch (backend_request hex32 (lit "secret") (lit "room") (UidNum (of_Z 0)) audience (of_Z 3600))]
  /\ ~ (exists url body path params,
          events (snd (generateToken get_down_post_T1 audience (fresh cfg_cert)))
          = [EFetch (HttpPostJson url body); EFetch (HttpGet path params)]).
Proof.
  split; [reflexivity|].
  intros (url & body & path & params & H). vm_compute in H. discriminate H.
Qed.

Lemma or_else_VNull t : truthy (or_else t VNull) = true \/ or_else t VNull = VNull.
Proof. unfold or_else. destruct (truthy t) eqn:E; auto. Qed.

(** The request to the vendor server: one request, and a result that is
    either a truthy token or [null]. *)
Lemma request_token_run env url data w :
  exists res,
    request_token env url data w = (res, after w [EFetch (HttpPostJson url data)])
    /\ (forall t, res = Ok t -> truthy t = true \/ t = VNull).
Proof.
  unfold request_token. rewrite try_catch_rethrow.
  rewrite fetch_then_silent by (intros; silence).
  eexists; split; [reflexivity|].
  destruct (fetch_answer _ _) as [e|st js]; [discriminate|].
  cbn. unfold bind, json, getM, throw_new_Error, ret, throw.
  destruct js as [v|e]; cbn; [|discriminate].
  destruct (get v p_code) as [code|]; cbn; [|discriminate].
  destruct (is_zero code); cbn;
    [|destruct (get v p_message); cbn; [destruct (toString _)|]; discriminate].
  destruct (get v p_data) as [d|]; cbn; [|discriminate].
  destruct (get (or_else d (VObj [])) p_token) as [tok|]; cbn; [|discriminate].
  intros t [= <-]. apply or_else_VNull.
Qed.

Lemma agoraGetAppData_run env tc w :
  exists res,
    agoraGetAppData env tc w
    = (res, after w (demo_events env (events w) (tc_channel tc) (tc_uid tc)))
    /\ (forall t, res = Ok t -> truthy t = true \/ t = VNull)
    /\ (demo_request env (events w) (tc_channel tc) (tc_uid tc) = None -> res = Ok VNull).
Proof.
  unfold agoraGetAppData, demo_events, demo_request.
  destruct (getOptionsFromLocal env) as [appid certificate].
  destruct (getEncryptFromUrl env) as [encryptedId encryptedSecret].
  destruct (nonempty encryptedId && nonempty encryptedSecret).
  - unfold generateUUID, bind, history, ret; cbv beta iota.
    destruct (request_token_run env (BASE_URL env ++ lit "/v1/webdemo/encrypted/token")
                (encrypted_body (tc_channel tc) encryptedId encryptedSecret
                   (replace_xy (Math_random16 env (events w)) 0 uuid_template)) w)
      as (res & E & H).
    exists res. rewrite E. repeat split; [exact H | discriminate].
  - destruct certificate as [|c certificate].
    + exists (Ok VNull). rewrite after_nil. repeat split.
      intros t [= <-]. now right.
    + destruct (request_token_run env (BASE_URL env ++ lit "/v2/token/generate")
                  (direct_body appid (c :: certificate) (tc_channel tc) (tc_uid tc)) w)
        as (res & E & H).
      exists res. rewrite E. repeat split; [exact H | discriminate].
Qed.

(** Without a certificate, [generateToken] is the vendor demo path. *)
Lemma generateToken_without_certificate env r w :
  nonempty (appCertificate (config (self w))) = false ->
  generateToken env r w =
  let cfg := config (self w) in
  match agoraGetAppData env
          {| tc_uid := uid_or_zero (uid cfg); tc_channel := channel cfg;
             tc_appid := appId cfg |} w with
  | (Ok t, w1) =>
      if truthy t then (Ok t, w1) else (Throw (new_Error No_token_method), w1)
  | (Throw e, w1) => (Throw e, w1)
  end.
Proof.
  intros H. unfold generateToken. rewrite try_catch_rethrow.
  unfold bind, this; cbn.
  destruct (appCertificate (config (self w))) as [[|c cert]|]; try discriminate;
    destruct (agoraGetAppData _ _ _) as [[t|e] w1]; try reflexivity;
    destruct (truthy t); reflexivity.
Qed.

(** C2 (as amended).  Without a certificate, [generateToken] takes the
    vendor demo path: one request to the encrypted-token service when the
    page URL carries both [encryptedId] and [encryptedSecret], otherwise
    one direct-certificate request with the locally cached credentials
    when a cached certificate exists, otherwise no request.  It never
    resolves to a falsy (empty) token: when the demo path completes
    without a token it fails with exactly "No token generation method
    available. Please provide App Certificate.", and an error raised by
    the demo request is passed on unchanged.  With a certificate the demo
    server is never contacted: the trace is the GET alone or the GET and
    the POST, and when both attempts fail the error of the POST attempt is
    what [generateToken] throws. *)
Theorem generateToken_demo_server env r w :
  let cfg := config (self w) in
  let u := uid_or_zero (uid cfg) in
  let tc := {| tc_uid := u; tc_channel := channel cfg; tc_appid := appId cfg |} in
  (nonempty (appCertificate cfg) = false ->
   exists res,
     generateToken env r w = (res, after w (demo_events env (events w) (channel cfg) u))
     /\ (forall t, res = Ok t -> truthy t = true)
     /\ (forall t, fst (agoraGetAppData env tc w) = Ok t -> truthy t = false ->
         res = Throw (new_Error No_token_method))
     /\ (forall e, fst (agoraGetAppData env tc w) = Throw e -> res = Throw e)
     /\ (demo_request env (events w) (channel cfg) u = None ->
         res = Throw (new_Error No_token_method)))
  /\ (forall c cert,
        appCertificate cfg = Some (c :: cert) ->
        let get_req := server_request (appId cfg) (c :: cert) (channel cfg) u r in
        let post_req := backend_request (appId cfg) (c :: cert) (channel cfg) u r (of_Z 3600) in
        (events (snd (generateToken env r w)) = events w ++ [EFetch get_req]
         \/ events (snd (generateToken env r w)) = events w ++ [EFetch get_req; EFetch post_req])
        /\ (forall e1 e2,
              fst (generateTokenFromServer env (appId cfg) (c :: cert) (channel cfg) u r w)
              = Throw e1 ->
              fst (generateTokenFromBackend env (appId cfg) (c :: cert) (channel cfg) u r (of_Z 3600)
                     (after w [EFetch get_req]))
              = Throw e2 ->
              generateToken env r w
              = (Throw e2, after w [EFetch get_req; EFetch post_req]))).
Proof.
  intros cfg u tc. split.
  - intros Hn. rewrite (generateToken_without_certificate env r w Hn).
    cbn zeta. fold cfg u tc.
    destruct (agoraGetAppData_run env tc w) as (res & E & Ht & Hnone).
    cbn [tc_channel tc_uid tc] in E, Hnone. rewrite E. cbn [fst].
    destruct res as [t|e].
    + destruct (truthy t) eqn:T.
      * eexists; split; [reflexivity|]. repeat split.
        -- now intros t' [= <-].
        -- intros t' [= <-]. congruence.
        -- discriminate.
        -- intros H. specialize (Hnone H). injection Hnone as ->. discriminate T.
      * eexists; split; [reflexivity|]. repeat split; try discriminate; auto.
    + eexists; split; [reflexivity|]. repeat split; try discriminate.
      * now intros e' [= <-].
      * intros H. now specialize (Hnone H).
  - intros c cert Hc get_req post_req.
    destruct (generateToken_two_attempts env r w c cert Hc) as (res1 & E1 & K).
    fold cfg u get_req post_req in E1, K. split.
    + destruct res1 as [t|e].
      * left. now rewrite K.
      * right. destruct K as (res2 & _ & ->). reflexivity.
    + intros e1 e2 H1 H2. rewrite E1 in H1. cbn in H1. subst res1.
      destruct K as (res2 & E2 & ->). rewrite E2 in H2. cbn in H2. now subst res2.
Qed.

(** No certificate, nothing in the URL, nothing cached: no request is
    made and the descriptive error is thrown. *)
Lemma generateToken_demo_server_witness :
  nonempty (appCertificate (config (self (fresh cfg_nocert)))) = false
  /\ exists res,
       generateToken offline audience (fresh cfg_nocert) = (res, fresh cfg_nocert)
       /\ res = Throw (new_Error No_token_method).
Proof.
  split; [reflexivity|].
  destruct (proj1 (generateToken_demo_server offline audience (fresh cfg_nocert)) eq_refl)
    as (res & E & _ & _ & _ & H).
  exists res. split; [exact E | apply H; reflexivity].
Defined.

(** C2 as worded fails: with a certificate and both signing endpoints
    unreachable, the trace holds the two requests to the signing endpoint
    and none to the vendor server, and the error thrown is the network
    error of the second attempt, not the "No token generation method"
    error. *)
Lemma generateToken_skips_demo_server_with_certificate :
  generateToken offline audience (fresh cfg_cert)
  = (Throw network_error,
     after (fresh cfg_cert)
       [EFetch (server_request hex32 (lit "secret") (lit "room") (UidNum (of_Z 0)) audience);
        EFetch (backend_request hex32 (lit "secret") (lit "room") (UidNum (of_Z 0)) audience (of_Z 3600))])
  /\ fst (generateToken offline audience (fresh cfg_cert))
     <> Throw (new_Error No_token_method).
Proof.
  split; [reflexivity|]. vm_compute. discriminate.
Qed.


(* ===================================================================== *)
(** ** Leaving *)
(* ===================================================================== *)

Ltac run_leave :=
  unfold leave, try_catch, bind, call, emit, history, this,
    set_localVideoTrack, set_localAudioTrack, set_isPublisher, set_this,
    ret, throw; cbn.

(** [leave] on an object that holds a client: the teardown calls are made
    in program order up to the first one that throws. *)
Lemma leave_run env w c :
  client (self w) = Some c ->
  exists o',
    leave env w
    = (match snd (run_calls env (events w) (teardown_calls (self w))) with
       | Some e => Throw e
       | None => Ok tt
       end,
       {| events := events w ++ fst (run_calls env (events w) (teardown_calls (self w)));
          self := o' |})
    /\ client o' = Some c
    /\ match snd (run_calls env (events w) (teardown_calls (self w))) with
       | None =>
           fst (run_calls env (events w) (teardown_calls (self w)))
           = teardown_calls (self w)
           /\ localVideoTrack o' = None
           /\ localAudioTrack o' = None
           /\ isPublisher o' = false
       | Some _ =>
           let made := List.length (fst (run_calls env (events w) (teardown_calls (self w)))) in
           isPublisher o' = isPublisher (self w)
           /\ localVideoTrack o'
              = (if (List.length (video_teardown (self w)) <? made)%nat then None
                 else localVideoTrack (self w))
           /\ localAudioTrack o'
              = (if (List.length (video_teardown (self w) ++ audio_teardown (self w)) <? made)%nat
                 then None
                 else localAudioTrack (self w))
       end.
Proof.
  intros Hc. destruct w as [h [cl cfg v a p]]. cbn in Hc. subst cl.
  unfold teardown_calls. cbn [self localVideoTrack localAudioTrack events].
  run_leave.
  destruct v as [v|], a as [a|]; cbn;
    repeat match goal with
           | |- context [raises env ?l] => destruct (raises env l); cbn
           end;
    rewrite <- ?app_assoc; cbn;
    eexists; repeat split; reflexivity.
Qed.

(** The teardown calls are those of the video track, those of the audio
    track and the engine's [leave]. *)
Lemma teardown_calls_parts o :
  teardown_calls o = video_teardown o ++ audio_teardown o ++ [ELeave].
Proof. reflexivity. Qed.

(** C3 (as amended).  [leave()] is a no-op when the object holds no
    client.  After a [leave()] that succeeded, the client handle is still
    held and both track references are cleared, so a second [leave()]
    touches no track but calls the engine's [leave] once more, and throws
    what that call throws. *)
Theorem leave_again_calls_the_engine env w :
  (client (self w) = None -> leave env w = (Ok tt, w))
  /\ (forall c w1,
        client (self w) = Some c ->
        leave env w = (Ok tt, w1) ->
        client (self w1) = Some c
        /\ localVideoTrack (self w1) = None
        /\ localAudioTrack (self w1) = None
        /\ leave env w1
           = (match raises env (events w1 ++ [ELeave]) with
              | Some e => Throw e
              | None => Ok tt
              end, after w1 [ELeave])).
Proof.
  split.
  - intros H. unfold leave, bind, this; cbn. now rewrite H.
  - intros c w1 Hc E.
    destruct (leave_run env w c Hc) as (o' & E' & Hcl & H).
    rewrite E in E'.
    destruct (snd (run_calls env (events w) (teardown_calls (self w)))); [discriminate|].
    injection E' as ->. cbn [self events].
    destruct H as (_ & Hv & Ha & Hp).
    destruct o' as [cl cfg v a p]. cbn in *. subst.
    repeat split. run_leave. unfold after; cbn.
    destruct (raises env _); reflexivity.
Qed.

(** An audience member leaves twice. *)
Lemma leave_again_calls_the_engine_witness :
  client (self (watching offline)) = Some rtc_vp8
  /\ leave offline (watching offline) = (Ok tt, after (watching offline) [ELeave])
  /\ leave offline (after (watching offline) [ELeave])
     = (Ok tt, after (after (watching offline) [ELeave]) [ELeave]).
Proof.
  split; [reflexivity|]. split; [reflexivity|].
  exact (proj2 (proj2 (proj2
           (proj2 (leave_again_calls_the_engine offline (watching offline))
              rtc_vp8 (after (watching offline) [ELeave]) eq_refl eq_refl)))).
Defined.

(** C3 as worded fails: after a successful [leave()], the second call
    reaches the engine again (a second [ELeave] in the trace), and with an
    engine that rejects a repeated [leave] the second call throws. *)
Lemma second_leave_reaches_the_engine :
  leave offline (watching offline) = (Ok tt, after (watching offline) [ELeave])
  /\ leave offline (after (watching offline) [ELeave])
     = (Ok tt, after (watching offline) [ELeave; ELeave])
  /\ leave leave_once (watching leave_once) = (Ok tt, after (watching leave_once) [ELeave])
  /\ leave leave_once (after (watching leave_once) [ELeave])
     = (Throw engine_error, after (watching leave_once) [ELeave; ELeave]).
Proof. repeat split. Qed.

(** C4 (as amended).  With a client held, [leave()] makes its teardown
    calls in this order: stop and close the local video track, stop and
    close the local audio track, engine [leave].  The whole sequence sits
    in one [try]: the first call that throws ends it, the calls after it
    are not made, and its error is thrown to the caller, whether it comes
    from a track or from the engine.  When no call throws both track
    references are cleared and the publisher flag is reset to false.
    When one throws the publisher flag keeps its value, the video
    reference is cleared exactly when the failure came after the calls
    on the video track, and the audio reference exactly when it came
    after the calls on the audio track, that is from the engine. *)
Theorem leave_runs_teardown_until_first_failure env w c :
  client (self w) = Some c ->
  exists o',
    leave env w
    = (match snd (run_calls env (events w) (teardown_calls (self w))) with
       | Some e => Throw e
       | None => Ok tt
       end,
       {| events := events w ++ fst (run_calls env (events w) (teardown_calls (self w)));
          self := o' |})
    /\ client o' = Some c
    /\ match snd (run_calls env (events w) (teardown_calls (self w))) with
       | None =>
           fst (run_calls env (events w) (teardown_calls (self w)))
           = teardown_calls (self w)
           /\ localVideoTrack o' = None
           /\ localAudioTrack o' = None
           /\ isPublisher o' = false
       | Some _ =>
           let made := List.length (fst (run_calls env (events w) (teardown_calls (self w)))) in
           isPublisher o' = isPublisher (self w)
           /\ localVideoTrack o'
              = (if (List.length (video_teardown (self w)) <? made)%nat then None
                 else localVideoTrack (self w))
           /\ localAudioTrack o'
              = (if (List.length (video_teardown (self w) ++ audio_teardown (self w)) <? made)%nat
                 then None
                 else localAudioTrack (self w))
       end.
Proof. exact (leave_run env w c). Qed.

(** A publisher leaves and every call succeeds. *)
Lemma leave_runs_teardown_until_first_failure_witness :
  client (self (publishing offline)) = Some rtc_vp8
  /\ exists o',
       leave offline (publishing offline)
       = (Ok tt,
          {| events := events (publishing offline)
                       ++ [EStop (Track 10); EClose (Track 10);
                           EStop (Track 9); EClose (Track 9); ELeave];
             self := o' |}).
Proof.
  split; [reflexivity|].
  destruct (leave_runs_teardown_until_first_failure offline (publishing offline)
              rtc_vp8 eq_refl) as (o' & E & _).
  exists o'. exact E.
Defined.

(** C4 as worded fails: when [stop()] on the video track throws, the
    error is not ignored.  [leave()] throws it after that single call;
    the audio track is neither stopped nor closed and the engine's
    [leave] is not called. *)
Lemma leave_video_stop_failure_blocks_the_rest :
  localVideoTrack (self (publishing stop_fails)) = Some (Track 10)
  /\ localAudioTrack (self (publishing stop_fails)) = Some (Track 9)
  /\ leave stop_fails (publishing stop_fails)
     = (Throw engine_error, after (publishing stop_fails) [EStop (Track 10)]).
Proof. repeat split. Qed.


(* ===================================================================== *)
(** ** Joining *)
(* ===================================================================== *)

Lemma is_empty_or_trim s : is_empty s || is_empty (trim s) = is_empty (trim s).
Proof. destruct s; reflexivity. Qed.

(** C5.  When the trimmed [appId] is empty, or else the trimmed channel is
    empty, or else the trimmed [appId] is not 32 hex characters,
    [join(role)] throws the error of that check at once and leaves the
    world untouched: no event is added to the trace (no request of the
    token provider, no engine call) and the object is unchanged. *)
Theorem join_validates_before_any_call env r w :
  let cfg := config (self w) in
  (is_empty (trim (appId cfg)) = true ->
   join env r w = (Throw (new_Error App_ID_required), w))
  /\ (is_empty (trim (appId cfg)) = false ->
      is_empty (trim (channel cfg)) = true ->
      join env r w = (Throw (new_Error Channel_required), w))
  /\ (is_empty (trim (appId cfg)) = false ->
      is_empty (trim (channel cfg)) = false ->
      appIdPattern_test (trim (appId cfg)) = false ->
      join env r w = (Throw (new_Error Invalid_App_ID_format), w)).
Proof.
  intros cfg. unfold join, bind, this; cbn. fold cfg.
  rewrite !is_empty_or_trim.
  repeat split; intros;
    repeat match goal with H : _ = _ |- _ => rewrite H; clear H end; reflexivity.
Qed.

(** A channel name made of blanks. *)
Lemma join_validates_before_any_call_witness :
  is_empty (trim (appId cfg_no_channel)) = false
  /\ is_empty (trim (channel cfg_no_channel)) = true
  /\ join offline audience (fresh cfg_no_channel)
     = (Throw (new_Error Channel_required), fresh cfg_no_channel).
Proof.
  split; [reflexivity|]. split; [reflexivity|].
  exact (proj1 (proj2 (join_validates_before_any_call offline audience
                         (fresh cfg_no_channel))) eq_refl eq_refl).
Defined.

(** [generateToken] only sends requests and does not touch the object. *)
Lemma generateToken_only_fetches env r w :
  exists res l,
    generateToken env r w = (res, after w l) /\ forallb is_fetch l = true.
Proof.
  destruct (nonempty (appCertificate (config (self w)))) eqn:Hn.
  - destruct (appCertificate (config (self w))) as [[|c cert]|] eqn:Hc; try discriminate.
    destruct (generateToken_two_attempts env r w c cert Hc) as (res1 & _ & K).
    destruct res1 as [t|e].
    + rewrite K. eexists; eexists; split; reflexivity.
    + destruct K as (res2 & _ & ->). eexists; eexists; split; reflexivity.
  - rewrite (generateToken_without_certificate env r w Hn). cbn zeta.
    match goal with |- context [agoraGetAppData env ?tc w] =>
      destruct (agoraGetAppData_run env tc w) as (res & -> & _)
    end.
    assert (F : forallb is_fetch
                  (demo_events env (events w) (channel (config (self w)))
                     (uid_or_zero (uid (config (self w))))) = true).
    { unfold demo_events. now destruct (demo_request _ _ _ _). }
    cbn [tc_channel tc_uid].
    destruct res as [t|e]; [destruct (truthy t)|]; eexists; eexists; split;
      try reflexivity; exact F.
Qed.

(** [initClient] touches no field but [client], which it leaves alone or
    sets to a client created with [rtc] and [vp8]. *)
Lemma initClient_self env w :
  exists c,
    self (snd (initClient env w))
    = {| client := c; config := config (self w);
         localVideoTrack := localVideoTrack (self w);
         localAudioTrack := localAudioTrack (self w);
         isPublisher := isPublisher (self w) |}
    /\ (c = client (self w) \/ c = Some rtc_vp8).
Proof.
  destruct w as [h [cl cfg v a p]].
  unfold initClient, setupEventListeners, set_client.
  destruct (window_defined env); cbn; [|eauto].
  run_calls_by_cases env; eauto.
Qed.

Lemma ensure_client_self env w :
  exists c,
    self (snd (ensure_client env w))
    = {| client := c; config := config (self w);
         localVideoTrack := localVideoTrack (self w);
         localAudioTrack := localAudioTrack (self w);
         isPublisher := isPublisher (self w) |}
    /\ (c = client (self w) \/ c = Some rtc_vp8).
Proof.
  unfold ensure_client, bind, this; cbn beta iota.
  destruct (client (self w)) eqn:E.
  - exists (client (self w)). split; [|now left].
    destruct w as [h [cl cfg v a p]]; reflexivity.
  - rewrite <- E. apply initClient_self.
Qed.

Lemma ensure_client_config env w :
  config (self (snd (ensure_client env w))) = config (self w).
Proof. destruct (ensure_client_self env w) as (c & -> & _). reflexivity. Qed.

(** The part of [join] that follows a successful validation. *)
Lemma join_valid env r w :
  valid_config (config (self w)) = true ->
  join env r w =
  match ensure_client env w with
  | (Ok _, w1) =>
      match client (self w1) with
      | None => (Throw (new_Error (lit "Failed to initialize Agora client")), w1)
      | Some _ =>
          match join_try env r w1 with
          | (Ok _, w2) => (Ok tt, w2)
          | (Throw e, w2) => (Throw (new_Error (join_error_message e)), w2)
          end
      end
  | (Throw e, w1) => (Throw e, w1)
  end.
Proof.
  unfold valid_config. intros H.
  apply andb_prop in H as [H H3]. apply andb_prop in H as [H1 H2].
  apply negb_true_iff in H1, H2.
  unfold join. unfold bind at 1. unfold this at 1. cbn beta iota.
  rewrite !is_empty_or_trim, H1, H2, H3. cbn [negb].
  unfold bind at 1. destruct (ensure_client env w) as [[[]|e] w1]; [|reflexivity].
  unfold bind, this. cbn beta iota.
  destruct (client (self w1)); [|reflexivity].
  unfold try_catch, throw.
  destruct (join_try env r w1) as [[[]|e] w2]; reflexivity.
Qed.

Lemma acquire_token_failure env r w1 w2 e :
  nonempty (token (config (self w1))) = false ->
  generateToken env r w1 = (Throw e, w2) ->
  acquire_token env r w1 = (Throw (new_Error Token_generation_failed), w2).
Proof.
  intros Ht Hg. unfold acquire_token, bind, this. cbn beta iota.
  destruct (token (config (self w1))) as [[|c t]|]; try discriminate;
    unfold try_catch; rewrite Hg; reflexivity.
Qed.

(** C6 (as amended).  When the configuration passes validation, a client
    is available, no token was supplied and the token provider fails,
    [join(role)] makes no engine [join] call -- the only events added
    after the client was set up are the requests of the token provider,
    and the object is as it was then -- and it throws to the caller the
    error "Failed to join channel: Token generation failed. Please check
    your App Certificate or server configuration.": the error built for
    the token failure passes through the [catch] block of [join], which
    puts its generic prefix in front of the message. *)
Theorem join_wraps_token_failure env r w w1 w2 e :
  valid_config (config (self w)) = true ->
  nonempty (token (config (self w))) = false ->
  ensure_client env w = (Ok tt, w1) ->
  client (self w1) <> None ->
  generateToken env r w1 = (Throw e, w2) ->
  join env r w = (Throw (new_Error token_failure_message), w2)
  /\ self w2 = self w1
  /\ exists l, events w2 = events w1 ++ l /\ forallb is_fetch l = true.
Proof.
  intros Hv Ht He Hc Hg.
  assert (Hcfg : config (self w1) = config (self w)).
  { rewrite <- (ensure_client_config env w). now rewrite He. }
  rewrite (join_valid env r w Hv), He.
  destruct (client (self w1)) as [c|]; [|congruence].
  rewrite <- Hcfg in Ht.
  unfold join_try. unfold bind at 1. unfold this at 1. cbn beta iota.
  unfold bind at 1. rewrite (acquire_token_failure env r w1 w2 e Ht Hg).
  destruct (generateToken_only_fetches env r w1) as (res & l & E & F).
  rewrite Hg in E. injection E as <- ->.
  split; [reflexivity | split; [reflexivity | exists l; auto]].
Qed.

(** A certificate, no token, and both signing endpoints unreachable. *)
Lemma join_wraps_token_failure_witness :
  valid_config (config (self (fresh cfg_cert))) = true
  /\ nonempty (token (config (self (fresh cfg_cert)))) = false
  /\ join offline audience (fresh cfg_cert)
     = (Throw (new_Error token_failure_message),
        snd (generateToken offline audience (snd (ensure_client offline (fresh cfg_cert))))).
Proof.
  split; [reflexivity|]. split; [reflexivity|].
  refine (proj1 (join_wraps_token_failure offline audience (fresh cfg_cert)
                   (snd (ensure_client offline (fresh cfg_cert))) _ network_error
                   eq_refl eq_refl eq_refl _ eq_refl)).
  discriminate.
Defined.

(** C6 as worded fails: with both signing endpoints unreachable the
    message that reaches the caller of [join] is not exactly "Token
    generation failed. ...": it carries the prefix "Failed to join
    channel: ". *)
Lemma join_token_failure_message_is_prefixed :
  fst (join offline audience (fresh cfg_cert))
  = Throw (new_Error (lit "Failed to join channel: " ++ Token_generation_failed))
  /\ fst (join offline audience (fresh cfg_cert))
     <> Throw (new_Error Token_generation_failed).
Proof. split; [reflexivity|]. vm_compute. discriminate. Qed.

Lemma code_is_true e c : err_code e = Some (lit c) -> code_is e c = true.
Proof. unfold code_is. intros ->. now apply str_eqb_eq. Qed.

Lemma code_is_false e c : err_code e <> Some (lit c) -> code_is e c = false.
Proof.
  unfold code_is. intros H. destruct (err_code e) as [x|]; [|reflexivity].
  destruct (str_eqb x (lit c)) eqn:E; [|reflexivity].
  apply str_eqb_eq in E. congruence.
Qed.

(** C7.  Once validation has passed and a client is available, every
    error thrown inside the [try] block of [join] reaches the caller as
    an [Error] whose message is given by the fixed mapping on its code;
    this is so for an error thrown by the engine's [join].  The mapping
    sends [INVALID_TOKEN] to exactly "Invalid token. Please check your
    token or generate a new one.", the four other known codes to their
    messages, and every other code to "Failed to join channel: " followed
    by the error's message or, when that is missing or empty, its code
    or, when that too is missing or empty, "Unknown error". *)
Theorem join_translates_engine_errors env r w w1 :
  valid_config (config (self w)) = true ->
  ensure_client env w = (Ok tt, w1) ->
  client (self w1) <> None ->
  let cfg := config (self w) in
  (forall e w2,
      join_try env r w1 = (Throw e, w2) ->
      join env r w = (Throw (new_Error (join_error_message e)), w2))
  /\ (forall tok w2 e,
        acquire_token env r w1 = (Ok tok, w2) ->
        raises env (events w2 ++ [EJoin (trim (appId cfg)) (trim (channel cfg)) tok
                                    (uid_or_null (uid cfg))])
        = Some e ->
        join env r w
        = (Throw (new_Error (join_error_message e)),
           after w2 [EJoin (trim (appId cfg)) (trim (channel cfg)) tok
                       (uid_or_null (uid cfg))]))
  /\ (forall e,
        (err_code e = Some (lit "INVALID_TOKEN") ->
         join_error_message e
         = lit "Invalid token. Please check your token or generate a new one.")
        /\ (err_code e = Some (lit "CAN_NOT_GET_GATEWAY_SERVER") ->
            join_error_message e
            = lit "Invalid App ID or network connection issue. Please verify your App ID is correct.")
        /\ (err_code e = Some (lit "TOKEN_EXPIRED") ->
            join_error_message e = lit "Token has expired. Please generate a new token.")
        /\ (err_code e = Some (lit "INVALID_VENDOR_KEY") ->
            join_error_message e
            = lit "Invalid App ID. Please check your App ID from Agora Console.")
        /\ (err_code e = Some (lit "DYNAMIC_KEY_TIMEOUT") ->
            join_error_message e = lit "Token has expired. Please generate a new token.")
        /\ ((forall c, In c recognized_codes -> err_code e <> Some (lit c)) ->
            join_error_message e
            = lit "Failed to join channel: "
              ++ str_or (err_message e) (str_or (err_code e) (lit "Unknown error")))).
Proof.
  intros Hv He Hc cfg.
  assert (Hcfg : config (self w1) = config (self w)).
  { rewrite <- (ensure_client_config env w). now rewrite He. }
  assert (J : forall e w2, join_try env r w1 = (Throw e, w2) ->
              join env r w = (Throw (new_Error (join_error_message e)), w2)).
  { intros e w2 Hj. rewrite (join_valid env r w Hv), He.
    destruct (client (self w1)); [|congruence]. now rewrite Hj. }
  split; [exact J|]. split.
  - intros tok w2 e Ha Hr. apply J.
    unfold join_try. unfold bind at 1. unfold this at 1. cbn beta iota.
    unfold bind at 1. rewrite Ha. rewrite Hcfg. fold cfg.
    rewrite bind_call, Hr. reflexivity.
  - intros e. unfold join_error_message. repeat split.
    + intros H. rewrite (code_is_true _ _ H).
      rewrite code_is_false by (rewrite H; discriminate). reflexivity.
    + intros H. now rewrite (code_is_true _ _ H).
    + intros H. rewrite (code_is_true _ _ H).
      rewrite !code_is_false by (rewrite H; discriminate). reflexivity.
    + intros H. rewrite (code_is_true _ _ H).
      rewrite !code_is_false by (rewrite H; discriminate). reflexivity.
    + intros H. rewrite (code_is_true _ _ H).
      rewrite !code_is_false by (rewrite H; discriminate). reflexivity.
    + intros H. rewrite !code_is_false by (apply H; cbn; tauto). reflexivity.
Qed.

(** The engine rejects the supplied token with [INVALID_TOKEN]. *)
Lemma join_translates_engine_errors_witness :
  valid_config (config (self (fresh cfg_token))) = true
  /\ join token_rejected audience (fresh cfg_token)
     = (Throw (new_Error (lit "Invalid token. Please check your token or generate a new one.")),
        after (snd (ensure_client token_rejected (fresh cfg_token)))
          [EJoin hex32 (lit "room") (VStr (lit "007" ++ repeat 120%N 60)) None]).
Proof.
  split; [reflexivity|].
  refine (proj1 (proj2 (join_translates_engine_errors token_rejected audience
                          (fresh cfg_token)
                          (snd (ensure_client token_rejected (fresh cfg_token)))
                          eq_refl eq_refl _))
            (VStr (lit "007" ++ repeat 120%N 60))
            (snd (ensure_client token_rejected (fresh cfg_token)))
            invalid_token_error eq_refl eq_refl).
  discriminate.
Defined.


(* ===================================================================== *)
(** ** The token endpoint and the credential validator *)
(* ===================================================================== *)


(* ===================================================================== *)
(** ** Numbers *)
(* ===================================================================== *)

Section Numbers.

Local Open Scope Z_scope.

Lemma log2_ratio_one p : (0 < p)%Z -> log2_ratio p 1 = Z.log2 p.
Proof.
  intros H. unfold log2_ratio. change (Z.log2 1) with 0%Z. rewrite Z.sub_0_r.
  assert (L := Z.log2_nonneg p). destruct (Z.leb_spec 0 (Z.log2 p)); [|lia].
  destruct (Z.log2_spec p H) as [A _].
  destruct (Z.leb_spec (1 * 2 ^ Z.log2 p) p); [reflexivity|lia].
Qed.

Lemma nearest_even_one n : nearest_even n 1 = n.
Proof.
  unfold nearest_even. rewrite Z.div_1_r, Z.mod_1_r. reflexivity.
Qed.







Lemma number_eqb_eq x y : number_eqb x y = true -> x = y.
Proof.
  destruct x as [|a|a|a m e], y as [|b|b|b m' e']; cbn; try discriminate; try reflexivity.
  - intros H. apply Bool.eqb_prop in H. now subst.
  - intros H. apply Bool.eqb_prop in H. now subst.
  - intros H. apply andb_prop in H as [H E]. apply andb_prop in H as [S M].
    apply Bool.eqb_prop in S. apply Pos.eqb_eq in M. apply Z.eqb_eq in E. now subst.
Qed.

Lemma number_eqb_refl x : number_eqb x x = true.
Proof.
  destruct x as [|a|a|a m e]; cbn; rewrite ?Bool.eqb_reflx, ?Pos.eqb_refl, ?Z.eqb_refl;
    reflexivity.
Qed.

(** A positive integer below [2^53] is a number. *)
Lemma round_ratio_small neg n :
  0 < n < 2 ^ 53 ->
  exists m e,
    round_ratio neg n 1 = Finite neg m e
    /\ e <= 0 /\ Zpos m = n * 2 ^ (- e).
Proof.
  intros [P B]. unfold round_ratio. cbv zeta. rewrite log2_ratio_one by exact P.
  assert (L : Z.log2 n <= 52).
  { destruct (Z.le_gt_cases (Z.log2 n) 52); [assumption|].
    destruct (Z.log2_spec n P) as [A _].
    assert (2 ^ 53 <= 2 ^ Z.log2 n) by (apply Z.pow_le_mono_r; lia). lia. }
  set (e := Z.max (Z.log2 n - 52) (-1074)).
  assert (E : e <= 0) by lia.
  assert (Q : 0 < 2 ^ (- e)) by (apply Z.pow_pos_nonneg; lia).
  assert (M : n * 2 ^ (- e) < 2 ^ 53).
  { destruct (Z.log2_spec n P) as [_ A].
    assert (2 ^ (- e) <= 2 ^ (52 - Z.log2 n)) by (apply Z.pow_le_mono_r; lia).
    assert (2 ^ Z.succ (Z.log2 n) * 2 ^ (52 - Z.log2 n) = 2 ^ 53).
    { rewrite <- Z.pow_add_r by (pose proof (Z.log2_nonneg n); lia).
      f_equal. lia. }
    nia. }
  assert (R : (if 0 <=? e then pack neg (nearest_even n (1 * 2 ^ e)) e
               else pack neg (nearest_even (n * 2 ^ (- e)) 1) e)
              = pack neg (n * 2 ^ (- e)) e).
  { destruct (Z.leb_spec 0 e).
    - assert (e = 0) by lia. replace e with 0 by lia. cbn [Z.opp Z.pow Z.mul Z.pow_pos Pos.iter Pos.mul].
      rewrite nearest_even_one. f_equal. lia.
    - now rewrite nearest_even_one. }
  rewrite R. unfold pack. cbv zeta.
  destruct (Z.eqb_spec (n * 2 ^ (- e)) (2 ^ 53)); [lia|].
  destruct (Z.ltb_spec 971 e); [lia|].
  destruct (n * 2 ^ (- e)) as [|m|m] eqn:K; try lia.
  exists m, e. repeat split; [exact E|]. symmetry; exact K.
Qed.

Lemma first_lt_spec fuel : forall j J xn xd,
  j <= J <= j + Z.of_nat fuel -> xn < xd * 10 ^ J ->
  j <= first_lt fuel j xn xd <= J
  /\ xn < xd * 10 ^ first_lt fuel j xn xd
  /\ (first_lt fuel j xn xd = j \/ xd * 10 ^ (first_lt fuel j xn xd - 1) <= xn).
Proof.
  induction fuel as [|fuel IH]; intros j J xn xd B H; cbn [first_lt].
  - assert (J = j) by lia. subst. repeat split; lia.
  - destruct (Z.ltb_spec xn (xd * 10 ^ j)) as [A|A].
    + repeat split; lia.
    + assert (J <> j) by (intros ->; lia).
      destruct (IH (j + 1) J xn xd) as (B' & H' & D); [lia|exact H|].
      repeat split; try lia.
      right. destruct D as [->|D]; [|exact D].
      now replace (j + 1 - 1) with j by lia.
Qed.

(** The decimal exponent of an integer below [10^16]. *)
Lemma decimal_exponent_integer n xd :
  0 < xd -> 0 < n < 10 ^ 16 ->
  let D := decimal_exponent (n * xd) xd in
  1 <= D <= 16 /\ 10 ^ (D - 1) <= n < 10 ^ D.
Proof.
  intros Q [P B]. unfold decimal_exponent.
  destruct (Z.leb_spec xd (n * xd)) as [_|A]; [|nia].
  destruct (first_lt_spec 310 1 16 (n * xd) xd) as (R & U & L); [lia|nia|].
  cbv zeta. set (D := first_lt 310 1 (n * xd) xd) in *.
  split; [lia|]. split.
  - destruct L as [->|L]; [cbn; lia|].
    assert (0 < 10 ^ (D - 1)) by (apply Z.pow_pos_nonneg; lia). nia.
  - assert (0 < 10 ^ D) by (apply Z.pow_pos_nonneg; lia). nia.
Qed.

Lemma with_digits_sound x k n0 c :
  1 <= k <= n0 -> 0 < c ->
  reads_back x c (n0 - k) = true ->
  0 < fst (with_digits k n0 c)
  /\ k <= snd (with_digits k n0 c) <= n0 + 1
  /\ round_ratio false (fst (with_digits k n0 c) * 10 ^ (snd (with_digits k n0 c) - k)) 1 = x.
Proof.
  intros K C R. unfold reads_back in R. apply number_eqb_eq in R.
  unfold round_dec in R. destruct (Z.leb_spec 0 (n0 - k)); [|lia].
  unfold with_digits. destruct (Z.eqb_spec c (10 ^ k)) as [->|N]; cbn [fst snd].
  - split; [apply Z.pow_pos_nonneg; lia|]. split; [lia|].
    rewrite <- R. f_equal. rewrite <- !Z.pow_add_r by lia. f_equal. lia.
  - split; [exact C|]. split; [lia|]. exact R.
Qed.

Lemma scaled_floor_nonneg xn xd ex : 0 <= xn -> 0 < xd -> 0 <= scaled_floor xn xd ex.
Proof.
  intros A B. unfold scaled_floor. destruct (Z.leb_spec 0 ex).
  - apply Z.div_pos; [exact A|].
    assert (0 < 10 ^ ex) by (apply Z.pow_pos_nonneg; lia). nia.
  - apply Z.div_pos; [|exact B].
    assert (0 < 10 ^ (- ex)) by (apply Z.pow_pos_nonneg; lia). nia.
Qed.

(** A decimal that [nearest_decimal] picks for an integer is an integer
    that is read back as the number. *)
Lemma nearest_decimal_sound x xn xd D k s nn :
  0 <= xn -> 0 < xd -> 1 <= k <= D ->
  nearest_decimal x xn xd D k = Some (s, nn) ->
  0 < s /\ k <= nn <= D + 1 /\ round_ratio false (s * 10 ^ (nn - k)) 1 = x.
Proof.
  intros A B K. unfold nearest_decimal. cbv zeta.
  assert (L := scaled_floor_nonneg xn xd (D - k) A B).
  set (lo := scaled_floor xn xd (D - k)) in *.
  assert (P : 0 < 10 ^ (k - 1)) by (apply Z.pow_pos_nonneg; lia).
  destruct (Z.leb_spec (10 ^ (k - 1)) lo) as [G|G]; cbn [andb].
  - destruct (reads_back x lo (D - k)) eqn:R1; cbn [andb].
    + destruct (reads_back x (lo + 1) (D - k)) eqn:R2.
      * destruct (nearer_low xn xd lo (D - k)); intros [= E];
          [destruct (with_digits_sound x k D lo) as (S1 & S2 & S3)
          |destruct (with_digits_sound x k D (lo + 1)) as (S1 & S2 & S3)];
          try assumption; try lia; rewrite E in *; cbn [fst snd] in *; auto.
      * intros [= E]. destruct (with_digits_sound x k D lo) as (S1 & S2 & S3);
          try assumption; try lia. rewrite E in *; cbn [fst snd] in *; auto.
    + destruct (reads_back x (lo + 1) (D - k)) eqn:R2; [|discriminate].
      intros [= E]. destruct (with_digits_sound x k D (lo + 1)) as (S1 & S2 & S3);
        try assumption; try lia. rewrite E in *; cbn [fst snd] in *; auto.
  - destruct (reads_back x (lo + 1) (D - k)) eqn:R2; [|discriminate].
    intros [= E]. destruct (with_digits_sound x k D (lo + 1)) as (S1 & S2 & S3);
      try assumption; try lia. rewrite E in *; cbn [fst snd] in *; auto.
Qed.

(** With all its digits, an integer is a decimal that is read back. *)
Lemma nearest_decimal_exact x n xd D :
  0 < xd -> 10 ^ (D - 1) <= n ->
  round_ratio false n 1 = x ->
  nearest_decimal x (n * xd) xd D D <> None.
Proof.
  intros B G R. unfold nearest_decimal. cbv zeta. rewrite Z.sub_diag.
  assert (E : scaled_floor (n * xd) xd 0 = n).
  { unfold scaled_floor. cbn. rewrite Z.mul_1_r. apply Z.div_mul. lia. }
  rewrite E.
  assert (T : reads_back x n 0 = true).
  { unfold reads_back, round_dec. cbn. rewrite Z.mul_1_r, R. apply number_eqb_refl. }
  rewrite T. destruct (Z.leb_spec (10 ^ (D - 1)) n); [|lia]. cbn [andb].
  destruct (reads_back x (n + 1) 0); discriminate.
Qed.

(** The search stops at the first number of digits that has a decimal. *)
Lemma shortest_finds fuel : forall x xn xd n0 k K,
  k <= K <= k + Z.of_nat fuel ->
  nearest_decimal x xn xd n0 K <> None ->
  exists s k' nn,
    shortest fuel x xn xd n0 k = (s, k', nn)
    /\ k <= k' <= K
    /\ nearest_decimal x xn xd n0 k' = Some (s, nn).
Proof.
  induction fuel as [|fuel IH]; intros x xn xd n0 k K B H; cbn [shortest].
  - assert (K = k) by lia. subst.
    destruct (nearest_decimal x xn xd n0 k) as [[s nn]|] eqn:E; [|congruence].
    exists s, k, nn. repeat split; try lia. exact E.
  - destruct (nearest_decimal x xn xd n0 k) as [[s nn]|] eqn:E.
    + exists s, k, nn. repeat split; try lia. exact E.
    + assert (K <> k) by (intros ->; congruence).
      destruct (IH x xn xd n0 (k + 1) K) as (s & k' & nn & S1 & S2 & S3); [lia|exact H|].
      exists s, k', nn. repeat split; try lia; assumption.
Qed.

Lemma pack_opp m e : pack true m e = opp (pack false m e).
Proof.
  unfold pack. cbv zeta.
  destruct (971 <? _); [reflexivity|]. now destruct (if m =? 2 ^ 53 then _ else _).
Qed.

Lemma round_ratio_opp p q : round_ratio true p q = opp (round_ratio false p q).
Proof.
  unfold round_ratio. cbv zeta. destruct (0 <=? _); apply pack_opp.
Qed.

(** *** Decimal digits, written and read *)


Ltac compare_N :=
  repeat (match goal with
          | |- context [(?a <=? ?b)%N] => destruct (N.leb_spec a b)
          | |- context [(?a =? ?b)%N] => destruct (N.eqb_spec a b)
          end; try lia);
  try reflexivity.

Lemma digit_not_whitespace c : is_digit c = true -> is_whitespace c = false.
Proof.
  unfold is_digit. intros H. apply andb_prop in H as [A B].
  apply N.leb_le in A. apply N.leb_le in B.
  unfold is_whitespace. compare_N.
Qed.

Lemma digit_value_digit c :
  is_digit c = true -> digit_value c = Some (Z.of_N (c - 48)) /\ (Z.of_N (c - 48) < 10)%Z.
Proof.
  unfold is_digit, digit_value. intros H. rewrite H. split; [reflexivity|].
  apply andb_prop in H as [A B]. apply N.leb_le in A. apply N.leb_le in B. lia.
Qed.

Lemma string_of_uint_digits d : forallb is_digit (lit (NilEmpty.string_of_uint d)) = true.
Proof. induction d; cbn; try reflexivity; exact IHd. Qed.

Lemma digits_app_uint d : forall acc rest,
  digits 10 (Some acc) (lit (NilEmpty.string_of_uint d) ++ rest)
  = digits 10 (Some (uint_value acc d)) rest.
Proof.
  induction d; intros acc rest; try reflexivity;
    (etransitivity; [|apply IHd]); reflexivity.
Qed.

Lemma digits_zeros j : forall acc,
  digits 10 (Some acc) (repeat 48%N j) = Some (acc * 10 ^ Z.of_nat j).
Proof.
  induction j as [|j IH]; intros acc.
  - cbn. f_equal. lia.
  - cbn [repeat]. change (digits 10 (Some acc) (48%N :: repeat 48%N j))
      with (digits 10 (Some (acc * 10 + 0)) (repeat 48%N j)).
    rewrite IH. f_equal. rewrite Nat2Z.inj_succ, Z.pow_succ_r by lia. lia.
Qed.

Lemma digits_app_uint_first d rest :
  d <> Decimal.Nil ->
  digits 10 None (lit (NilEmpty.string_of_uint d) ++ rest)
  = digits 10 (Some (uint_value 0 d)) rest.
Proof.
  intros N. destruct d; [congruence|..]; apply (digits_app_uint d _ rest).
Qed.


(** [parseInt] on a string of decimal digits, with or without a minus
    sign in front. *)
Lemma parseInt_of_digits str :
  str <> [] -> forallb is_digit str = true ->
  parseInt str = read false (digits 10 None str)
  /\ parseInt (45%N :: str) = read true (digits 10 None str).
Proof.
  intros N F. destruct str as [|c rest]; [congruence|].
  cbn [forallb] in F. apply andb_prop in F as [C R].
  assert (W := digit_not_whitespace c C).
  assert (c <> 45 /\ c <> 43 /\ 48 <= c)%N as (N1 & N2 & N3).
  { unfold is_digit in C. apply andb_prop in C as [A B]. apply N.leb_le in A. lia. }
  assert (S : forall b r, rest = b :: r ->
              ((c =? 48) && ((b =? 120) || (b =? 88)))%N = false).
  { intros b r ->. cbn [forallb] in R. apply andb_prop in R as [B _].
    unfold is_digit in B. apply andb_prop in B as [B1 B2].
    apply N.leb_le in B1. apply N.leb_le in B2.
    destruct (N.eqb_spec b 120); [lia|]. destruct (N.eqb_spec b 88); [lia|].
    now rewrite andb_false_r. }
  split.
  - unfold parseInt. cbn [trimStart]. rewrite W.
    destruct (N.eqb_spec c 45); [congruence|]. destruct (N.eqb_spec c 43); [congruence|].
    cbv beta iota. destruct rest as [|b r]; [reflexivity|].
    rewrite (S b r eq_refl). reflexivity.
  - unfold parseInt. cbn [trimStart]. change (is_whitespace 45) with false. cbv iota.
    change (45 =? 45)%N with true. cbv beta iota. destruct rest as [|b r]; [reflexivity|].
    rewrite (S b r eq_refl). reflexivity.
Qed.

Lemma uint_value_of_lu d : forall d',
  Z.of_N (DecimalPos.Unsigned.of_lu (Decimal.revapp d d'))
  = uint_value (Z.of_N (DecimalPos.Unsigned.of_lu d')) d.
Proof.
  induction d; intros d'; cbn [Decimal.revapp uint_value]; try reflexivity;
    rewrite IHd; f_equal; cbn [DecimalPos.Unsigned.of_lu]; lia.
Qed.

Lemma uint_value_to_uint p : uint_value 0 (Pos.to_uint p) = Zpos p.
Proof.
  change 0%Z with (Z.of_N (DecimalPos.Unsigned.of_lu Decimal.Nil)).
  rewrite <- uint_value_of_lu. fold (Decimal.rev (Pos.to_uint p)).
  rewrite <- DecimalPos.Unsigned.of_uint_alt, DecimalPos.Unsigned.of_to. reflexivity.
Qed.

Lemma digits_of_pos p : digits_of (Zpos p) = lit (NilEmpty.string_of_uint (Pos.to_uint p)).
Proof.
  unfold digits_of. cbn [Z.to_N N.to_uint].
  assert (N := DecimalPos.Unsigned.to_uint_nonnil p).
  destruct (Pos.to_uint p); [congruence|..]; reflexivity.
Qed.

(** The digits of a positive integer followed by zeros are read back as
    the number nearest to the integer they denote. *)
Lemma parseInt_digits_of s j :
  0 < s -> 0 <= j ->
  digits_of s ++ zeros j <> []
  /\ parseInt (digits_of s ++ zeros j) = round_ratio false (s * 10 ^ j) 1
  /\ parseInt (45%N :: digits_of s ++ zeros j) = round_ratio true (s * 10 ^ j) 1.
Proof.
  intros S J. destruct s as [|p|p]; try lia. rewrite digits_of_pos.
  assert (N := DecimalPos.Unsigned.to_uint_nonnil p).
  assert (NE : lit (NilEmpty.string_of_uint (Pos.to_uint p)) ++ zeros j <> []).
  { destruct (Pos.to_uint p); [congruence|..]; discriminate. }
  split; [exact NE|].
  assert (F : forallb is_digit (lit (NilEmpty.string_of_uint (Pos.to_uint p)) ++ zeros j) = true).
  { rewrite forallb_app, string_of_uint_digits. cbn [andb].
    unfold zeros. induction (Z.to_nat j); [reflexivity|exact IHn]. }
  destruct (parseInt_of_digits _ NE F) as [P1 P2]. rewrite P1, P2.
  rewrite digits_app_uint_first by exact N. unfold zeros. rewrite digits_zeros.
  rewrite uint_value_to_uint, Z2Nat.id by exact J.
  assert (0 < 10 ^ j) by (apply Z.pow_pos_nonneg; lia).
  destruct (Zpos p * 10 ^ j) eqn:E; try lia. split; reflexivity.
Qed.

Lemma notation_integer s k n :
  k <= n <= 21 -> notation s k n = digits_of s ++ zeros (n - k).
Proof.
  intros [A B]. unfold notation. cbv zeta.
  destruct (Z.leb_spec k n); [|lia]. destruct (Z.leb_spec n 21); [|lia]. reflexivity.
Qed.

(** The text of a positive integer below [2^53], with or without a
    minus sign, is read back as that number. *)
Lemma parseInt_num_toString_small n :
  0 < n < 2 ^ 53 ->
  num_toString (round_ratio false n 1) <> []
  /\ parseInt (num_toString (round_ratio false n 1)) = round_ratio false n 1
  /\ parseInt (num_toString (round_ratio true n 1)) = round_ratio true n 1.
Proof.
  intros B. rewrite round_ratio_opp.
  destruct (round_ratio_small false n B) as (m & e & R & E & M). rewrite R.
  cbn [opp negb num_toString].
  set (xd := if 0 <=? e then 1 else 2 ^ (- e)).
  assert (Q : 0 < xd).
  { unfold xd. destruct (0 <=? e); [lia|]. apply Z.pow_pos_nonneg; lia. }
  assert (X : (if 0 <=? e then Zpos m * 2 ^ e else Zpos m) = n * xd).
  { unfold xd. destruct (Z.leb_spec 0 e).
    - assert (e = 0) by lia. subst e. cbn in M. cbn. lia.
    - exact M. }
  rewrite X.
  assert (B16 : 0 < n < 10 ^ 16) by (cbn in *; lia).
  destruct (decimal_exponent_integer n xd Q B16) as (D1 & D2).
  set (D := decimal_exponent (n * xd) xd) in *.
  destruct (shortest_finds 16 (Finite false m e) (n * xd) xd D 1 D) as (s & k & nn & S1 & S2 & S3).
  { cbn. lia. }
  { apply nearest_decimal_exact; [exact Q|lia|exact R]. }
  rewrite S1.
  assert (XN : 0 <= n * xd) by nia.
  assert (KD : 1 <= k <= D) by lia.
  destruct (nearest_decimal_sound _ _ _ _ _ _ _ XN Q KD S3) as (P1 & P2 & P3).
  rewrite notation_integer by lia.
  assert (J : 0 <= nn - k) by lia.
  destruct (parseInt_digits_of s (nn - k) P1 J) as (NE & A1 & A2).
  change (lit "-") with [45%N]. cbn [app].
  rewrite A1, A2, round_ratio_opp, P3. repeat split. exact NE.
Qed.

(** A safe integer, sent as text, is read back as the same number. *)
Lemma parseInt_num_toString n :
  safe_integer n ->
  num_toString (of_Z n) <> [] /\ parseInt (num_toString (of_Z n)) = of_Z n.
Proof.
  unfold safe_integer. intros S. destruct n as [|p|p].
  - split; [discriminate|reflexivity].
  - destruct (parseInt_num_toString_small (Zpos p)) as (A & B & _); [cbn in *; lia|].
    split; assumption.
  - destruct (parseInt_num_toString_small (Zpos p)) as (_ & _ & C); [cbn in *; lia|].
    split; [|exact C]. cbn [of_Z]. intros E. rewrite E in C.
    destruct (round_ratio_small true (Zpos p)) as (m & e & R & _); [cbn in *; lia|].
    rewrite R in C. discriminate C.
Qed.

End Numbers.


(* ===================================================================== *)
(** ** The token endpoint and the credential validator *)
(* ===================================================================== *)

(** [POST] on a body that can be destructured. *)
Lemma POST_token_response sign te now body :
  body <> VNull -> body <> VUndefined ->
  POST sign te now (Ok body) = token_response sign te now body.
Proof. intros N U. destruct body; try reflexivity; contradiction. Qed.




(** C9.  [validateAgoraToken] answers true exactly for the strings that
    begin with "006" or "007" and have more than 50 code units; so it
    answers false for every other value, and true for "007" followed by
    sixty "x". *)
Theorem validateAgoraToken_iff tok :
  (validateAgoraToken tok = true <->
   exists s, tok = VStr s
             /\ (starts_with (lit "006") s \/ starts_with (lit "007") s)
             /\ (50 < str_length s)%Z)
  /\ validateAgoraToken (VStr (lit "007" ++ repeat 120%N 60)) = true.
Proof.
  split; [|reflexivity]. split.
  - destruct tok as [| |b|n|s|l|l]; try discriminate. cbn.
    intros H. exists s. split; [reflexivity|].
    destruct s as [|a [|b [|c s]]]; try discriminate. cbn in H.
    destruct (((a =? 48) && (b =? 48) && ((c =? 54) || (c =? 55)))%N) eqn:E;
      [|discriminate].
    cbn in H. apply Z.ltb_lt in H. split; [|exact H].
    apply andb_prop in E as [E E3]. apply andb_prop in E as [E1 E2].
    apply N.eqb_eq in E1, E2. subst a b.
    apply orb_prop in E3 as [E3|E3]; apply N.eqb_eq in E3; subst c;
      [left|right]; exists s; reflexivity.
  - intros (s & -> & Hp & Hl). cbn.
    assert (V : versionPattern_test s = true).
    { destruct Hp as [[rest ->]|[rest ->]]; reflexivity. }
    assert (N : s <> []).
    { destruct Hp as [[rest ->]|[rest ->]]; discriminate. }
    destruct s as [|a s]; [congruence|]. rewrite V. cbn [negb].
    now apply Z.ltb_lt.
Qed.

(** A string of 50 code units that begins with "007" is refused. *)
Lemma validateAgoraToken_iff_witness :
  validateAgoraToken (VStr (lit "007" ++ repeat 120%N 47)) = false
  /\ ~ (exists s, VStr (lit "007" ++ repeat 120%N 47) = VStr s
                  /\ (starts_with (lit "006") s \/ starts_with (lit "007") s)
                  /\ (50 < str_length s)%Z).
Proof.
  split; [reflexivity|].
  intros H.
  apply (proj2 (proj1 (validateAgoraToken_iff (VStr (lit "007" ++ repeat 120%N 47))))) in H.
  discriminate H.
Defined.


(* ===================================================================== *)
(** ** Client creation *)
(* ===================================================================== *)

(** C10.  Whatever configuration an [AgoraClient] was constructed with,
    [initClient] creates the RTC client with mode [rtc] and codec [vp8]:
    every [createClient] call it makes carries these two options, the
    client it stores (if any) was created with them, and the stored
    configuration still holds what the caller supplied.  A client is
    stored exactly when [window] is defined and neither the import of
    the SDK nor [createClient] throws. *)
Theorem client_is_created_rtc_vp8 env cfg h :
  let w := {| events := h; self := new_AgoraClient cfg |} in
  let w' := snd (initClient env w) in
  (client (self w') = None \/ client (self w') = Some rtc_vp8)
  /\ config (self w') = with_defaults cfg
  /\ (exists l, events w' = h ++ l
                /\ forall m c, In (ECreateClient m c) l -> m = rtc /\ c = vp8)
  /\ (if window_defined env then
        match raises env (h ++ [EImportSdk]),
              raises env (h ++ [EImportSdk; ECreateClient rtc vp8]) with
        | None, None => client (self w') = Some rtc_vp8
        | _, _ => client (self w') = None
        end
      else client (self w') = None).
Proof.
  intros w w'. unfold w', w.
  unfold initClient, setupEventListeners, set_client.
  destruct (window_defined env); cbn.
  2:{ repeat split; auto. exists []. rewrite app_nil_r. split; [reflexivity|].
      intros m c []. }
  unfold call, bind, emit, history, this, set_this, ret, throw; cbn.
  assert (A : (h ++ [EImportSdk]) ++ [ECreateClient rtc vp8]
              = h ++ [EImportSdk; ECreateClient rtc vp8])
    by now rewrite <- app_assoc.
  destruct (raises env (h ++ [EImportSdk])); cbn; rewrite ?A;
  repeat match goal with
         | |- context [raises env ?l] => destruct (raises env l); cbn
         end;
    rewrite <- ?app_assoc; cbn [app];
    (split; [auto|]; split; [reflexivity|]; split; [|reflexivity]);
    (eexists; split; [reflexivity|]);
    intros m c Hin; cbn in Hin;
    repeat (destruct Hin as [Hin|Hin]; [try discriminate; injection Hin as <- <-; auto|]);
    destruct Hin.
Qed.

(** A configuration that asks for [live] and [h264] gets [rtc] and [vp8]. *)
Lemma client_is_created_rtc_vp8_witness :
  mode (with_defaults cfg_token) = Present live
  /\ codec (with_defaults cfg_token) = Present h264
  /\ client (self (snd (initClient offline (fresh cfg_token)))) = Some rtc_vp8.
Proof.
  split; [reflexivity|]. split; [reflexivity|].
  exact (proj2 (proj2 (proj2 (client_is_created_rtc_vp8 offline cfg_token [])))).
Defined.


(* ===================================================================== *)
(** ** Further properties: identifiers and stored credentials *)
(* ===================================================================== *)

Lemma hex_digit_lower r : (0 <= r < 16)%Z -> lower_hex (hex_digit r) = true.
Proof.
  intros H. unfold hex_digit, lower_hex.
  destruct (Z.ltb_spec r 10).
  - apply orb_true_iff. left. apply andb_true_iff. split; apply N.leb_le; lia.
  - apply orb_true_iff. right. apply andb_true_iff. split; apply N.leb_le; lia.
Qed.

Lemma hex_digit_variant r :
  (0 <= r < 16)%Z ->
  In (hex_digit (Z.lor (Z.land r 3) 8)) [56; 57; 97; 98]%N.
Proof.
  intros H.
  assert (C : (r = 0 \/ r = 1 \/ r = 2 \/ r = 3 \/ r = 4 \/ r = 5 \/ r = 6 \/ r = 7
              \/ r = 8 \/ r = 9 \/ r = 10 \/ r = 11 \/ r = 12 \/ r = 13 \/ r = 14
              \/ r = 15)%Z) by lia.
  repeat destruct C as [C|C]; subst r; cbn; tauto.
Qed.

Lemma replace_xy_length draw k t : List.length (replace_xy draw k t) = List.length t.
Proof.
  revert k. induction t as [|c t IH]; intros k; cbn; [reflexivity|].
  destruct (c =? 120)%N; [|destruct (c =? 121)%N]; cbn; now rewrite IH.
Qed.

(** What [replace_xy] puts at each position of the template. *)
Lemma replace_xy_nth draw t : forall k i,
  (i < List.length t)%nat ->
  let c := nth i t 0%N in
  let c' := nth i (replace_xy draw k t) 0%N in
  (c = 120%N -> lower_hex c' = true)
  /\ (c = 121%N -> In c' [56; 57; 97; 98]%N)
  /\ (c <> 120%N -> c <> 121%N -> c' = c).
Proof.
  induction t as [|c t IH]; intros k i Hi; [cbn in Hi; lia|].
  assert (R : (0 <= draw k mod 16 < 16)%Z) by (apply Z.mod_pos_bound; lia).
  cbn [replace_xy].
  destruct i as [|i].
  - cbn [nth].
    destruct (N.eqb_spec c 120); [|destruct (N.eqb_spec c 121)]; cbn [nth];
      repeat split; intros; try congruence; try lia.
    + now apply hex_digit_lower.
    + now apply hex_digit_variant.
  - cbn in Hi. apply PeanoNat.lt_S_n in Hi.
    destruct (c =? 120)%N; [|destruct (c =? 121)%N]; cbn [nth]; now apply IH.
Qed.

(** X1.  Whatever [Math.random] draws, [generateUUID] returns a string
    of 36 characters in the layout of a version 4 UUID: a hyphen at
    positions 8, 13, 18 and 23, the digit 4 at position 14, one of 8, 9,
    a, b at position 19, and a lower-case hex digit everywhere else.  It
    makes no call. *)
Theorem generateUUID_is_version_4 env w :
  exists u,
    generateUUID env w = (Ok u, w)
    /\ List.length u = 36%nat
    /\ (forall i, In i [8; 13; 18; 23]%nat -> nth i u 0%N = 45%N)
    /\ nth 14 u 0%N = 52%N
    /\ In (nth 19 u 0%N) [56; 57; 97; 98]%N
    /\ (forall i, (i < 36)%nat -> ~ In i [8; 13; 14; 18; 19; 23]%nat ->
                  lower_hex (nth i u 0%N) = true).
Proof.
  eexists. split; [reflexivity|].
  set (d := Math_random16 env (events w)).
  assert (L : List.length uuid_template = 36%nat) by reflexivity.
  split; [now rewrite replace_xy_length|].
  assert (P := fun i (H : (i < 36)%nat) =>
                 replace_xy_nth d uuid_template 0 i (eq_ind_r (fun n => (i < n)%nat) H L)).
  cbn zeta in P.
  split; [|split; [|split]].
  - intros i Hi. cbn in Hi.
    destruct Hi as [<-|[<-|[<-|[<-|[]]]]];
      (refine (proj2 (proj2 (P _ _)) _ _); [lia | discriminate | discriminate]).
  - refine (proj2 (proj2 (P 14%nat _)) _ _); [lia | discriminate | discriminate].
  - refine (proj1 (proj2 (P 19%nat _)) _); [lia | reflexivity].
  - intros i Hi Hn.
    refine (proj1 (P i Hi) _).
    cbn in Hn.
    do 36 (destruct i as [|i]; [try reflexivity; exfalso; apply Hn; tauto|]).
    lia.
Qed.

(** X2.  In a browser, credentials that were saved with a non-empty App
    ID and a non-empty certificate are the ones that are loaded back,
    whatever was stored or configured before. *)
Theorem credentials_round_trip env app c cert :
  window_defined env = true ->
  app <> [] ->
  loadAgoraCredentials (saveAgoraCredentials env app (Some (c :: cert)))
  = (app, c :: cert).
Proof.
  intros Hw Ha. unfold loadAgoraCredentials, saveAgoraCredentials, getOptionsFromLocal.
  rewrite Hw. cbn. rewrite Hw. cbn.
  destruct app; [congruence|]. reflexivity.
Qed.

Lemma credentials_round_trip_witness :
  window_defined offline = true
  /\ loadAgoraCredentials (saveAgoraCredentials offline hex32 (Some (lit "secret")))
     = (hex32, lit "secret").
Proof.
  split; [reflexivity|].
  apply (credentials_round_trip offline hex32 115%N (lit "ecret")); [reflexivity | discriminate].
Defined.

(** X3.  Saving without a certificate (missing or empty) never changes
    the certificate that is loaded afterwards.  Without [window] saving
    changes nothing at all; in a browser the App ID loaded afterwards is
    the saved one, or the configured default when the saved one is
    empty. *)
Theorem credentials_saved_without_certificate env app cert :
  nonempty cert = false ->
  snd (loadAgoraCredentials (saveAgoraCredentials env app cert))
  = snd (loadAgoraCredentials env)
  /\ (window_defined env = false ->
      loadAgoraCredentials (saveAgoraCredentials env app cert)
      = loadAgoraCredentials env)
  /\ (window_defined env = true ->
      fst (loadAgoraCredentials (saveAgoraCredentials env app cert))
      = str_or (Some app) (str_or (process_env env (lit "NEXT_PUBLIC_AGORA_APP_ID")) [])).
Proof.
  intros Hc. unfold loadAgoraCredentials, saveAgoraCredentials, getOptionsFromLocal.
  destruct (window_defined env) eqn:Hw; cbn; rewrite ?Hw; cbn.
  - destruct cert as [[|c t]|]; try discriminate; cbn; repeat split; auto; discriminate.
  - repeat split; auto; try discriminate.
Qed.

Lemma credentials_saved_without_certificate_witness :
  snd (loadAgoraCredentials
         (saveAgoraCredentials
            (saveAgoraCredentials offline hex32 (Some (lit "secret")))
            (lit "other") None))
  = lit "secret".
Proof.
  exact (proj1 (credentials_saved_without_certificate
                  (saveAgoraCredentials offline hex32 (Some (lit "secret")))
                  (lit "other") None eq_refl)).
Defined.


(* ===================================================================== *)
(** ** Further properties: the uid on the wire, the two handlers *)
(* ===================================================================== *)

(** X4.  A numeric uid survives the query string when it is a safe
    integer (of magnitude at most [2^53 - 1], zero and negative numbers
    included): the text that [uid.toString()] puts in the query of
    [generateTokenFromServer] is not empty and is read back by the
    [parseInt] of the endpoint as the same number.  Other numbers need
    not survive: 1e21 is written "1e+21" and read back as 1, and 1.5 is
    read back as 1. *)
Theorem parseInt_reads_back_toString :
  (forall n, safe_integer n ->
     uid_toString (UidNum (of_Z n)) <> []
     /\ parseInt (uid_toString (UidNum (of_Z n))) = of_Z n)
  /\ uid_toString (UidNum (of_Z (10 ^ 21)%Z)) = lit "1e+21"
  /\ parseInt (uid_toString (UidNum (of_Z (10 ^ 21)%Z))) = of_Z 1
  /\ parseInt (uid_toString (UidNum one_and_a_half)) = of_Z 1.
Proof.
  split; [|repeat split; vm_compute; reflexivity].
  intros n S. cbn [uid_toString]. now apply parseInt_num_toString.
Qed.

Lemma parseInt_reads_back_toString_witness :
  safe_integer (-42)%Z
  /\ uid_toString (UidNum (of_Z (-42)%Z)) = lit "-42"
  /\ parseInt (lit "-42") = of_Z (-42)%Z.
Proof.
  assert (S : safe_integer (-42)%Z) by (unfold safe_integer; cbn; lia).
  split; [exact S|]. split; [reflexivity|].
  exact (proj2 (proj1 parseInt_reads_back_toString (-42)%Z S)).
Defined.

Lemma role_str_enum r :
  (if str_eqb (role_str r) (lit "publisher") then PUBLISHER else SUBSCRIBER) = role_enum r.
Proof. destruct r; reflexivity. Qed.

(** What the [POST] handler finds in a body made of the fields of a
    query string. *)
Lemma token_response_of_params sign te now get :
  token_response sign te now (request_of_params get)
  = let appId := get (lit "appId") in
    let appCertificate := get (lit "appCertificate") in
    let channelName := get (lit "channel") in
    if missing appId || missing appCertificate || missing channelName then required
    else if negb (appIdPattern_test (str_of appId)) then bad_format
    else
      let expiry := VNum (add (currentTimestamp now) (of_Z 3600)) in
      let role :=
        match get (lit "role") with Some r => VStr r | None => VStr (lit "audience") end in
      let uidNum :=
        or_else (VNum (parseInt (str_or (get (lit "uid")) (lit "0")))) (VNum (of_Z 0)) in
      match sign (VStr (str_of appId)) (VStr (str_of appCertificate))
              (VStr (str_of channelName)) uidNum
              (if str_eqb (str_or (get (lit "role")) (lit "audience")) (lit "publisher")
               then PUBLISHER else SUBSCRIBER)
              expiry expiry with
      | Ok tok =>
          {| status := 200;
             body := TokenBody tok uidNum (VStr (str_of channelName)) role expiry
                       (currentTimestamp now) |}
      | Throw error => failure error
      end.
Proof.
  unfold token_response, request_of_params.
  change (field _ "appId")
    with (match get (lit "appId") with Some s => VStr s | None => VUndefined end).
  change (field _ "appCertificate")
    with (match get (lit "appCertificate") with Some s => VStr s | None => VUndefined end).
  change (field _ "channelName")
    with (match get (lit "channel") with Some s => VStr s | None => VUndefined end).
  change (field _ "uid")
    with (match get (lit "uid") with Some s => VStr s | None => VUndefined end).
  change (field _ "role")
    with (match get (lit "role") with Some s => VStr s | None => VUndefined end).
  change (field _ "expireTimeInSeconds") with VUndefined.
  cbv zeta.
  destruct (get (lit "appId")) as [[|a app]|]; try reflexivity;
  destruct (get (lit "appCertificate")) as [[|c cert]|]; try reflexivity;
  destruct (get (lit "channel")) as [[|n chan]|]; try reflexivity.
  cbn [truthy negb orb missing nonempty toString str_of].
  destruct (negb (appIdPattern_test (a :: app))); [reflexivity|].
  cbn [plus].
  destruct (get (lit "uid")) as [[|u uid]|], (get (lit "role")) as [[|r role]|];
    reflexivity.
Qed.

(** X5.  The two transport shapes of the endpoint agree.  For any query
    string, the [GET] handler and the [POST] handler given the same
    fields (and no [expireTimeInSeconds]) answer with the same status;
    they reject with the same message, they call the signing primitive
    with the same arguments and hand out the same token, valid for 3600
    seconds, and they report the same failure of the signing primitive.
    This holds although [GET] replaces an empty uid and an empty role by
    defaults and [POST] does not. *)
Theorem GET_and_POST_agree sign te now get :
  let p := POST sign te now (Ok (request_of_params get)) in
  let g := GET sign now get in
  status p = get_status g
  /\ same_answer now (str_of (get (lit "appId"))) (body p) (get_json g).
Proof.
  cbv zeta. rewrite POST_token_response by discriminate.
  rewrite token_response_of_params. unfold GET. cbv zeta.
  destruct (missing (get (lit "appId")) || missing (get (lit "appCertificate"))
            || missing (get (lit "channel"))); [split; reflexivity|].
  destruct (negb (appIdPattern_test (str_of (get (lit "appId"))))); [split; reflexivity|].
  destruct (sign _ _ _ _ _ _ _); cbn; repeat split.
Qed.

Lemma of_Z_safe_truthy n :
  safe_integer n -> or_else (VNum (of_Z n)) (VNum (of_Z 0)) = VNum (of_Z n).
Proof.
  unfold safe_integer. intros S. destruct n as [|p|p]; [reflexivity| |]; cbn [of_Z].
  - destruct (round_ratio_small false (Zpos p)) as (m & e & -> & _); [cbn in *; lia|].
    reflexivity.
  - destruct (round_ratio_small true (Zpos p)) as (m & e & -> & _); [cbn in *; lia|].
    reflexivity.
Qed.

(** The uid that the [GET] handler reads from the query string. *)
Lemma uid_from_query_cases :
  (forall s, uid_from_query (UidStr s) = uidNum_of (VStr s))
  /\ (forall n, safe_integer n -> uid_from_query (UidNum (of_Z n)) = VNum (of_Z n)).
Proof.
  split.
  - intros [|c s]; reflexivity.
  - intros n S. unfold uid_from_query. cbn [uid_toString].
    destruct (parseInt_num_toString n S) as [N P].
    destruct (num_toString (of_Z n)) as [|c s] eqn:E; [congruence|]. cbn [str_or].
    rewrite P. now apply of_Z_safe_truthy.
Qed.

Lemma status_500 : num_toString (of_Z 500) = lit "500".
Proof. vm_compute. reflexivity. Qed.

(** X6.  [generateTokenFromServer] against the [GET] handler of this
    repository.  When the request is answered by that handler, the call
    throws the handler's "are required" message if the App ID, the
    certificate or the channel is empty, its App ID format message if the
    App ID is not 32 hex characters, and otherwise resolves to the token
    that the signing primitive makes for the App ID, certificate,
    channel, the uid that the handler reads from the query string, the
    role and an expiry of 3600 seconds; when the signing primitive
    throws, the call throws the message of that error, or "HTTP 500"
    when it is empty.  The uid that the handler reads is the uid of the
    client when that is a safe integer; for a string it is what
    [parseInt] reads in it, or 0. *)
Theorem generateTokenFromServer_against_GET env sign now app cert chan u r w :
  fetch_answer env (events w ++ [EFetch (server_request app cert chan u r)])
  = get_answer (GET sign now (params_get (server_params app cert chan u r))) ->
  let res := fst (generateTokenFromServer env app cert chan u r w) in
  let expiry := VNum (add (currentTimestamp now) (of_Z 3600)) in
  (app = [] \/ cert = [] \/ chan = [] ->
   res = Throw (new_Error (lit "App ID, App Certificate, and Channel Name are required")))
  /\ (app <> [] -> cert <> [] -> chan <> [] ->
      (appIdPattern_test app = false ->
       res = Throw (new_Error (lit "Invalid App ID format. App ID should be a 32-character hexadecimal string.")))
      /\ (appIdPattern_test app = true ->
          match sign (VStr app) (VStr cert) (VStr chan) (uid_from_query u) (role_enum r)
                  expiry expiry with
          | Ok tok => res = Ok (VStr tok)
          | Throw e => res = Throw (new_Error (details_or_status (details_of e)))
          end))
  /\ (forall s, u = UidStr s -> uid_from_query u = uidNum_of (VStr s))
  /\ (forall n, u = UidNum (of_Z n) -> safe_integer n -> uid_from_query u = VNum (of_Z n)).
Proof.
  intros H res expiry.
  assert (U := uid_from_query_cases).
  split; [|split; [|split; [intros s ->; apply U | intros n -> S; now apply U]]].
  all: clear U; unfold res, generateTokenFromServer.
  all: rewrite try_catch_rethrow.
  all: rewrite fetch_then_silent by (intros; silence).
  all: rewrite H; cbn [fst]; clear H res.
  all: unfold GET.
  all: change (params_get (server_params app cert chan u r) (lit "channel")) with (Some chan).
  all: change (params_get (server_params app cert chan u r) (lit "uid")) with (Some (uid_toString u)).
  all: change (params_get (server_params app cert chan u r) (lit "role")) with (Some (role_str r)).
  all: change (params_get (server_params app cert chan u r) (lit "appId")) with (Some app).
  all: change (params_get (server_params app cert chan u r) (lit "appCertificate")) with (Some cert).
  all: change (or_else (VNum (parseInt (str_or (Some (uid_toString u)) (lit "0")))) (VNum (of_Z 0)))
         with (uid_from_query u).
  all: replace (str_or (Some (role_str r)) (lit "audience")) with (role_str r)
         by (destruct r; reflexivity).
  all: rewrite role_str_enum; fold expiry.
  - intros Hm.
    destruct app as [|a0 app], cert as [|c0 cert], chan as [|n0 chan]; try reflexivity.
    exfalso. destruct Hm as [Hm|[Hm|Hm]]; discriminate.
  - intros Ha Hc Hn.
    destruct app as [|a0 app]; [congruence|].
    destruct cert as [|c0 cert]; [congruence|].
    destruct chan as [|n0 chan]; [congruence|].
    cbn [missing nonempty negb orb str_of]. split.
    + intros ->. reflexivity.
    + intros ->. cbn [negb].
      destruct (sign _ _ _ _ _ _ _) as [tok|e]; [reflexivity|].
      unfold get_answer. cbn [get_status get_json json_of_get].
      unfold check_ok. cbn [fst snd response_ok]. rewrite status_500.
      destruct (details_of e) eqn:D; reflexivity.
Qed.

Lemma generateTokenFromServer_against_GET_witness :
  appIdPattern_test hex32 = true
  /\ fst (generateTokenFromServer same_origin hex32 (lit "secret")
            (lit "room") (UidNum (of_Z 0)) audience (fresh cfg_cert))
     = Ok (VStr (lit "007" ++ hex32)).
Proof.
  split; [reflexivity|].
  refine (proj2 (proj1 (proj2 (generateTokenFromServer_against_GET
                          same_origin
                          sign_ok 1700000000123 hex32 (lit "secret") (lit "room")
                          (UidNum (of_Z 0)) audience (fresh cfg_cert) eq_refl)) _ _ _) eq_refl);
    discriminate.
Defined.

(** The fields that the [POST] handler finds in the body sent by
    [generateTokenFromBackend]. *)
Lemma posted_fields app cert chan u r x :
  posted app cert chan u r x <> VNull
  /\ posted app cert chan u r x <> VUndefined
  /\ field (posted app cert chan u r x) "appId" = VStr app
  /\ field (posted app cert chan u r x) "appCertificate" = VStr cert
  /\ field (posted app cert chan u r x) "channelName" = VStr chan
  /\ field (posted app cert chan u r x) "uid" = wire (uid_val u)
  /\ field (posted app cert chan u r x) "role" = VStr (role_str r)
  /\ field (posted app cert chan u r x) "expireTimeInSeconds" = wire (VNum x).
Proof.
  destruct u as [s|[| | |]], x as [| | |]; repeat split; discriminate.
Qed.

Lemma plus_sent_number t x :
  plus t (wire (VNum x)) = Some (VNum (add t (sent_number x))).
Proof. destruct x; reflexivity. Qed.

(** The uid that the [POST] handler reads from the body. *)
Lemma uid_from_body_cases :
  (forall s, uid_from_body (UidStr s) = uidNum_of (VStr s))
  /\ (forall neg m e, uid_from_body (UidNum (Finite neg m e)) = VNum (Finite neg m e)).
Proof. split; reflexivity. Qed.

(** X7.  [generateTokenFromBackend] against the [POST] handler of this
    repository: the same outcomes as for the query-string form, with the
    expiry that the client asked for and the uid that the handler reads
    from the body, except that a failure of the signing primitive
    reaches the caller as "Failed to generate token", without the
    underlying message.  A uid that is a finite number other than zero
    is signed as it is, a string as what [parseInt] reads in it, or 0;
    an expiry that is a finite number is added as it is. *)
Theorem generateTokenFromBackend_against_POST env sign te now app cert chan u r x w :
  fetch_answer env (events w ++ [EFetch (backend_request app cert chan u r x)])
  = post_answer (POST sign te now (Ok (posted app cert chan u r x))) ->
  let res := fst (generateTokenFromBackend env app cert chan u r x w) in
  let expiry := VNum (add (currentTimestamp now) (sent_number x)) in
  (app = [] \/ cert = [] \/ chan = [] ->
   res = Throw (new_Error (lit "App ID, App Certificate, and Channel Name are required")))
  /\ (app <> [] -> cert <> [] -> chan <> [] ->
      (appIdPattern_test app = false ->
       res = Throw (new_Error (lit "Invalid App ID format. App ID should be a 32-character hexadecimal string.")))
      /\ (appIdPattern_test app = true ->
          match sign (VStr app) (VStr cert) (VStr chan) (uid_from_body u) (role_enum r)
                  expiry expiry with
          | Ok tok => res = Ok (VStr tok)
          | Throw e => res = Throw (new_Error (lit "Failed to generate token"))
          end))
  /\ (forall s, u = UidStr s -> uid_from_body u = uidNum_of (VStr s))
  /\ (forall neg m e, u = UidNum (Finite neg m e) -> uid_from_body u = VNum (Finite neg m e))
  /\ (forall neg m e, x = Finite neg m e -> sent_number x = x).
Proof.
  intros H res expiry.
  split; [|split; [|split; [intros s ->; reflexivity
                           |split; [intros neg m e ->; reflexivity
                                   |intros neg m e ->; reflexivity]]]].
  all: unfold res, generateTokenFromBackend.
  all: rewrite try_catch_rethrow.
  all: rewrite fetch_then_silent by (intros; silence).
  all: rewrite H; cbn [fst]; clear H res.
  all: destruct (posted_fields app cert chan u r x) as (N1 & N2 & F1 & F2 & F3 & F4 & F5 & F6).
  all: rewrite POST_token_response by assumption.
  all: unfold token_response; rewrite F1, F2, F3, F4, F5, F6; clear N1 N2 F1 F2 F3 F4 F5 F6.
  all: replace (match wire (VNum x) with VUndefined => VNum (of_Z 3600) | v => v end)
         with (wire (VNum x)) by (now destruct x).
  all: rewrite plus_sent_number; fold expiry; fold (uid_from_body u).
  all: cbn [is_string toString]; rewrite role_str_enum.
  - intros Hm.
    destruct app as [|a0 app], cert as [|c0 cert], chan as [|n0 chan]; try reflexivity.
    exfalso. destruct Hm as [Hm|[Hm|Hm]]; discriminate.
  - intros Ha Hc Hn.
    destruct app as [|a0 app]; [congruence|].
    destruct cert as [|c0 cert]; [congruence|].
    destruct chan as [|n0 chan]; [congruence|].
    cbn [truthy negb orb]. split.
    + intros ->. reflexivity.
    + intros ->. cbn [negb].
      destruct (sign _ _ _ _ _ _ _) as [tok|e]; reflexivity.
Qed.

Lemma generateTokenFromBackend_against_POST_witness :
  appIdPattern_test hex32 = true
  /\ fst (generateTokenFromBackend same_origin hex32 (lit "secret")
            (lit "room") (UidNum (of_Z 0)) audience (of_Z 3600) (fresh cfg_cert))
     = Ok (VStr (lit "007" ++ hex32)).
Proof.
  split; [reflexivity|].
  refine (proj2 (proj1 (proj2 (generateTokenFromBackend_against_POST
                          same_origin
                          sign_ok type_error 1700000000456 hex32 (lit "secret") (lit "room")
                          (UidNum (of_Z 0)) audience (of_Z 3600) (fresh cfg_cert) eq_refl))
                   _ _ _) eq_refl);
    discriminate.
Defined.


(* ===================================================================== *)
(** ** Further properties: what a join leaves alone *)
(* ===================================================================== *)

Lemma extends_refl P w : extends P w w.
Proof. exists []. now rewrite app_nil_r. Qed.

Lemma extends_trans P a b c : extends P a b -> extends P b c -> extends P a c.
Proof.
  intros (l1 & E1 & F1) (l2 & E2 & F2). exists (l1 ++ l2). split.
  - now rewrite E2, E1, app_assoc.
  - now rewrite forallb_app, F1, F2.
Qed.

Lemma extends_weaken (P P' : event -> bool) w w' :
  (forall e, P e = true -> P' e = true) -> extends P w w' -> extends P' w w'.
Proof.
  intros H (l & E & F). exists l. split; [exact E|].
  apply forallb_forall. intros e He.
  apply H. revert e He. now apply forallb_forall.
Qed.

Section Stable.

Context {B : Type} (f : AgoraClient -> B) (Q : B -> Prop) (P : event -> bool).

Lemma keeps_refl w : keeps f P w w.
Proof. split; [apply extends_refl | reflexivity]. Qed.

Lemma keeps_trans a b c : keeps f P a b -> keeps f P b c -> keeps f P a c.
Proof.
  intros [E1 F1] [E2 F2]. split; [eapply extends_trans; eauto | congruence].
Qed.

Lemma stable_ret {A} (a : A) : stable f Q P (ret a).
Proof. intros w _. apply keeps_refl. Qed.

Lemma stable_throw {A} e : stable f Q P (@throw A e).
Proof. intros w _. apply keeps_refl. Qed.

Lemma stable_this : stable f Q P this.
Proof. intros w _. apply keeps_refl. Qed.

Lemma stable_history : stable f Q P history.
Proof. intros w _. apply keeps_refl. Qed.

Lemma stable_bind {A C} (m : M A) (k : A -> M C) :
  stable f Q P m -> (forall a, stable f Q P (k a)) -> stable f Q P (bind m k).
Proof.
  intros Hm Hk w Hw. unfold bind. specialize (Hm w Hw).
  destruct (m w) as [[a|e] w1]; cbn in *; [|exact Hm].
  eapply keeps_trans; [exact Hm|]. apply Hk.
  destruct Hm as [_ ->]. exact Hw.
Qed.

Lemma stable_try_catch {A} (m : M A) (h : exn -> M A) :
  stable f Q P m -> (forall e, stable f Q P (h e)) -> stable f Q P (try_catch m h).
Proof.
  intros Hm Hh w Hw. unfold try_catch. specialize (Hm w Hw).
  destruct (m w) as [[a|e] w1]; cbn in *; [exact Hm|].
  eapply keeps_trans; [exact Hm|]. apply Hh.
  destruct Hm as [_ ->]. exact Hw.
Qed.

(** Reading the object and going on with what was read. *)
Lemma stable_with_this {A} (k : AgoraClient -> M A) :
  (forall w, Q (f (self w)) -> keeps f P w (snd (k (self w) w))) ->
  stable f Q P (bind this k).
Proof. intros H w Hw. unfold bind, this. cbn. now apply H. Qed.

Lemma stable_emit e : P e = true -> stable f Q P (emit e).
Proof.
  intros He w _. split; [|reflexivity].
  exists [e]. split; [reflexivity|]. cbn. now rewrite He.
Qed.

Lemma stable_call env e : P e = true -> stable f Q P (call env e).
Proof.
  intros He. unfold call.
  apply stable_bind; [now apply stable_emit|]. intros _.
  apply stable_bind; [apply stable_history|]. intros h.
  destruct (raises env h); [apply stable_throw | apply stable_ret].
Qed.

(** An update of the object that does not change [f]. *)
Lemma stable_update (g : AgoraClient -> AgoraClient) :
  (forall o, f (g o) = f o) -> stable f Q P (bind this (fun o => set_this (g o))).
Proof.
  intros Hg w _. split; [|cbn; apply Hg].
  exists []. cbn. now rewrite app_nil_r.
Qed.

Lemma stable_generateToken env r :
  (forall e, is_fetch e = true -> P e = true) -> stable f Q P (generateToken env r).
Proof.
  intros HP w _. destruct (generateToken_only_fetches env r w) as (res & l & -> & F).
  split; [|reflexivity]. cbn.
  apply (extends_weaken is_fetch); [exact HP|]. now exists l.
Qed.

End Stable.

(** The listeners are registered with four calls to [on]. *)
Lemma stable_setupEventListeners {B} (f : AgoraClient -> B) Q P env :
  (forall n, P (EOn n) = true) -> stable f Q P (setupEventListeners env).
Proof.
  intros H. unfold setupEventListeners.
  apply stable_bind; [apply stable_this|]. intros o.
  destruct (client o); [|apply stable_ret].
  repeat (apply stable_bind; [apply stable_call, H | intros _]).
  apply stable_call, H.
Qed.

Ltac stabilize_with tac :=
  repeat first
    [ assumption
    | apply stable_ret | apply stable_throw | apply stable_this | apply stable_history
    | apply stable_call; solve [tac]
    | apply stable_generateToken; solve [tac]
    | apply stable_update; solve [tac]
    | apply stable_setupEventListeners; solve [tac]
    | apply stable_try_catch; [ | intros ? ]
    | apply stable_bind; [ | intros ? ]
    | match goal with
      | |- stable _ _ _ (match ?x with _ => _ end) => destruct x
      | |- stable _ _ _ (if ?x then _ else _) => destruct x
      end ].

Section StableJoin.

Context {B : Type} (f : AgoraClient -> B) (Q : B -> Prop) (P : event -> bool).
Variable env : Env.

(** [join] is made of three steps; what they all leave alone, [join]
    leaves alone. *)
Lemma stable_join r :
  stable f Q P (ensure_client env) ->
  stable f Q P (acquire_token env r) ->
  stable f Q P (o2 <- this ;; if isPublisher o2 then createAndPublishTracks env else ret tt) ->
  (forall a c t u, P (EJoin a c t u) = true) ->
  stable f Q P (join env r).
Proof.
  intros H1 H2 H3 H4. unfold join, join_try. stabilize_with auto.
Qed.

Lemma stable_ensure_client :
  P EImportSdk = true ->
  (forall m c, P (ECreateClient m c) = true) ->
  (forall n, P (EOn n) = true) ->
  (forall c o, f {| client := c; config := config o;
                    localVideoTrack := localVideoTrack o;
                    localAudioTrack := localAudioTrack o;
                    isPublisher := isPublisher o |} = f o) ->
  stable f Q P (ensure_client env).
Proof.
  intros H1 H2 H3 H4. unfold ensure_client, initClient, set_client.
  stabilize_with auto.
Qed.

Lemma stable_acquire_token r :
  (forall e, is_fetch e = true -> P e = true) ->
  stable f Q P (acquire_token env r).
Proof. intros H. unfold acquire_token. stabilize_with auto. Qed.

Lemma stable_publishing :
  P EImportSdk = true ->
  (forall e, is_publish_call e = true -> P e = true) ->
  (forall t o, f {| client := client o; config := config o;
                    localVideoTrack := t;
                    localAudioTrack := localAudioTrack o;
                    isPublisher := isPublisher o |} = f o) ->
  (forall t o, f {| client := client o; config := config o;
                    localVideoTrack := localVideoTrack o;
                    localAudioTrack := t;
                    isPublisher := isPublisher o |} = f o) ->
  stable f Q P (o2 <- this ;; if isPublisher o2 then createAndPublishTracks env else ret tt).
Proof.
  intros H1 H2 H3 H4.
  unfold createAndPublishTracks, set_localAudioTrack, set_localVideoTrack.
  stabilize_with ltac:(auto; try (apply H2; reflexivity)).
Qed.

Lemma stable_set_isPublisher_then b {A} (m : M A) :
  (forall w, Q (f (self (snd (set_isPublisher b w)))) ->
             keeps f P (snd (set_isPublisher b w)) (snd (m (snd (set_isPublisher b w))))) ->
  forall w, Q (f (self (snd (set_isPublisher b w)))) ->
            extends P w (snd ((set_isPublisher b ;; m) w))
            /\ f (self (snd ((set_isPublisher b ;; m) w)))
               = f (self (snd (set_isPublisher b w))).
Proof.
  intros H w Hw. specialize (H w Hw).
  unfold bind, set_isPublisher, this, set_this in *. cbn in *.
  destruct H as [(l & E & F) G].
  split; [|exact G]. exists l. split; [exact E | exact F].
Qed.

End StableJoin.

(** X8.  [join] never tears anything down.  Whatever the outside world
    answers, and also when [join] fails after the engine has accepted
    the join (a track could not be created or published), the calls it
    makes include no engine [leave] and no [stop] or [close] of a track:
    undoing a half-made session is left to [leave]. *)
Theorem join_never_tears_down env r w :
  extends (fun e => negb (is_teardown e)) w (snd (join env r w))
  /\ extends (fun e => negb (is_teardown e)) w (snd (joinAsAudience env w))
  /\ extends (fun e => negb (is_teardown e)) w (snd (joinAsPublisher env w)).
Proof.
  assert (S : forall r, stable (fun _ : AgoraClient => tt) (fun _ => True)
                (fun e => negb (is_teardown e)) (join env r)).
  { intros r'. apply stable_join.
    - apply stable_ensure_client; reflexivity.
    - apply stable_acquire_token. now intros [].
    - apply stable_publishing; try reflexivity. now intros [].
    - reflexivity. }
  split; [exact (proj1 (S r w I))|].
  split.
  - exact (proj1 (stable_set_isPublisher_then _ (fun _ => True) _ false (join env audience)
                    (fun w' _ => S audience _ I) w I)).
  - exact (proj1 (stable_set_isPublisher_then _ (fun _ => True) _ true (join env publisher)
                    (fun w' _ => S publisher _ I) w I)).
Qed.

(** X9.  An audience join leaves the local media alone.  Whatever the
    object held before and whatever the outside world answers,
    [joinAsAudience] creates, publishes, plays, stops and closes no
    track, leaves both track references as they were, and ends with the
    publisher flag off. *)
Theorem joinAsAudience_never_touches_tracks env w :
  let w' := snd (joinAsAudience env w) in
  extends (fun e => negb (is_track_call e)) w w'
  /\ localVideoTrack (self w') = localVideoTrack (self w)
  /\ localAudioTrack (self w') = localAudioTrack (self w)
  /\ isPublisher (self w') = false.
Proof.
  assert (S : stable local_media (fun x => snd x = false)
                (fun e => negb (is_track_call e)) (join env audience)).
  { apply stable_join.
    - apply stable_ensure_client; reflexivity.
    - apply stable_acquire_token. now intros [].
    - apply stable_with_this. intros w0 H0. cbn in H0. rewrite H0. apply keeps_refl.
    - reflexivity. }
  destruct (stable_set_isPublisher_then local_media (fun x => snd x = false) _ false
              (join env audience) (fun w' H => S _ H) w eq_refl) as [E F].
  cbn zeta. fold (joinAsAudience env) in E, F.
  unfold local_media in F. cbn in F. injection F as F1 F2 F3.
  repeat split; assumption.
Qed.



(** X11.  One engine client per object.  A join on an object that
    already holds a client, for instance after [leave()], makes no
    [createClient] call and ends with the same client. *)
Theorem join_reuses_the_client env r w c :
  client (self w) = Some c ->
  extends (fun e => negb (is_createClient e)) w (snd (join env r w))
  /\ client (self (snd (join env r w))) = Some c.
Proof.
  intros Hc.
  assert (S : stable client (fun x => x <> None)
                (fun e => negb (is_createClient e)) (join env r)).
  { apply stable_join.
    - unfold ensure_client. apply stable_with_this. intros w0 H0.
      destruct (client (self w0)); [apply keeps_refl | congruence].
    - apply stable_acquire_token. now intros [].
    - apply stable_publishing; try reflexivity. now intros [].
    - reflexivity. }
  destruct (S w) as [E F]; [rewrite Hc; discriminate|].
  split; [exact E | now rewrite F].
Qed.

Lemma join_reuses_the_client_witness :
  client (self (watching offline)) = Some rtc_vp8
  /\ client (self (snd (join offline publisher (watching offline)))) = Some rtc_vp8.
Proof.
  split; [reflexivity|].
  exact (proj2 (join_reuses_the_client offline publisher (watching offline) rtc_vp8 eq_refl)).
Defined.

(** X12.  Each strategy of [generateToken] is a single attempt: it only
    sends requests and leaves the object untouched, it sends at most two
    of them, at least one when a certificate is configured and at most
    one when none is. *)
Theorem generateToken_sends_at_most_two_requests env r w :
  exists res l,
    generateToken env r w = (res, after w l)
    /\ forallb is_fetch l = true
    /\ (List.length l <= 2)%nat
    /\ (nonempty (appCertificate (config (self w))) = false -> (List.length l <= 1)%nat)
    /\ (nonempty (appCertificate (config (self w))) = true -> (1 <= List.length l)%nat).
Proof.
  destruct (nonempty (appCertificate (config (self w)))) eqn:Hn.
  - destruct (appCertificate (config (self w))) as [[|c cert]|] eqn:Hc; try discriminate.
    destruct (generateToken_two_attempts env r w c cert Hc) as (res1 & _ & K).
    destruct res1 as [t|e].
    + rewrite K. eexists; eexists; split; [reflexivity|]. cbn. repeat split; auto; discriminate.
    + destruct K as (res2 & _ & ->). eexists; eexists; split; [reflexivity|].
      cbn. repeat split; auto; discriminate.
  - rewrite (generateToken_without_certificate env r w Hn). cbn zeta.
    match goal with |- context [agoraGetAppData env ?tc w] =>
      destruct (agoraGetAppData_run env tc w) as (res & -> & _)
    end.
    cbn [tc_channel tc_uid].
    assert (F : forallb is_fetch
                  (demo_events env (events w) (channel (config (self w)))
                     (uid_or_zero (uid (config (self w))))) = true
                /\ (List.length (demo_events env (events w) (channel (config (self w)))
                     (uid_or_zero (uid (config (self w))))) <= 1)%nat).
    { unfold demo_events. destruct (demo_request _ _ _ _); cbn; auto. }
    destruct F as [F1 F2].
    destruct res as [t|e]; [destruct (truthy t)|]; eexists; eexists;
      (split; [reflexivity|]); repeat split; auto; try discriminate; lia.
Qed.

(** X13.  Where there is no [window] (a render on the server), a join
    of an object without client fails with "Failed to initialize Agora
    client" once the configuration has passed validation, and makes no
    call. *)
Theorem join_without_window env r w :
  window_defined env = false ->
  client (self w) = None ->
  valid_config (config (self w)) = true ->
  join env r w = (Throw (new_Error (lit "Failed to initialize Agora client")), w).
Proof.
  intros Hw Hc Hv. rewrite (join_valid env r w Hv).
  unfold ensure_client, bind, this, initClient. cbn. rewrite Hc, Hw. cbn.
  now rewrite Hc.
Qed.

Lemma join_without_window_witness :
  window_defined server_side = false
  /\ join server_side audience (fresh cfg_token)
     = (Throw (new_Error (lit "Failed to initialize Agora client")), fresh cfg_token).
Proof.
  split; [reflexivity|].
  exact (join_without_window server_side audience (fresh cfg_token) eq_refl eq_refl eq_refl).
Defined.


(* ===================================================================== *)
(** ** Further properties: publishing, and a padded App ID *)
(* ===================================================================== *)

(** X14.  Tracks are recorded as soon as they exist.  For a publisher
    with a client, [createAndPublishTracks] imports the SDK, creates the
    microphone track, creates the camera track, publishes the two in one
    call (audio first) and plays the camera track if the local player is
    there, stopping at the first call that throws and rethrowing its
    error.  The microphone track is referenced as soon as its creation has
    succeeded and the camera track as soon as its own has, so a later
    failure leaves them referenced, neither stopped nor closed. *)
Theorem createAndPublishTracks_records_tracks_at_once env w c :
  client (self w) = Some c ->
  isPublisher (self w) = true ->
  let run := run_calls env (events w) (publish_calls env (events w)) in
  exists o',
    createAndPublishTracks env w
    = (match snd run with Some e => Throw e | None => Ok tt end,
       {| events := events w ++ fst run; self := o' |})
    /\ localAudioTrack o'
       = (if (2 <? List.length (fst run))%nat
          then Some (microphone env (events w)) else localAudioTrack (self w))
    /\ localVideoTrack o'
       = (if (3 <? List.length (fst run))%nat
          then Some (camera env (events w)) else localVideoTrack (self w))
    /\ client o' = Some c /\ isPublisher o' = true /\ config o' = config (self w).
Proof.
  intros Hc Hp. destruct w as [h [cl cfg v a p]]. cbn in Hc, Hp. subst cl p.
  unfold publish_calls, microphone, camera.
  cbn [self localVideoTrack localAudioTrack events].
  unfold createAndPublishTracks, try_catch, bind, call, emit, history, this,
    set_localVideoTrack, set_localAudioTrack, set_this, ret, throw; cbn.
  repeat (rewrite <- ?app_assoc; cbn [app];
          match goal with
          | |- context [raises env ?l] => destruct (raises env l); cbn
          | |- context [has_local_player env ?l] => destruct (has_local_player env l); cbn
          end);
    rewrite <- ?app_assoc; cbn;
    eexists; repeat split; reflexivity.
Qed.

Lemma createAndPublishTracks_records_tracks_at_once_witness :
  isPublisher (self ready_to_publish) = true
  /\ exists o',
       createAndPublishTracks no_camera ready_to_publish
       = (Throw engine_error,
          {| events := [EImportSdk; ECreateMicrophoneAudioTrack; ECreateCameraVideoTrack];
             self := o' |})
       /\ localAudioTrack o' = Some (Track 2)
       /\ localVideoTrack o' = None.
Proof.
  split; [reflexivity|].
  destruct (createAndPublishTracks_records_tracks_at_once no_camera ready_to_publish
              rtc_vp8 eq_refl eq_refl) as (o' & E & A & V & _).
  exists o'. split; [exact E|]. split; [exact A | exact V].
Defined.


Lemma GET_rejects env_get sign now :
  appIdPattern_test (str_of (env_get (lit "appId"))) = false ->
  get_status (GET sign now env_get) = 400%Z.
Proof.
  intros H. unfold GET.
  destruct (missing _ || missing _ || missing _); [reflexivity|].
  now rewrite H.
Qed.

Lemma POST_rejects sign te now app cert chan u r x :
  appIdPattern_test app = false ->
  status (POST sign te now (Ok (posted app cert chan u r x))) = 400%Z.
Proof.
  intros H.
  destruct (posted_fields app cert chan u r x) as (N1 & N2 & F1 & F2 & F3 & _).
  rewrite POST_token_response by assumption.
  unfold token_response. rewrite F1, F2, F3.
  destruct (negb (truthy (VStr app)) || negb (truthy (VStr cert))
            || negb (truthy (VStr chan))); [reflexivity|].
  cbn [toString]. now rewrite H.
Qed.

(** X15.  An App ID with blanks around it passes the validation of
    [join], which trims it, but [generateToken] sends it untrimmed and
    the endpoint of this repository tests it untrimmed.  So with a
    certificate, no token and both requests answered by the two
    handlers, both attempts are rejected and [join] fails with the token
    error after exactly these two requests, without calling the
    engine. *)
Theorem join_with_padded_appId_gets_no_token env sign te now1 now2 r w w1 c cert :
  valid_config (config (self w)) = true ->
  appIdPattern_test (appId (config (self w))) = false ->
  appCertificate (config (self w)) = Some (c :: cert) ->
  nonempty (token (config (self w))) = false ->
  ensure_client env w = (Ok tt, w1) ->
  client (self w1) <> None ->
  let cfg := config (self w) in
  let u := uid_or_zero (uid cfg) in
  let get_req := server_request (appId cfg) (c :: cert) (channel cfg) u r in
  let post_req := backend_request (appId cfg) (c :: cert) (channel cfg) u r (of_Z 3600) in
  fetch_answer env (events w1 ++ [EFetch get_req])
  = get_answer (GET sign now1 (params_get (server_params (appId cfg) (c :: cert) (channel cfg) u r))) ->
  fetch_answer env (events w1 ++ [EFetch get_req; EFetch post_req])
  = post_answer (POST sign te now2
                   (Ok (posted (appId cfg) (c :: cert) (channel cfg) u r (of_Z 3600)))) ->
  join env r w
  = (Throw (new_Error token_failure_message), after w1 [EFetch get_req; EFetch post_req]).
Proof.
  intros Hv Hp Hc Ht He Hcl cfg u get_req post_req Hg Hpost.
  assert (Hcfg : config (self w1) = config (self w)).
  { rewrite <- (ensure_client_config env w). now rewrite He. }
  assert (Hc1 : appCertificate (config (self w1)) = Some (c :: cert)) by now rewrite Hcfg.
  destruct (generateToken_two_attempts env r w1 c cert Hc1) as (res1 & E1 & K).
  rewrite Hcfg in E1, K. fold cfg u get_req post_req in E1, K.
  destruct (generateTokenFromServer_run env (appId cfg) (c :: cert) (channel cfg) u r w1)
    as (res1' & E1' & A1).
  fold get_req in E1', A1. rewrite E1 in E1'. injection E1' as <-.
  rewrite Hg in A1. unfold get_answer in A1. destruct A1 as [A1 _].
  destruct A1 as [e1 ->].
  { rewrite GET_rejects; [reflexivity|]. exact Hp. }
  destruct K as (res2 & E2 & G).
  destruct (generateTokenFromBackend_run env (appId cfg) (c :: cert) (channel cfg) u r (of_Z 3600)
              (after w1 [EFetch get_req])) as (res2' & E2' & A2).
  fold post_req in E2', A2. rewrite E2 in E2'. injection E2' as <- _.
  change (events (after w1 [EFetch get_req]) ++ [EFetch post_req])
    with ((events w1 ++ [EFetch get_req]) ++ [EFetch post_req]) in A2.
  rewrite <- app_assoc in A2. cbn [app] in A2. rewrite Hpost in A2.
  unfold post_answer in A2. destruct A2 as [A2 _].
  destruct A2 as [e2 ->].
  { rewrite POST_rejects; [reflexivity|]. exact Hp. }
  rewrite (join_valid env r w Hv), He.
  destruct (client (self w1)) as [cl|]; [|congruence].
  rewrite <- Hcfg in Ht.
  unfold join_try. unfold bind at 1. unfold this at 1. cbn beta iota.
  unfold bind at 1. rewrite (acquire_token_failure env r w1 _ e2 Ht G).
  reflexivity.
Qed.

Lemma join_with_padded_appId_gets_no_token_witness :
  valid_config cfg_padded = true
  /\ appIdPattern_test (appId cfg_padded) = false
  /\ fst (join same_origin audience (fresh cfg_padded))
     = Throw (new_Error token_failure_message).
Proof.
  split; [reflexivity|]. split; [reflexivity|].
  refine (f_equal fst
            (join_with_padded_appId_gets_no_token same_origin sign_ok
               type_error 1700000000123 1700000000456 audience (fresh cfg_padded)
               (snd (ensure_client same_origin (fresh cfg_padded)))
               115%N (lit "ecret") eq_refl eq_refl eq_refl eq_refl eq_refl _ eq_refl eq_refl)).
  discriminate.
Defined.


(* ===================================================================== *)
(** ** Further properties: the pages *)
(* ===================================================================== *)

Lemma is_hex_not_whitespace c : is_hex c = true -> is_whitespace c = false.
Proof.
  unfold is_hex, is_whitespace. intros H.
  repeat (apply orb_true_iff in H; destruct H as [H|H]);
    apply andb_true_iff in H as [H1 H2];
    apply N.leb_le in H1, H2;
    repeat (apply orb_false_iff; split);
    try (apply andb_false_iff);
    try (apply N.eqb_neq; lia);
    try (left; apply N.leb_gt; lia);
    try (right; apply N.leb_gt; lia).
Qed.

Lemma trimStart_hex s : forallb is_hex s = true -> trimStart s = s.
Proof.
  destruct s as [|c s]; [reflexivity|]. cbn. intros H.
  apply andb_true_iff in H as [H _]. now rewrite (is_hex_not_whitespace c H).
Qed.

Lemma forallb_rev {A} (p : A -> bool) l : forallb p (rev l) = forallb p l.
Proof.
  induction l as [|a l IH]; [reflexivity|]. cbn.
  rewrite forallb_app, IH. cbn. rewrite andb_true_r. apply andb_comm.
Qed.

(** [trim] does nothing to a string of hex characters. *)
Lemma trim_hex s : forallb is_hex s = true -> trim s = s.
Proof.
  intros H. unfold trim, trimEnd. rewrite (trimStart_hex s H).
  rewrite trimStart_hex by now rewrite forallb_rev. apply rev_involutive.
Qed.

Lemma appIdPattern_trim s : appIdPattern_test s = true -> trim s = s /\ s <> [].
Proof.
  unfold appIdPattern_test. intros H. apply andb_true_iff in H as [L H].
  split; [now apply trim_hex|]. destruct s; [discriminate | discriminate].
Qed.

Lemma POST_accepts sign te now app cert chan u r x :
  app <> [] -> cert <> [] -> chan <> [] ->
  appIdPattern_test app = true ->
  status (POST sign te now (Ok (posted app cert chan u r x))) <> 400%Z.
Proof.
  intros Ha Hc Hn T.
  destruct (posted_fields app cert chan u r x) as (N1 & N2 & F1 & F2 & F3 & F4 & F5 & F6).
  rewrite POST_token_response by assumption.
  unfold token_response. rewrite F1, F2, F3, F4, F5, F6.
  destruct app as [|a0 app]; [congruence|].
  destruct cert as [|c0 cert]; [congruence|].
  destruct chan as [|n0 chan]; [congruence|].
  cbn [truthy negb orb toString]. rewrite T. cbn [negb].
  replace (match wire (VNum x) with VUndefined => VNum (of_Z 3600) | v => v end)
    with (wire (VNum x)) by (now destruct x).
  rewrite plus_sent_number.
  destruct (sign _ _ _ _ _ _ _); discriminate.
Qed.

(** X16.  What the video page accepts, the rest of the code accepts.
    When the page accepts its query string, the App ID passes
    [isValidAppId] of the home page and is left unchanged by [trim], the
    certificate and the channel are not empty, neither handler of the
    endpoint answers 400 for these values, and a configuration made of
    them passes the validation of [join] exactly when the channel is not
    made of blanks only. *)
Theorem video_page_query_is_accepted_downstream get app cert chan uid :
  read_query get = QueryAccepted app cert chan uid ->
  isValidAppId app = true
  /\ trim app = app
  /\ cert <> [] /\ chan <> []
  /\ (forall cfg,
        appId cfg = app -> channel cfg = chan ->
        valid_config cfg = negb (is_empty (trim chan)))
  /\ (forall sign te now r x,
        status (POST sign te now (Ok (posted app cert chan (UidStr uid) r x))) <> 400%Z)
  /\ (forall sign now r,
        get_status (GET sign now (params_get (server_params app cert chan (UidStr uid) r)))
        <> 400%Z).
Proof.
  unfold read_query. 
  destruct (missing (get (lit "appId")) || missing (get (lit "cert"))
            || missing (get (lit "channel"))) eqn:M; [discriminate|].
  destruct (appIdPattern_test (str_of (get (lit "appId")))) eqn:T; [|discriminate].
  cbn [negb]. intros [= <- <- <- <-].
  apply orb_false_elim in M as [M M3]. apply orb_false_elim in M as [M1 M2].
  unfold missing in *. apply negb_false_iff in M1, M2, M3.
  destruct (get (lit "appId")) as [[|a0 app]|]; try discriminate.
  destruct (get (lit "cert")) as [[|c0 cert]|]; try discriminate.
  destruct (get (lit "channel")) as [[|n0 chan]|]; try discriminate.
  cbn [str_of] in *.
  destruct (appIdPattern_trim _ T) as [Tr _].
  unfold isValidAppId. rewrite Tr.
  split; [exact T|]. split; [reflexivity|]. split; [discriminate|]. split; [discriminate|].
  split; [|split].
  - intros cfg Ha Hc. unfold valid_config. rewrite Ha, Hc, Tr, T.
    cbn [is_empty negb andb]. now rewrite andb_true_r.
  - intros sign te now r x. apply POST_accepts; [discriminate..|exact T].
  - intros sign now r. unfold GET.
    change (params_get _ (lit "channel")) with (Some (n0 :: chan)).
    change (params_get _ (lit "appId")) with (Some (a0 :: app)).
    change (params_get _ (lit "appCertificate")) with (Some (c0 :: cert)).
    cbn -[appIdPattern_test parseInt str_eqb]. rewrite T. cbn -[parseInt str_eqb].
    destruct (sign _ _ _ _ _ _ _); discriminate.
Qed.

Lemma video_page_query_is_accepted_downstream_witness :
  read_query video_query = QueryAccepted hex32 (lit "secret") (lit "room") []
  /\ isValidAppId hex32 = true.
Proof.
  split; [reflexivity|].
  exact (proj1 (video_page_query_is_accepted_downstream video_query hex32 (lit "secret")
                  (lit "room") [] eq_refl)).
Defined.


(* ===================================================================== *)
(** ** Further properties: the audience hook *)
(* ===================================================================== *)

Import Hook.

(** A configuration that fails one of the three checks of [join]. *)
Lemma join_invalid env r w :
  valid_config (config (self w)) = false ->
  exists msg,
    In msg [App_ID_required; Channel_required; Invalid_App_ID_format]
    /\ join env r w = (Throw (new_Error msg), w).
Proof.
  unfold valid_config. intros H.
  unfold join, bind, this. cbn beta iota. rewrite !is_empty_or_trim.
  destruct (is_empty (trim (appId (config (self w))))).
  { exists App_ID_required. split; [cbn; tauto | reflexivity]. }
  destruct (is_empty (trim (channel (config (self w))))).
  { exists Channel_required. split; [cbn; tauto | reflexivity]. }
  cbn in H. rewrite H.
  exists Invalid_App_ID_format. split; [cbn; tauto | reflexivity].
Qed.

(** The three checks that open [join], each with its message. *)
Lemma join_rejects env r w :
  let cfg := config (self w) in
  (is_empty (trim (appId cfg)) = true ->
   join env r w = (Throw (new_Error App_ID_required), w))
  /\ (is_empty (trim (appId cfg)) = false ->
      is_empty (trim (channel cfg)) = true ->
      join env r w = (Throw (new_Error Channel_required), w))
  /\ (is_empty (trim (appId cfg)) = false ->
      is_empty (trim (channel cfg)) = false ->
      appIdPattern_test (trim (appId cfg)) = false ->
      join env r w = (Throw (new_Error Invalid_App_ID_format), w)).
Proof.
  intros cfg. unfold join, bind, this; cbn. fold cfg.
  rewrite !is_empty_or_trim.
  repeat split; intros;
    repeat match goal with H : _ = _ |- _ => rewrite H; clear H end; reflexivity.
Qed.

(** [joinChannel] when [join] throws at once. *)
Lemma joinChannel_rejected env henv p tok st hw msg :
  hs_isJoining st = false ->
  hs_isJoined st = false ->
  (forall w, config (self w) = with_defaults (join_config p tok) ->
             join env audience w = (Throw (new_Error msg), w)) ->
  joinChannel env henv p tok st hw
  = ({| hs_client := hs_client st;
        hs_isJoined := false;
        hs_isJoining := false;
        hs_remoteUsers := hs_remoteUsers st;
        hs_error := Some msg |}, hw).
Proof.
  intros H1 H2 J. unfold joinChannel. rewrite H1, H2. cbn [orb].
  unfold joinAsAudience, set_isPublisher. unfold bind at 1. unfold bind at 1.
  unfold this at 1. unfold set_this at 1. cbn beta iota. cbn [fst snd events self].
  rewrite J by reflexivity. destruct hw; reflexivity.
Qed.

(** X17.  The hook reports invalid input as its error.  When the hook
    is neither joining nor joined and its App ID or channel fails the
    validation of [join], [joinChannel] ends with [error] set to the
    message of the first check that fails (the App ID is blank; else
    the channel is blank; else the trimmed App ID is not 32 hex
    characters), [isJoining] and [isJoined] false, the held client and
    the remote users as they were, and it has called neither the network
    nor the engine and has started no timer. *)
Theorem joinChannel_reports_invalid_input env henv p tok st hw :
  hs_isJoining st = false ->
  hs_isJoined st = false ->
  let reported msg :=
    joinChannel env henv p tok st hw
    = ({| hs_client := hs_client st;
          hs_isJoined := false;
          hs_isJoining := false;
          hs_remoteUsers := hs_remoteUsers st;
          hs_error := Some msg |}, hw) in
  (is_empty (trim (p_appId p)) = true -> reported App_ID_required)
  /\ (is_empty (trim (p_appId p)) = false ->
      is_empty (trim (p_channel p)) = true ->
      reported Channel_required)
  /\ (is_empty (trim (p_appId p)) = false ->
      is_empty (trim (p_channel p)) = false ->
      appIdPattern_test (trim (p_appId p)) = false ->
      reported Invalid_App_ID_format).
Proof.
  intros H1 H2 reported. unfold reported.
  repeat split; intros; apply joinChannel_rejected; try assumption;
    intros w C; destruct (join_rejects env audience w) as (R1 & R2 & R3);
    rewrite C in R1, R2, R3; cbn [appId channel with_defaults join_config] in R1, R2, R3;
    auto.
Qed.

(** A channel name made of blanks. *)
Lemma joinChannel_reports_invalid_input_witness :
  is_empty (trim (p_appId props_blank_channel)) = false
  /\ is_empty (trim (p_channel props_blank_channel)) = true
  /\ joinChannel offline quiet props_blank_channel None initial no_timers
     = ({| hs_client := None; hs_isJoined := false; hs_isJoining := false;
           hs_remoteUsers := []; hs_error := Some Channel_required |}, no_timers).
Proof.
  split; [reflexivity|]. split; [reflexivity|].
  exact (proj1 (proj2 (joinChannel_reports_invalid_input offline quiet props_blank_channel
                         None initial no_timers eq_refl eq_refl)) eq_refl eq_refl).
Defined.

Lemma stable_join_try {B} (f : AgoraClient -> B) Q P env r :
  stable f Q P (acquire_token env r) ->
  stable f Q P (o2 <- this ;; if isPublisher o2 then createAndPublishTracks env else ret tt) ->
  (forall a c t u, P (EJoin a c t u) = true) ->
  stable f Q P (join_try env r).
Proof.
  intros H2 H3 H4. unfold join_try. stabilize_with auto.
Qed.

(** A [join] that succeeds leaves the object with an engine client. *)
Lemma join_ok_has_client env r w w' :
  join env r w = (Ok tt, w') -> client (self w') <> None.
Proof.
  intros E.
  destruct (valid_config (config (self w))) eqn:Hv.
  2:{ destruct (join_invalid env r w Hv) as (msg & _ & E'). congruence. }
  rewrite (join_valid env r w Hv) in E.
  destruct (ensure_client env w) as [[[]|e] w1]; [|discriminate].
  destruct (client (self w1)) as [c|] eqn:Hc; [|discriminate].
  assert (S : stable client (fun x => x <> None) (fun _ => true) (join_try env r)).
  { apply stable_join_try.
    - apply stable_acquire_token. reflexivity.
    - apply stable_publishing; reflexivity.
    - reflexivity. }
  destruct (S w1) as [_ F]; [rewrite Hc; discriminate|].
  destruct (join_try env r w1) as [[[]|e] w2]; [|discriminate].
  injection E as <-. cbn in F. rewrite F, Hc. discriminate.
Qed.

Lemma joinAsAudience_ok_has_client env w w' :
  joinAsAudience env w = (Ok tt, w') -> client (self w') <> None.
Proof.
  unfold joinAsAudience, set_isPublisher. unfold bind at 1. unfold bind at 1.
  unfold this at 1. unfold set_this at 1. cbn beta iota.
  apply join_ok_has_client.
Qed.

(** The state the hook starts in is settled. *)
Lemma settled_initial : settled initial.
Proof.
  unfold settled, initial. cbn. repeat split; try discriminate; try congruence.
Qed.

(** X18.  The state of the hook stays settled.  From a state in which
    [isJoining] is false, [isJoined] holds exactly when a client is held
    and a held client has its engine client (the state the hook starts
    in is one), each of [joinChannel] and [leaveChannel] ends in such a
    state again, whatever the network and the engine do. *)
Theorem hook_state_stays_settled env henv p tok st hw :
  settled st ->
  settled (fst (joinChannel env henv p tok st hw))
  /\ settled (fst (leaveChannel env st hw)).
Proof.
  intros S0. assert (I := S0). destruct I as (I1 & I2 & I3). split.
  - unfold joinChannel. rewrite I1. cbn [orb].
    destruct (hs_isJoined st) eqn:J; [exact S0|].
    destruct (joinAsAudience env _) as [[[]|err] w1] eqn:E; cbn [fst].
    + unfold settled. cbn. repeat split; try discriminate.
      intros held [= <-]. cbn. eapply joinAsAudience_ok_has_client; eauto.
    + unfold settled. cbn. split; [reflexivity|]. split; [|exact I3].
      exact I2.
  - unfold leaveChannel.
    destruct (hs_client st) as [held|] eqn:C; [|exact S0].
    destruct (hs_isJoined st) eqn:J; cbn [negb]; [|exact S0].
    assert (Hc : client (object held) <> None) by now apply I3.
    destruct (client (object held)) as [c|] eqn:Hcl; [|congruence].
    destruct (leave_run env {| events := hw_events hw; self := object held |} c Hcl)
      as (o' & E & Hc' & _).
    rewrite E.
    destruct (snd (run_calls env _ _)); cbn [fst].
    + unfold settled. cbn. repeat split; auto; try discriminate.
      intros held' [= <-]. cbn. rewrite Hc'. discriminate.
    + unfold settled. cbn. repeat split; auto; try discriminate; congruence.
Qed.

Lemma hook_state_stays_settled_witness :
  settled initial
  /\ settled (fst (joined leave_fails))
  /\ settled (fst (leaveChannel leave_fails initial no_timers)).
Proof.
  split; [exact settled_initial|].
  exact (hook_state_stays_settled leave_fails quiet props_token
           (Some (lit "007" ++ repeat 120%N 60)) initial no_timers settled_initial).
Defined.

Lemma clearInterval_clears id running : ~ In id (clearInterval (Some id) running).
Proof.
  unfold clearInterval. intros H. apply filter_In in H as [_ H].
  now rewrite Nat.eqb_refl in H.
Qed.

(** [leave] on an object that holds a client and no track: only the
    engine is called. *)
Lemma leave_without_tracks env w c :
  client (self w) = Some c ->
  localVideoTrack (self w) = None ->
  localAudioTrack (self w) = None ->
  isPublisher (self w) = false ->
  leave env w
  = (match raises env (events w ++ [ELeave]) with
     | Some e => Throw e
     | None => Ok tt
     end, after w [ELeave]).
Proof.
  destruct w as [h [cl cfg v a p]]. cbn. intros -> -> -> ->.
  unfold leave, try_catch, bind, call, emit, history, this,
    set_localVideoTrack, set_localAudioTrack, set_isPublisher, set_this,
    ret, throw, after; cbn.
  destruct (raises env _); reflexivity.
Qed.

(** X19.  Leaving through the mounted hook.  With a held client and
    [isJoined] true, [leaveChannel] clears the timer of the held client
    and runs [leave] on it.  If [leave] throws, the hook stays joined
    and keeps the client in the state [leave] left it in, with the
    message of the error as its [error], and nothing more happens.  If
    [leave] returns, the hook holds no client, is not joined and has no
    remote users; the render that follows runs the cleanup of the
    effect with the values of the render before, so [leave] is run a
    second time on the same object and calls the engine's [leave] once
    more: the hook ends without error when that call returns and with
    its message as [error] when it throws.  After that a further
    [leaveChannel] does nothing.  The timer is gone in every case. *)
Theorem leaveChannel_outcomes env st hw held c :
  hs_client st = Some held ->
  hs_isJoined st = true ->
  client (object held) = Some c ->
  let w0 := {| events := hw_events hw; self := object held |} in
  let w1 := snd (leave env w0) in
  let st2 := fst (leaveChannel_mounted env st hw) in
  let hw2 := snd (leaveChannel_mounted env st hw) in
  (forall id, updateInterval held = Some id -> ~ In id (hw_intervals hw2))
  /\ (forall err,
        fst (leave env w0) = Throw err ->
        hw_events hw2 = events w1
        /\ st2 = {| hs_client := Some {| object := self w1;
                                         updateInterval := updateInterval held |};
                    hs_isJoined := true;
                    hs_isJoining := hs_isJoining st;
                    hs_remoteUsers := hs_remoteUsers st;
                    hs_error := Some (message_of err (lit "Failed to leave channel")) |})
  /\ (fst (leave env w0) = Ok tt ->
      hw_events hw2 = events w1 ++ [ELeave]
      /\ st2 = {| hs_client := None;
                  hs_isJoined := false;
                  hs_isJoining := hs_isJoining st;
                  hs_remoteUsers := [];
                  hs_error :=
                    match raises env (events w1 ++ [ELeave]) with
                    | Some err => Some (message_of err (lit "Failed to leave channel"))
                    | None => None
                    end |}
      /\ leaveChannel_mounted env st2 hw2 = (st2, hw2)).
Proof.
  intros Hc Hj Hcl w0 w1 st2 hw2.
  unfold st2, hw2, w1, w0, leaveChannel_mounted, leaveChannel.
  rewrite Hc, Hj. cbn [negb].
  destruct (leave_run env {| events := hw_events hw; self := object held |} c Hcl)
    as (o' & E & Hc' & T).
  cbn [events self] in E, T.
  destruct (leave env {| events := hw_events hw; self := object held |})
    as [[[]|err] w'] eqn:L; cbn [fst snd hs_client].
  - (* the first [leave] returns *)
    destruct (snd (run_calls env (hw_events hw) (teardown_calls (object held))));
      [discriminate E|].
    destruct T as (_ & Tv & Ta & Tp).
    assert (W : w' = {| events := events w'; self := o' |}).
    { injection E as ->. reflexivity. }
    assert (S : self w' = o') by (rewrite W; reflexivity).
    unfold stale_leaveChannel. cbn [object updateInterval hw_events hw_intervals].
    rewrite <- S in Hc', Tv, Ta, Tp.
    assert (L2 := leave_without_tracks env w' c Hc' Tv Ta Tp).
    replace {| events := events w'; self := self w' |} with w' by (now destruct w').
    rewrite L2.
    split.
    { intros id ->. destruct (raises env _); cbn [snd hw_intervals];
        unfold clearInterval at 1; intros I; apply filter_In in I as [I _];
        now apply clearInterval_clears in I. }
    split; [discriminate|]. intros _.
    destruct (raises env (events w' ++ [ELeave])); cbn [fst snd hw_events after events];
      repeat split; reflexivity.
  - (* the first [leave] throws *)
    split.
    { intros id ->. cbn [snd hw_intervals]. apply clearInterval_clears. }
    split; [|discriminate]. intros err' [= <-]. split; reflexivity.
Qed.

(** The engine accepts the first [leave()] and rejects the second: the
    hook ends with an error although the first [leave()] returned. *)
Lemma leaveChannel_outcomes_witness :
  hs_client (fst (joined leave_once)) = Some (held_after leave_once)
  /\ hs_isJoined (fst (joined leave_once)) = true
  /\ fst (leave leave_once {| events := hw_events (snd (joined leave_once));
                              self := object (held_after leave_once) |}) = Ok tt
  /\ fst (leaveChannel_mounted leave_once (fst (joined leave_once))
            (snd (joined leave_once)))
     = {| hs_client := None; hs_isJoined := false; hs_isJoining := false;
          hs_remoteUsers := []; hs_error := Some (lit "track is closed") |}.
Proof.
  split; [reflexivity|]. split; [reflexivity|]. split; [reflexivity|].
  exact (proj1 (proj2 (proj2 (proj2
           (leaveChannel_outcomes leave_once (fst (joined leave_once))
              (snd (joined leave_once)) (held_after leave_once) rtc_vp8
              eq_refl eq_refl eq_refl)) eq_refl))).
Defined.

(** X20.  The token function of the hook.  With an empty App ID or an
    empty channel it throws its own error and does nothing else.  In
    every case all it does is send requests: it creates no engine client
    and calls no engine method, since it runs [generateToken] on an
    object of its own on which [join] is never called. *)
Theorem hook_generateToken_only_requests env p h :
  (is_empty (p_appId p) || is_empty (p_channel p) = true ->
   Hook.generateToken env p h
   = (Throw (new_Error (lit "App ID and channel are required for token generation")), h))
  /\ exists l,
       snd (Hook.generateToken env p h) = h ++ l /\ forallb is_fetch l = true.
Proof.
  unfold Hook.generateToken. split.
  - intros ->. reflexivity.
  - destruct (is_empty (p_appId p) || is_empty (p_channel p)).
    + exists []. now rewrite app_nil_r.
    + match goal with |- context [Client.generateToken env audience ?w] =>
        destruct (generateToken_only_fetches env audience w) as (res & l & -> & F)
      end.
      exists l. split; [reflexivity | exact F].
Qed.

